(** * Acorn2/coze_study: the comment scraper and the image-URL rewriter

    A shallow embedding of
      - [xhs/code/xhs_comments_scraper.py] and [xhs/code/cookie_extractor.py]
        (cookie loading, the scroll loop, the in-page comment extraction,
        the scrape pipeline),
      - [xhs/xhs_comment_image_scraper.py] (its scroll loop),
      - [xhs/xhs_img_deal.py] and [xhs/xhs_img_coze_workflow.py]
        (the query rewriting of image URLs),
    followed by the properties of these functions.

    Conventions.  A Python [str] is a list of Unicode code points, a
    JavaScript string a list of UTF-16 code units; both are lists of [N].
    Python integers are [Z].  Everything the browser answers (page heights,
    query results, exceptions) is an explicit input of the model. *)

From Stdlib Require Import String Ascii.
From Stdlib Require Import List Bool Arith ZArith NArith Lia Sorted.
Import ListNotations.
Local Open Scope list_scope.
Set Warnings "-register-all".

(* ================================================================== *)
(** * Part I: the program                                              *)
(* ================================================================== *)

(** ** Strings *)

Module Text.

(** UTF-8 bytes to code points; used only to write string constants. *)
Fixpoint utf8_decode (bs : list N) : list N :=
  match bs with
  | [] => []
  | b0 :: r0 =>
      if (b0 <? 128)%N then b0 :: utf8_decode r0
      else
        match r0 with
        | [] => []
        | b1 :: r1 =>
            if (b0 <? 224)%N then
              ((b0 - 192) * 64 + (b1 - 128))%N :: utf8_decode r1
            else
              match r1 with
              | [] => []
              | b2 :: r2 =>
                  if (b0 <? 240)%N then
                    ((b0 - 224) * 4096 + (b1 - 128) * 64 + (b2 - 128))%N
                      :: utf8_decode r2
                  else
                    match r2 with
                    | [] => []
                    | b3 :: r3 =>
                        ((b0 - 240) * 262144 + (b1 - 128) * 4096
                         + (b2 - 128) * 64 + (b3 - 128))%N
                          :: utf8_decode r3
                    end
              end
        end
  end.

(** The code points of a constant: a Python [str]. *)
Definition py (s : string) : list N :=
  utf8_decode (map N_of_ascii (list_ascii_of_string s)).

(** Code points to UTF-16 code units. *)
Fixpoint utf16 (cps : list N) : list N :=
  match cps with
  | [] => []
  | c :: r =>
      if (c <? 65536)%N then c :: utf16 r
      else (55296 + (c - 65536) / 1024)%N
             :: (56320 + (c - 65536) mod 1024)%N :: utf16 r
  end.

(** The code units of a constant: a JavaScript string. *)
Definition js (s : string) : list N := utf16 (py s).

Fixpoint eqb (a b : list N) : bool :=
  match a, b with
  | [], [] => true
  | x :: a', y :: b' => (x =? y)%N && eqb a' b'
  | _, _ => false
  end.

(** [s.startswith(p)], [s.startsWith(p)] *)
Fixpoint startswith (p s : list N) : bool :=
  match p, s with
  | [], _ => true
  | x :: p', y :: s' => (x =? y)%N && startswith p' s'
  | _ :: _, [] => false
  end.

(** [sub in s], [s.includes(sub)] *)
Fixpoint includes (s sub : list N) : bool :=
  startswith sub s ||
  match s with
  | [] => false
  | _ :: r => includes r sub
  end.

(** [c in s] for one character *)
Definition has_char (c : N) (s : list N) : bool := existsb (N.eqb c) s.

(** Membership of a string in a collection of strings. *)
Definition mem (x : list N) (l : list (list N)) : bool := existsb (eqb x) l.

Fixpoint drop_while (f : N -> bool) (s : list N) : list N :=
  match s with
  | [] => []
  | c :: r => if f c then drop_while f r else s
  end.

(** Strip on both ends the characters satisfying [f]. *)
Definition strip_with (f : N -> bool) (s : list N) : list N :=
  rev (drop_while f (rev (drop_while f s))).

Definition in_range (lo hi c : N) : bool := (lo <=? c)%N && (c <=? hi)%N.

(** ECMAScript WhiteSpace and LineTerminator, the characters [trim] removes. *)
Definition js_space (c : N) : bool :=
  in_range 9 13 c || (c =? 32)%N || (c =? 160)%N || (c =? 5760)%N
  || in_range 8192 8202 c || (c =? 8232)%N || (c =? 8233)%N
  || (c =? 8239)%N || (c =? 8287)%N || (c =? 12288)%N || (c =? 65279)%N.

(** [s.trim()] *)
Definition trim (s : list N) : list N := strip_with js_space s.

(** [str.isspace] on one character, the characters [strip()] removes. *)
Definition py_space (c : N) : bool :=
  in_range 9 13 c || in_range 28 32 c || (c =? 133)%N || (c =? 160)%N
  || (c =? 5760)%N || in_range 8192 8202 c || (c =? 8232)%N
  || (c =? 8233)%N || (c =? 8239)%N || (c =? 8287)%N || (c =? 12288)%N.

(** [s.strip()] *)
Definition strip (s : list N) : list N := strip_with py_space s.

(** [s.split(sep)] for a one-character separator *)
Fixpoint split (sep : N) (s : list N) : list (list N) :=
  match s with
  | [] => [[]]
  | c :: r =>
      if (c =? sep)%N then [] :: split sep r
      else match split sep r with
           | [] => [[c]]
           | h :: t => (c :: h) :: t
           end
  end.

(** [s.split(sep, 1)] when [sep in s]: the text before and after the first
    separator; [None] when there is none. *)
Fixpoint split_first (sep : N) (s : list N) : option (list N * list N) :=
  match s with
  | [] => None
  | c :: r =>
      if (c =? sep)%N then Some ([], r)
      else match split_first sep r with
           | Some (a, b) => Some (c :: a, b)
           | None => None
           end
  end.

(** [sep.join(parts)] for a one-character separator *)
Fixpoint join (sep : N) (parts : list (list N)) : list N :=
  match parts with
  | [] => []
  | [s] => s
  | s :: rest => s ++ sep :: join sep rest
  end.

(** Lower-casing of the letters A-Z.  The programs compare the lower-cased
    text with words of the letters "comment", "jpg", "jpeg", "png" only, and
    no character outside A-Z lower-cases to one of these letters, so the
    comparisons are decided as in the full Unicode mapping. *)
Definition lower_char (c : N) : N :=
  if in_range 65 90 c then (c + 32)%N else c.

Definition lower (s : list N) : list N := map lower_char s.

Definition is_digit (c : N) : bool := in_range 48 57 c.

(** The double quote, written by its code. *)
Definition dq : list N := [34%N].

End Text.

(** ** The logger: [self.log] *)

Module Logging.
Import Text.

(** [self.debug], and the error handler of [sys.stdout].  The console is
    taken to be a Unicode one (the messages of the program are Chinese text
    and emoji), so every character prints except, possibly, a surrogate
    code point: with the handler [strict], Python's default, no surrogate
    prints; with [surrogateescape] those from U+DC80 to U+DCFF do. *)
Record Logger : Type := mkLogger {
  debug : bool;
  prints_surrogate : N -> bool
}.

Definition is_surrogate (c : N) : bool := in_range 55296 57343 c.

Definition printable (log : Logger) (c : N) : bool :=
  negb (is_surrogate c) || prints_surrogate log c.

(** [self.log(...)] with [text] put into the message raises: [print] is
    reached only with [debug] set, and fails with a [UnicodeEncodeError] on
    a character the console does not take. *)
Definition print_raises (log : Logger) (text : list N) : bool :=
  debug log && negb (forallb (printable log) text).

(** A JavaScript string as Python receives it from [page.evaluate]: the
    pairs of surrogate code units become one code point each, a unit
    without its partner stays a surrogate code point. *)
Fixpoint of_utf16 (units : list N) : list N :=
  match units with
  | [] => []
  | h :: r =>
      if in_range 55296 56319 h then
        match r with
        | l :: r' =>
            if in_range 56320 57343 l then
              (65536 + (h - 55296) * 1024 + (l - 56320))%N :: of_utf16 r'
            else h :: of_utf16 r
        | [] => [h]
        end
      else h :: of_utf16 r
  end.

(** The logger of a scraper made with the defaults, on a console with the
    default error handler. *)
Definition strict_logger : Logger := mkLogger true (fun _ => false).

(** [debug=False] *)
Definition silent_logger : Logger := mkLogger false (fun _ => false).

End Logging.

(** ** The scroll loops: [scroll_and_load_comments] and [scroll_and_expand] *)

Module Scroll.

(** What one iteration of the [for] loop gets from the page.  The loop
    reads [document.body.scrollHeight], scrolls to the bottom and waits,
    tries the load-more buttons (every failure there is caught inside the
    loop body) and reads the height again.  The two reads, the scroll and
    the wait are outside any [try]. *)
Inductive RoundObs : Type :=
| Heights (curr_height new_height : Z)
| ReadRaises
| ScrollRaises (curr_height : Z)
| RereadRaises (curr_height : Z).

(** The page, as the loop sees it: round number (from 0) to observation. *)
Definition Page : Type := nat -> RoundObs.

(** The loop variables; [rounds] counts the iterations carried out. *)
Record ScrollState : Type := mkState {
  last_height : Z;
  stable_rounds : nat;
  rounds : nat
}.

Inductive Exit : Type :=
| Converged         (* left by [break] *)
| BudgetExhausted   (* [range(max_rounds)] ran out *)
| Raised.           (* an exception left the function *)

Definition init : ScrollState := mkState 0 0 0.

(** [new_height == curr_height == last_height] *)
Definition heights_equal (st : ScrollState) (curr new : Z) : bool :=
  (new =? curr)%Z && (curr =? last_height st)%Z.

(** The loop, [fuel] iterations of [range(max_rounds)] still to go.
    [threshold] is the constant of [if stable_rounds >= threshold: break]. *)
Fixpoint loop (threshold : nat) (page : Page) (fuel : nat) (st : ScrollState)
  : Exit * ScrollState :=
  match fuel with
  | O => (BudgetExhausted, st)
  | S fuel' =>
      match page (rounds st) with
      | Heights curr new =>
          if heights_equal st curr new then
            let st' := mkState (last_height st) (S (stable_rounds st))
                               (S (rounds st)) in
            if threshold <=? stable_rounds st' then (Converged, st')
            else loop threshold page fuel' st'
          else
            loop threshold page fuel' (mkState new 0 (S (rounds st)))
      | ReadRaises | ScrollRaises _ | RereadRaises _ => (Raised, st)
      end
  end.

(** [xhs_comments_scraper.py] and [cookie_extractor.py]:
    [if stable_rounds >= 3: break]. *)
Definition scroll_and_load_comments (page : Page) (max_rounds : nat)
  : Exit * ScrollState :=
  loop 3 page max_rounds init.

(** [xhs_comment_image_scraper.py]: [if stable_rounds >= 2: break]. *)
Definition scroll_and_expand (page : Page) (max_rounds : nat)
  : Exit * ScrollState :=
  loop 2 page max_rounds init.

(** *** Pages for the statements *)

(** A page that never raises: round [i] reads [fst (obs i)] before the
    scroll and [snd (obs i)] after it. *)
Definition observed (obs : nat -> Z * Z) : Page :=
  fun i => Heights (fst (obs i)) (snd (obs i)).

(** A simulated page driven by a height sequence: the page has height
    [hs[i]] when round [i] starts, each round moves it to the next height,
    and it keeps the last height once the sequence is used up. *)
Definition height_at (hs : list Z) (i : nat) : Z := nth i hs (last hs 0%Z).

Definition heights_of (hs : list Z) (i : nat) : Z * Z :=
  (height_at hs i, height_at hs (S i)).

Definition simulated (hs : list Z) : Page := observed (heights_of hs).

(** The other reading of a height sequence: both reads of round [i] give
    [hs[i]], the scroll changing nothing within the round, and the page
    keeps the last height once the sequence is used up. *)
Definition sampled (hs : list Z) : Page :=
  observed (fun i => (height_at hs i, height_at hs i)).

(** The height read at the end of the previous round; 0, the initial
    [last_height], before the first round. *)
Definition prev_height (obs : nat -> Z * Z) (i : nat) : Z :=
  match i with
  | O => 0%Z
  | S j => snd (obs j)
  end.

(** Round [i] left the height unchanged: after == before == previous. *)
Definition unchanged (obs : nat -> Z * Z) (i : nat) : bool :=
  (snd (obs i) =? fst (obs i))%Z && (fst (obs i) =? prev_height obs i)%Z.

(** The [c] rounds before round [k] (rounds [k-c .. k-1]) were all unchanged. *)
Definition stable_window (obs : nat -> Z * Z) (c k : nat) : Prop :=
  c <= k /\ forall j, k - c <= j < k -> unchanged obs j = true.

(** Length of the run of unchanged rounds that ends just before round [k]. *)
Fixpoint streak (obs : nat -> Z * Z) (k : nat) : nat :=
  match k with
  | O => 0
  | S j => if unchanged obs j then S (streak obs j) else 0
  end.

(** The height grew in round [i]: the height read after the scroll is
    larger than the one read before it, or than the one the previous round
    ended with. *)
Definition grows (obs : nat -> Z * Z) (i : nat) : Prop :=
  (fst (obs i) < snd (obs i))%Z \/ (prev_height obs i < snd (obs i))%Z.

(** The loop invariant: [last_height] is the height the previous round
    ended with, and the counter is the current streak, below the threshold. *)
Definition inv (thr : nat) (obs : nat -> Z * Z) (st : ScrollState) : Prop :=
  last_height st = prev_height obs (rounds st) /\
  stable_rounds st = streak obs (rounds st) /\
  stable_rounds st < thr.

(** What [loop] returns when started before round [r0] with [fuel]
    iterations to go: it leaves by [break] after the first round that
    brings the streak to the threshold, or uses up its iterations with the
    streak below the threshold throughout. *)
Definition loop_post (thr : nat) (obs : nat -> Z * Z) (r0 fuel : nat)
           (res : Exit * ScrollState) : Prop :=
  (fst res = Converged /\
     rounds (snd res) <= r0 + fuel /\
     r0 < rounds (snd res) /\
     streak obs (rounds (snd res)) = thr /\
     stable_rounds (snd res) = thr /\
     last_height (snd res) = prev_height obs (rounds (snd res)) /\
     forall j, r0 <= j < rounds (snd res) -> streak obs j < thr)
  \/
  (fst res = BudgetExhausted /\
     rounds (snd res) = r0 + fuel /\
     inv thr obs (snd res) /\
     forall j, r0 <= j <= r0 + fuel -> streak obs j < thr).

(** The loop leaves by [break] with state [st] exactly in this situation:
    within the budget, the [c] rounds just carried out were unchanged, and
    no earlier round completed such a run. *)
Definition stops_at (obs : nat -> Z * Z) (c max_rounds : nat)
           (st : ScrollState) : Prop :=
  rounds st <= max_rounds /\
  stable_window obs c (rounds st) /\
  (forall k, k < rounds st -> ~ stable_window obs c k) /\
  stable_rounds st = c /\
  last_height st = prev_height obs (rounds st).

(** The counter after one more round, from the state [st] the loop was in. *)
Definition counter_after (st : ScrollState) (o : Z * Z) : nat :=
  if heights_equal st (fst o) (snd o) then S (stable_rounds st) else 0.

(** *** Sample pages *)

(** Growth in the first round, then nothing. *)
Definition grow_then_flat : list Z := [100; 250; 250; 250]%Z.

(** Growth in the first two rounds. *)
Definition grow_twice : list Z := [100; 250; 400]%Z.

(** The page shrinks between two rounds and is back at 250 after each. *)
Definition shrink_between_rounds (i : nat) : Z * Z :=
  match i with
  | O => (250, 250)%Z
  | S _ => (100, 250)%Z
  end.

(** The height doubles in every round. *)
Definition doubling (i : nat) : Z * Z :=
  (100 * 2 ^ Z.of_nat i, 100 * 2 ^ Z.of_nat (S i))%Z.

(** A page that stays at height [h] and never raises. *)
Definition static_page (h : Z) : Page := observed (fun _ => (h, h)).

End Scroll.

(** ** The in-page script of [extract_comments] *)

Module Extract.
Import Text.

Definition jsstr : Type := list N.

(** A node found inside a candidate by one of the nested queries. *)
Record SubNode : Type := mkSub {
  sub_text : jsstr;                 (* textContent *)
  sub_datetime : option jsstr       (* getAttribute('datetime') *)
}.

(** A candidate element, with what the script reads from it: its text, class,
    tag and id, and the answers of [element.querySelectorAll] to the three
    nested selector lists. *)
Record Element : Type := mkElement {
  textContent : jsstr;
  className : jsstr;
  tagName : jsstr;
  elem_id : jsstr;
  userElements : list SubNode;
  timeElements : list SubNode;
  likeElements : list SubNode
}.

(** The document, as the script sees it: [document.querySelectorAll]. *)
Definition Document : Type := jsstr -> list Element.

(** The two clock reads made for each emitted record. *)
Record Clock : Type := mkClock {
  date_now : nat -> N;       (* Date.now() while element [index] is parsed *)
  new_date : nat -> N        (* new Date() while element [index] is parsed *)
}.

(** A JavaScript Number that is an integer or [Infinity]. *)
Inductive JsNumber : Type :=
| Finite (n : N)
| Infinity.

Record Comment : Type := mkComment {
  id : nat * N;              (* `comment_${index}_${Date.now()}` *)
  content : jsstr;
  username : jsstr;
  timestamp : jsstr;
  like_count : JsNumber;
  element_class : jsstr;
  element_tag : jsstr;
  element_id : jsstr;
  extracted_at : N
}.

(** An entry of [debugInfo.searchResults]; its [samples] are modelled apart,
    in [samples] below. *)
Record SearchResult : Type := mkSearch {
  selector : jsstr;
  found : nat
}.

(** [[attr*="word"]] *)
Definition attr_contains (attr word : string) : jsstr :=
  js "[" ++ js attr ++ js "*=" ++ dq ++ js word ++ dq ++ js "]".

Definition selectors : list jsstr :=
  [ attr_contains "class" "comment";
    attr_contains "class" "Comment";
    attr_contains "data-testid" "comment";
    js ".comment-item";
    js ".comment-list .comment";
    attr_contains "class" "note-comment";
    attr_contains "class" "NoteComment";
    attr_contains "class" "feed-comment";
    attr_contains "class" "user-comment";
    attr_contains "class" "interaction" ].

Definition generic_tags : jsstr := js "div, section, article, span, p".

Definition text_feature_based : jsstr := js "text-feature-based".

(** The loop over [selectors]: the first selector with a match supplies
    [commentElements] and ends the loop.  The selectors are constants of
    valid syntax, so [querySelectorAll] does not throw and the [catch] of the
    loop body is never entered. *)
Fixpoint try_selectors (document : Document) (sels : list jsstr)
  : list Element * list SearchResult :=
  match sels with
  | [] => ([], [])
  | sel :: rest =>
      let elements := document sel in
      if 0 <? length elements then
        (elements, [mkSearch sel (length elements)])
      else
        let (commentElements, log) := try_selectors document rest in
        (commentElements, mkSearch sel (length elements) :: log)
  end.

(** The filter of the text-feature search, on elements whose [className] is
    a string. *)
Definition text_feature (el : Element) : bool :=
  let text := textContent el in
  let cls := className el in
  (5 <? length text) && (length text <? 2000) &&
  (includes (lower cls) (js "comment")
   || includes text (js "回复") || includes text (js "点赞")
   || includes text (js "❤️") || includes text (js "👍")
   || includes text (js "分钟前") || includes text (js "小时前")
   || includes text (js "天前") || includes text (js "刚刚")).

(** [commentElements] and [debugInfo.searchResults] before the parsing. *)
Definition find_comment_elements (document : Document)
  : list Element * list SearchResult :=
  let (commentElements, log) := try_selectors document selectors in
  if length commentElements =? 0 then
    let candidateElements := filter text_feature (document generic_tags) in
    (candidateElements,
     log ++ [mkSearch text_feature_based (length candidateElements)])
  else (commentElements, log).

(** An entry of the [samples] of a search result, without its
    [textLength]. *)
Record Sample : Type := mkSample {
  sample_tagName : jsstr;
  sample_className : jsstr;
  textPreview : jsstr        (* textContent.substring(0, 50) *)
}.

Definition sample_of (el : Element) : Sample :=
  mkSample (tagName el) (className el) (firstn 50 (textContent el)).

(** The samples of the entries that the loop over [selectors] pushes, in
    order: [Array.from(elements).slice(0, 2)] for every selector tried. *)
Fixpoint selector_samples (document : Document) (sels : list jsstr)
  : list Sample :=
  match sels with
  | [] => []
  | sel :: rest =>
      let elements := document sel in
      map sample_of (firstn 2 elements)
      ++ (if 0 <? length elements then []
          else selector_samples document rest)
  end.

(** All the samples of [debugInfo.searchResults]: those of the selectors
    and, when the text-feature search runs, [candidateElements.slice(0, 5)]. *)
Definition samples (document : Document) : list Sample :=
  let (commentElements, _) := try_selectors document selectors in
  selector_samples document selectors
  ++ (if length commentElements =? 0 then
        map sample_of (firstn 5 (filter text_feature (document generic_tags)))
      else []).

(** The test that makes the parser skip an element. *)
Definition skipped (text : jsstr) : bool :=
  (length text <? 2)
  || includes text (js "展开更多")
  || includes text (js "查看全部")
  || eqb text (js "评论")
  || eqb text (js "点赞")
  || eqb text (js "回复")
  || includes text (js "登录")
  || includes text (js "注册").

(** [likeText.match(/\d+/)]: the first maximal run of digits. *)
Fixpoint take_digits (s : jsstr) : jsstr :=
  match s with
  | [] => []
  | c :: r => if is_digit c then c :: take_digits r else []
  end.

Definition match_digits (s : jsstr) : option jsstr :=
  match drop_while (fun c => negb (is_digit c)) s with
  | [] => None
  | d => Some (take_digits d)
  end.

(** The integer that a run of digits writes. *)
Definition decimal_value (digits : jsstr) : N :=
  fold_left (fun acc c => (acc * 10 + (c - 48))%N) digits 0%N.

(** The Number nearest to the integer [n]: [n] itself up to 53 bits, else
    [n] rounded to 53 significant bits, a tie going to the even neighbour,
    and [Infinity] from 2^1024 on. *)
Definition to_number (n : N) : JsNumber :=
  let bits := N.size n in
  if (bits <=? 53)%N then Finite n
  else
    let shift := (bits - 53)%N in
    let q := N.shiftr n shift in
    let rest := (n mod 2 ^ shift)%N in
    let half := (2 ^ (shift - 1))%N in
    let q := if (half <? rest)%N || ((rest =? half)%N && N.odd q)
             then (q + 1)%N else q in
    if (1024 <? N.size (N.shiftl q shift))%N then Infinity
    else Finite (N.shiftl q shift).

(** [parseInt] of a run of digits: the Number nearest to its value (V8, the
    engine of the browser the scrapers launch, rounds the decimal
    exactly). *)
Definition parseInt (digits : jsstr) : JsNumber :=
  to_number (decimal_value digits).

(** The loop over [likeElements]: the first one with a digit decides. *)
Fixpoint first_like_count (likes : list SubNode) : JsNumber :=
  match likes with
  | [] => Finite 0
  | likeEl :: rest =>
      match match_digits (trim (sub_text likeEl)) with
      | Some m => parseInt m
      | None => first_like_count rest
      end
  end.

(** [a || b] on strings: [b] when [a] is empty. *)
Definition or_else (a b : jsstr) : jsstr :=
  match a with
  | [] => b
  | _ => a
  end.

Definition first_username (users : list SubNode) : jsstr :=
  match users with
  | [] => []
  | u :: _ => trim (sub_text u)
  end.

Definition first_timestamp (times : list SubNode) : jsstr :=
  match times with
  | [] => []
  | t :: _ =>
      or_else (trim (sub_text t))
              (match sub_datetime t with
               | Some d => d
               | None => []
               end)
  end.

(** The body of the [forEach] callback: [None] when the element is skipped. *)
Definition parse_element (clock : Clock) (index : nat) (element : Element)
  : option Comment :=
  let text := trim (textContent element) in
  if skipped text then None
  else Some (mkComment (index, date_now clock index)
                       text
                       (first_username (userElements element))
                       (first_timestamp (timeElements element))
                       (first_like_count (likeElements element))
                       (className element)
                       (tagName element)
                       (elem_id element)
                       (new_date clock index)).

(** [commentElements.forEach((element, index) => ...)], from [index] on. *)
Fixpoint parse_elements (clock : Clock) (index : nat) (els : list Element)
  : list Comment :=
  match els with
  | [] => []
  | element :: rest =>
      match parse_element clock index element with
      | Some comment => comment :: parse_elements clock (S index) rest
      | None => parse_elements clock (S index) rest
      end
  end.

(** [comment.content.substring(0, 30)] *)
Definition contentKey (comment : Comment) : jsstr := firstn 30 (content comment).

(** The de-duplication loop; [seenContent] is the set built so far. *)
Fixpoint unique_from (seenContent : list jsstr) (comments : list Comment)
  : list Comment :=
  match comments with
  | [] => []
  | comment :: rest =>
      if negb (mem (contentKey comment) seenContent)
         && (3 <? length (content comment))
      then comment :: unique_from (contentKey comment :: seenContent) rest
      else unique_from seenContent rest
  end.

Definition uniqueComments (comments : list Comment) : list Comment :=
  unique_from [] comments.

(** From the candidate elements to the returned comments. *)
Definition comments_of (clock : Clock) (commentElements : list Element)
  : list Comment :=
  uniqueComments (parse_elements clock 0 commentElements).

(** The whole script: [{comments: uniqueComments, debug: debugInfo}]. *)
Definition extract_script (clock : Clock) (document : Document)
  : list Comment * list SearchResult :=
  let (commentElements, log) := find_comment_elements document in
  (comments_of clock commentElements, log).

(** *** Sample inputs *)

(** An element with the given text and nothing else. *)
Definition text_only (text : jsstr) : Element :=
  mkElement text [] (js "DIV") [] [] [] [].

Definition scenario_texts : list jsstr :=
  [ js "Great post! 👍"; js "Great post! 👍 (dup)"; js "ab"; js "登录" ].

Definition zero_clock : Clock := mkClock (fun _ => 0%N) (fun _ => 0%N).

(** Two texts that differ after their 31st character only. *)
Definition same_start : list jsstr :=
  [ js "0123456789012345678901234567890 first";
    js "0123456789012345678901234567890 second" ].

(** [sub] is [l] with some elements left out, order kept. *)
Inductive Subseq {A : Type} : list A -> list A -> Prop :=
| Subseq_nil : Subseq [] []
| Subseq_keep x sub l : Subseq sub l -> Subseq (x :: sub) (x :: l)
| Subseq_drop x sub l : Subseq sub l -> Subseq sub (x :: l).

(** [comment] sits in [comments] with no record of the same key before it. *)
Definition first_of_its_key (comments : list Comment) (comment : Comment)
  : Prop :=
  exists before after,
    comments = before ++ comment :: after /\
    ~ In (contentKey comment) (map contentKey before).

(** The length test of the de-duplication loop. *)
Definition long (comment : Comment) : bool := 3 <? length (content comment).

(** Membership in the output of the loop started with [seen]. *)
Definition kept_from (seen : list jsstr) (cs : list Comment) (c : Comment)
  : Prop :=
  exists before after,
    cs = before ++ c :: after /\
    long c = true /\
    ~ In (contentKey c) seen /\
    forall d, In d before -> long d = true -> contentKey d <> contentKey c.

(** The selector finds nothing in the document. *)
Definition no_match (document : Document) (sel : jsstr) : Prop :=
  document sel = [].

(** A document in which only [sel] matches, with [els], and the generic tags
    match [others]. *)
Definition doc_with (sel : jsstr) (els others : list Element) : Document :=
  fun q => if eqb q sel then els
           else if eqb q generic_tags then others else [].

(** A document where [.comment-item] is the first selector with a match. *)
Definition sample_document : Document :=
  doc_with (js ".comment-item") [text_only (js "nice one")]
           [text_only (js "3 分钟前 回复")].

(** A text whose 50th and 51st code units are the two halves of one
    character. *)
Definition cut_text : jsstr := repeat 97%N 49 ++ js "👍".

(** A document where [.comment-item] matches one element, with that text. *)
Definition cut_document : Document :=
  doc_with (js ".comment-item") [text_only cut_text] [].

(** The [index] in the id of a record: the position of its element among
    the candidates. *)
Definition index_of (comment : Comment) : nat := fst (id comment).

Definition not_digit (c : N) : bool := negb (is_digit c).

End Extract.

(** ** Cookie loading: [parse_cookie_string] and [load_cookies] *)

Module Cookies.
Import Text Logging.

Definition str : Type := list N.

(** A call that returns or raises. *)
Inductive result (A : Type) : Type :=
| Returns (a : A)
| Raises.

Arguments Returns {A} a.
Arguments Raises {A}.

(** The Python values [json.load] produces and the functions build.  A [dict]
    is the list of its items in insertion order; a finite float is
    [m * 2^e]. *)
Inductive value : Type :=
| VNone
| VBool (b : bool)
| VInt (z : Z)
| VFloat (m e : Z)
| VStr (s : str)
| VList (l : list value)
| VDict (d : list (str * value)).

(** [key in d] *)
Definition dict_has (key : str) (d : list (str * value)) : bool :=
  existsb (fun kv => eqb key (fst kv)) d.

(** [d[key]] *)
Fixpoint dict_get (key : str) (d : list (str * value)) : option value :=
  match d with
  | [] => None
  | (k, v) :: r => if eqb key k then Some v else dict_get key r
  end.

(** [d[key] = v]: an existing key keeps its place. *)
Fixpoint dict_set (key : str) (v : value) (d : list (str * value))
  : list (str * value) :=
  match d with
  | [] => [(key, v)]
  | (k, w) :: r => if eqb key k then (k, v) :: r
                   else (k, w) :: dict_set key v r
  end.

Definition semicolon : N := 59.
Definition equals : N := 61.

Definition non_empty (s : str) : bool :=
  match s with
  | [] => false
  | _ :: _ => true
  end.

(** [[pair.strip() for pair in cookie_string.split(';') if pair.strip()]] *)
Definition cookie_pairs (cookie_string : str) : list str :=
  map strip (filter (fun pair => non_empty (strip pair))
                    (split semicolon cookie_string)).

Definition http_only_names : list str :=
  [py "web_session"; py "a1"; py "websectiga"].

(** The cookie built for one pair; [now] is [int(time.time())]. *)
Definition make_cookie (name val : str) (now : Z) : value :=
  let cookie :=
    [ (py "name", VStr name);
      (py "value", VStr val);
      (py "domain", VStr (py ".xiaohongshu.com"));
      (py "path", VStr (py "/"));
      (py "httpOnly", VBool false);
      (py "secure", VBool true);
      (py "sameSite", VStr (py "Lax")) ] in
  let cookie :=
    if mem name http_only_names
    then dict_set (py "httpOnly") (VBool true) cookie
    else cookie in
  VDict (dict_set (py "expires") (VInt (now + 24 * 60 * 60)%Z) cookie).

Definition logged_names : list str :=
  [ py "a1"; py "web_session"; py "webId"; py "xsecappid";
    py "websectiga"; py "sec_poison_id" ].

(** The part of [value_preview] that comes from the value:
    [value[:20]] of [value[:20] + "..." if len(value) > 20 else value]. *)
Definition preview_text (val : str) : str :=
  if 20 <? length val then firstn 20 val else val.

(** The log line for an important cookie raises. *)
Definition pair_log_raises (log : Logger) (name val : str) : bool :=
  mem name logged_names && print_raises log (preview_text val).

(** The loop over [cookie_pairs]; [clock n] is the [n]-th clock read and
    [reads] the number of reads made so far.  The cookie of a pair is built
    and appended, then its log line is printed. *)
Fixpoint parse_pairs (log : Logger) (clock : nat -> Z) (reads : nat)
         (pairs : list str) : result (list value) :=
  match pairs with
  | [] => Returns []
  | pair_ :: rest =>
      match split_first equals pair_ with
      | None => parse_pairs log clock reads rest            (* continue *)
      | Some (name, val) =>
          let name := strip name in
          let val := strip val in
          if pair_log_raises log name val then Raises
          else
            match parse_pairs log clock (S reads) rest with
            | Returns cookies =>
                Returns (make_cookie name val (clock reads) :: cookies)
            | Raises => Raises
            end
      end
  end.

(** [parse_cookie_string]: [None] is Python's [None]. *)
Definition parse_cookie_string (log : Logger) (clock : nat -> Z)
           (cookie_string : str) : result (option (list value)) :=
  match cookie_string with
  | [] => Returns None
  | _ =>
      match parse_pairs log clock 0 (cookie_pairs cookie_string) with
      | Returns cookies => Returns (Some cookies)
      | Raises => Raises
      end
  end.

(** [load_cookies_from_string]: the [try] around [parse_cookie_string], with
    [return None] in its [except]. *)
Definition load_cookies_from_string (log : Logger) (clock : nat -> Z)
           (cookie_string : str) : option (list value) :=
  match parse_cookie_string log clock cookie_string with
  | Returns cookies => cookies
  | Raises => None
  end.

(** *** The cookie file *)

(** [bool(v)] *)
Definition truthy (v : value) : bool :=
  match v with
  | VNone => false
  | VBool b => b
  | VInt z => negb (z =? 0)%Z
  | VFloat m _ => negb (m =? 0)%Z
  | VStr s => non_empty s
  | VList l => match l with [] => false | _ => true end
  | VDict d => match d with [] => false | _ => true end
  end.

(** [v == "..."] for a string constant *)
Definition is_str (s : str) (v : value) : bool :=
  match v with
  | VStr t => eqb s t
  | _ => false
  end.

(** ["..." in v]; [None] is a [TypeError]. *)
Definition contains (s : str) (v : value) : option bool :=
  match v with
  | VDict d => Some (dict_has s d)
  | VList l => Some (existsb (is_str s) l)
  | VStr t => Some (includes t s)
  | VNone | VBool _ | VInt _ | VFloat _ _ => None
  end.

(** The search through [data.items()] for the first non-empty list whose
    first element contains "name"; the outer [None] is a [TypeError]. *)
Fixpoint first_cookie_list (items : list (str * value))
  : option (option value) :=
  match items with
  | [] => Some None
  | (_, VList (first :: others)) :: rest =>
      match contains (py "name") first with
      | None => None
      | Some true => Some (Some (VList (first :: others)))
      | Some false => first_cookie_list rest
      end
  | _ :: rest => first_cookie_list rest
  end.

(** The value of [cookies] after the format detection. *)
Definition select_cookies (data : value) : option (option value) :=
  match data with
  | VList _ => Some (Some data)
  | VDict d =>
      if dict_has (py "cookies") d then Some (dict_get (py "cookies") d)
      else if dict_has (py "value") d || dict_has (py "name") d
           then Some (Some (VList [data]))
           else first_cookie_list d
  | _ => Some None
  end.

(** What [for cookie in cookies] goes through; [None] is a [TypeError]. *)
Definition iterate (cookies : value) : option (list value) :=
  match cookies with
  | VList l => Some l
  | VDict d => Some (map (fun kv => VStr (fst kv)) d)
  | VStr s => Some (map (fun c => VStr [c]) s)
  | VNone | VBool _ | VInt _ | VFloat _ _ => None
  end.

(** [isinstance(cookie, dict) and "name" in cookie and "value" in cookie] *)
Definition is_cookie (cookie : value) : bool :=
  match cookie with
  | VDict d => dict_has (py "name") d && dict_has (py "value") d
  | _ => false
  end.

Definition set_default (key : str) (v : value) (d : list (str * value))
  : list (str * value) :=
  if dict_has key d then d else dict_set key v d.

Definition needs_expiry (d : list (str * value)) : bool :=
  negb (dict_has (py "expires") d) && negb (dict_has (py "maxAge") d).

(** The validation loop.  [expiry] tells the two versions apart: [true] for
    [cookie_extractor.py], which also sets [expires], [false] for
    [xhs_comments_scraper.py]. *)
Fixpoint validate (expiry : bool) (clock : nat -> Z) (reads : nat)
         (cookies : list value) : list value :=
  match cookies with
  | [] => []
  | cookie :: rest =>
      match cookie with
      | VDict d =>
          if dict_has (py "name") d && dict_has (py "value") d then
            let d1 := set_default (py "domain")
                                  (VStr (py ".xiaohongshu.com")) d in
            let d2 := set_default (py "path") (VStr (py "/")) d1 in
            if expiry && needs_expiry d2 then
              VDict (dict_set (py "expires")
                              (VInt (clock reads + 24 * 60 * 60)%Z) d2)
                :: validate expiry clock (S reads) rest
            else VDict d2 :: validate expiry clock reads rest
          else validate expiry clock reads rest
      | _ => validate expiry clock reads rest
      end
  end.

Definition important_names : list str :=
  [py "web_session"; py "a1"; py "webId"; py "xsecappid"].

(** Building [value_preview] or printing it raises: [len] of a value
    without length, the slice and the concatenation with "..." on a long list
    or dict, or a character of a string that the console does not take.  A
    short list or dict is printed through [repr], which escapes the
    surrogates. *)
Definition preview_raises (log : Logger) (v : value) : bool :=
  match v with
  | VStr s => print_raises log (preview_text s)
  | VList l => 20 <? length l
  | VDict d => 20 <? length d
  | VNone | VBool _ | VInt _ | VFloat _ _ => true
  end.

(** The logging loop raises on this cookie. *)
Definition log_raises (log : Logger) (cookie : value) : bool :=
  match cookie with
  | VDict d =>
      match dict_get (py "name") d, dict_get (py "value") d with
      | Some (VStr name), Some v =>
          mem name important_names && preview_raises log v
      | _, _ => false
      end
  | _ => false
  end.

(** The part of [load_cookies] after [json.load]; every exception ends in
    [return None]. *)
Definition load_data (log : Logger) (expiry : bool) (clock : nat -> Z)
           (data : value) : option (list value) :=
  match select_cookies data with
  | None => None
  | Some None => None
  | Some (Some cookies) =>
      if negb (truthy cookies) then None
      else
        match iterate cookies with
        | None => None
        | Some items =>
            let valid_cookies := validate expiry clock 0 items in
            if existsb (log_raises log) valid_cookies then None
            else Some valid_cookies
        end
  end.

(** The file behind [cookie_path]. *)
Inductive CookieFile : Type :=
| NoPath                       (* no path given *)
| Missing                      (* [os.path.exists] is false; the path is
                                  one that the console takes *)
| Unreadable                   (* [open] or [json.load] raises *)
| Parsed (data : value).

Definition load_file (log : Logger) (expiry : bool) (clock : nat -> Z)
           (file : CookieFile) : option (list value) :=
  match file with
  | NoPath | Missing | Unreadable => None
  | Parsed data => load_data log expiry clock data
  end.

(** [load_cookies] of [xhs_comments_scraper.py] *)
Definition load_cookies (log : Logger) (clock : nat -> Z) (file : CookieFile)
  : option (list value) :=
  load_file log false clock file.

(** [load_cookies] of [cookie_extractor.py] *)
Definition load_cookies_or_string (log : Logger) (clock : nat -> Z)
           (file : CookieFile) (cookie_string : option str)
  : option (list value) :=
  match cookie_string with
  | Some (c :: s) => load_cookies_from_string log clock (c :: s)
  | Some [] | None => load_file log true clock file
  end.

(** *** Cookie strings for the statements *)

(** [name=value] *)
Definition pair_text (nv : str * str) : str := fst nv ++ equals :: snd nv.

(** [name=value;name2=value2;...] *)
Definition cookie_text (pairs : list (str * str)) : str :=
  join semicolon (map pair_text pairs).

(** No white space at either end. *)
Definition unpadded (s : str) : bool :=
  negb (py_space (hd 0%N s)) && negb (py_space (last s 0%N)).

Definition well_formed_pair (nv : str * str) : Prop :=
  has_char semicolon (fst nv) = false /\
  has_char equals (fst nv) = false /\
  has_char semicolon (snd nv) = false /\
  unpadded (fst nv) = true /\
  unpadded (snd nv) = true.

(** The cookie the parser is to return for a pair, read at time [now]. *)
Definition expected_cookie (nv : str * str) (now : Z) : value :=
  VDict [ (py "name", VStr (fst nv));
          (py "value", VStr (snd nv));
          (py "domain", VStr (py ".xiaohongshu.com"));
          (py "path", VStr (py "/"));
          (py "httpOnly",
           VBool (eqb (fst nv) (py "web_session") || eqb (fst nv) (py "a1")
                  || eqb (fst nv) (py "websectiga")));
          (py "secure", VBool true);
          (py "sameSite", VStr (py "Lax"));
          (py "expires", VInt (now + 86400)%Z) ].

Fixpoint expected_cookies (clock : nat -> Z) (reads : nat)
         (pairs : list (str * str)) : list value :=
  match pairs with
  | [] => []
  | nv :: rest =>
      expected_cookie nv (clock reads) :: expected_cookies clock (S reads) rest
  end.

Definition sample_pairs : list (str * str) :=
  [ (py "a1", py "xyz"); (py "web_session", py "0400=") ].

Definition sample_clock (n : nat) : Z := (1700000000 + Z.of_nat n)%Z.

(** A file with one good record and one that has neither name nor value. *)
Definition file_with_bad_record : value :=
  VList [ VDict [ (py "name", VStr (py "a1")); (py "value", VStr (py "xyz")) ];
          VDict [ (py "domain", VStr (py ".example.com")) ] ].

(** *** [XHSCookieExtractor.validate_cookies] *)

Definition required_fields : list str := [py "name"; py "value"; py "domain"].

(** [all(field in cookie for field in fields)]; [None] is a [TypeError]. *)
Fixpoint all_in (fields : list str) (cookie : value) : option bool :=
  match fields with
  | [] => Some true
  | field :: rest =>
      match contains field cookie with
      | None => None
      | Some false => Some false
      | Some true => all_in rest cookie
      end
  end.

(** The loop over the records: the first one that lacks a field, or on which
    the test raises, ends it with [False]. *)
Fixpoint check_fields (cookies : list value) : bool :=
  match cookies with
  | [] => true
  | cookie :: rest =>
      match all_in required_fields cookie with
      | Some true => check_fields rest
      | Some false | None => false
      end
  end.

(** [validate_cookies]: [open] raises on a missing path or file, and every
    exception ends in [return False]. *)
Definition validate_cookies (file : CookieFile) : bool :=
  match file with
  | Parsed (VList cookies) => check_fields cookies
  | Parsed _ => false
  | NoPath | Missing | Unreadable => false
  end.

(** *** [XHSCookieExtractor.extract_cookies_manual]: the important cookies *)

Definition extractor_names : list str :=
  [ py "web_session"; py "a1"; py "webId"; py "xsecappid";
    py "websectiga"; py "sec_poison_id" ].

(** The test of the filter loop, on [cookie['name']]:
    [any(name in cookie['name'] for name in important_names)
     or cookie['name'] in important_names]. *)
Definition is_important (cookie_name : str) : bool :=
  existsb (fun name => includes cookie_name name) extractor_names
  || mem cookie_name extractor_names.

(** *** More notions for the statements *)

(** A cookie as [add_cookies] is given it by the loaders: name, value, domain
    and path, and with [expiry] a life time. *)
Definition complete (expiry : bool) (cookie : value) : bool :=
  match cookie with
  | VDict d =>
      dict_has (py "name") d && dict_has (py "value") d
      && dict_has (py "domain") d && dict_has (py "path") d
      && (negb expiry || dict_has (py "expires") d || dict_has (py "maxAge") d)
  | _ => false
  end.

Definition is_dict (v : value) : bool :=
  match v with
  | VDict _ => true
  | _ => false
  end.

(** [cookie] has every field of [record], unchanged. *)
Definition keeps_fields (record cookie : value) : Prop :=
  exists d d' : list (str * value),
    record = VDict d /\ cookie = VDict d' /\
    forall key, dict_has key d = true -> dict_get key d' = dict_get key d.

(** White space only. *)
Definition blank (s : str) : bool := forallb py_space s.

(** A segment of a cookie string: a pair with white space around it. *)
Definition padded_text (item : str * (str * str) * str) : str :=
  fst (fst item) ++ pair_text (snd (fst item)) ++ snd item.

Definition padded_item (item : str * (str * str) * str) : Prop :=
  blank (fst (fst item)) = true /\ blank (snd item) = true /\
  well_formed_pair (snd (fst item)).

(** A cookie as the string parser builds them. *)
Definition shaped_cookie (clock : nat -> Z) (cookie : value) : Prop :=
  exists name val reads,
    cookie = expected_cookie (name, val) (clock reads) /\
    well_formed_pair (name, val).

(** The cookie string of [main], shortened: a space follows each semicolon. *)
Definition spaced_items : list (str * (str * str) * str) :=
  [ ([], (py "a1", py "xyz"), []);
    (py " ", (py "web_session", py "0400="), []) ].

End Cookies.

(** ** The scrape: [extract_comments] and [scrape_comments] *)

Module Scrape.
Import Text Logging.

(** The scraper and what the browser does during one call of
    [scrape_comments].  The cookies are left out: [load_cookies] raises
    nothing and a failing [add_cookies] is caught and logged, so they change
    what the page shows, not the control flow. *)
Record Session : Type := mkSession {
  (* [self.debug] and the console that [self.log] prints to *)
  logger : Logger;
  (* launch, new_context, new_page, the log line with the URL, goto or the
     first wait raises *)
  setup_raises : bool;
  (* [page.title()] or the [readyState] read of [analyze_page_structure],
     or the log line of the title, the URL or the state; they are outside
     its [try] *)
  analysis_raises : bool;
  (* the page heights, round by round *)
  page : Scroll.Page;
  (* the document the script runs on after the given number of scroll
     rounds; [None] when [page.evaluate(js_code)] raises, be it in the
     browser or because the script itself throws *)
  dom_after : nat -> option Extract.Document;
  clock : Extract.Clock;
  (* [context.close()] or [browser.close()] raises *)
  close_raises : bool
}.

(** A step that returns or raises. *)
Inductive outcome (A : Type) : Type :=
| Returned (a : A)
| Exception.

Arguments Returned {A} a.
Arguments Exception {A}.

Definition bind {A B : Type} (m : outcome A) (k : A -> outcome B) : outcome B :=
  match m with
  | Returned a => k a
  | Exception => Exception
  end.

Notation "x <- m ;; k" := (bind m (fun x => k))
  (at level 61, m at next level, right associativity).

Definition guard (raises : bool) : outcome unit :=
  if raises then Exception else Returned tt.

(** The log line of a sample:
    [f"    * {sample['tagName']}.{sample['className']}: '{sample['textPreview']}'..."].
    The strings of the script reach Python through [of_utf16]. *)
Definition sample_line (sample : Extract.Sample) : list N :=
  py "    * " ++ of_utf16 (Extract.sample_tagName sample)
  ++ py "." ++ of_utf16 (Extract.sample_className sample)
  ++ py ": '" ++ of_utf16 (Extract.textPreview sample) ++ py "'...".

(** The four log lines of one of [comments[:3]] that hold text of the
    page. *)
Definition comment_lines (comment : Extract.Comment) : list (list N) :=
  [ py "    用户: " ++ of_utf16 (Extract.username comment);
    py "    内容: " ++ firstn 100 (of_utf16 (Extract.content comment))
    ++ py "...";
    py "    元素类型: " ++ of_utf16 (Extract.element_tag comment);
    py "    CSS类: " ++ of_utf16 (Extract.element_class comment) ].

(** The lines that [extract_comments] logs with text of the page in them.
    The other lines hold constants of the program and counts; the model of
    the script has no entry in [debugInfo.errors]. *)
Definition debug_lines (document : Extract.Document)
           (comments : list Extract.Comment) : list (list N) :=
  map sample_line (Extract.samples document)
  ++ flat_map comment_lines (firstn 3 comments).

(** [extract_comments]: the comments of the script result, or [[]] when
    anything raises, be it [page.evaluate] or a line of the log. *)
Definition extract_comments (log : Logger) (clock : Extract.Clock)
           (document : option Extract.Document) : list Extract.Comment :=
  match document with
  | Some d =>
      let comments := fst (Extract.extract_script clock d) in
      if existsb (print_raises log) (debug_lines d comments) then []
      else comments
  | None => []
  end.

(** [scroll_and_load_comments] as a step: it returns nothing, and an
    exception of a height read or of the scroll leaves it. *)
Definition scroll_step (p : Scroll.Page) (max_rounds : nat) : outcome nat :=
  match Scroll.scroll_and_load_comments p max_rounds with
  | (Scroll.Raised, _) => Exception
  | (_, st) => Returned (Scroll.rounds st)
  end.

(** The body of the [try] of [scrape_comments]. *)
Definition scrape_body (s : Session) (max_scrolls : nat)
  : outcome (list Extract.Comment) :=
  _ <- guard (setup_raises s) ;;
  _ <- guard (analysis_raises s) ;;
  scrolled <- scroll_step (page s) max_scrolls ;;
  let comments :=
    extract_comments (logger s) (clock s) (dom_after s scrolled) in
  _ <- guard (close_raises s) ;;
  Returned comments.

(** [scrape_comments]: [except Exception: return []]. *)
Definition scrape_comments (s : Session) (max_scrolls : nat)
  : list Extract.Comment :=
  match scrape_body s max_scrolls with
  | Returned comments => comments
  | Exception => []
  end.

(** The round raises. *)
Definition raises (o : Scroll.RoundObs) : bool :=
  match o with
  | Scroll.Heights _ _ => false
  | _ => true
  end.

(** A session in which the first height read raises, on a page that holds a
    comment. *)
Definition failing_session : Session :=
  mkSession strict_logger false false (fun _ => Scroll.ReadRaises)
            (fun _ => Some Extract.sample_document)
            Extract.zero_clock false.

(** A session in which nothing raises, on a page that stays at height 900
    and holds a comment. *)
Definition calm_session : Session :=
  mkSession strict_logger false false (Scroll.static_page 900)
            (fun _ => Some Extract.sample_document)
            Extract.zero_clock false.

End Scrape.

(** ** The image-URL rewriter: [convert_url] *)

Module ImgUrl.
Import Text.

Definition str : Type := list N.

Definition colon : N := 58.
Definition slash : N := 47.
Definition question : N := 63.
Definition hash : N := 35.
Definition amp : N := 38.
Definition bang : N := 33.
Definition backslash : N := 92.

(** *** [urllib.parse]: [urlsplit], [urlunsplit], [quote]

    These three functions belong to Python's standard library; they are
    modelled after [Lib/urllib/parse.py]. *)

Record SplitResult : Type := mkSplit {
  scheme : str;
  netloc : str;
  path : str;
  query : str;
  fragment : str
}.

(** [url.lstrip(_WHATWG_C0_CONTROL_OR_SPACE)] *)
Definition lstrip_c0 (url : str) : str :=
  drop_while (fun c => (c <=? 32)%N) url.

(** The three [url.replace(b, "")] for tab, carriage return and line feed. *)
Definition unsafe_char (c : N) : bool :=
  (c =? 9)%N || (c =? 13)%N || (c =? 10)%N.

Definition remove_unsafe (url : str) : str :=
  filter (fun c => negb (unsafe_char c)) url.

Definition ascii_alpha (c : N) : bool := in_range 65 90 c || in_range 97 122 c.

(** [c in scheme_chars] *)
Definition scheme_char (c : N) : bool :=
  ascii_alpha c || is_digit c || (c =? 43)%N || (c =? 45)%N || (c =? 46)%N.

(** The scheme, lower-cased, and the rest; no scheme leaves the URL whole. *)
Definition split_scheme (url : str) : str * str :=
  match split_first colon url with
  | Some (c :: pre, rest) =>
      if ascii_alpha c && forallb scheme_char (c :: pre)
      then (lower (c :: pre), rest)
      else ([], url)
  | _ => ([], url)
  end.

Definition is_delim (c : N) : bool :=
  (c =? slash)%N || (c =? question)%N || (c =? hash)%N.

(** [_splitnetloc(url, 2)] on the text after the two slashes. *)
Fixpoint span_netloc (s : str) : str * str :=
  match s with
  | [] => ([], [])
  | c :: r =>
      if is_delim c then ([], s)
      else let (a, b) := span_netloc r in (c :: a, b)
  end.

Definition split_netloc (url : str) : str * str :=
  match url with
  | c1 :: c2 :: r =>
      if (c1 =? slash)%N && (c2 =? slash)%N then span_netloc r
      else ([], url)
  | _ => ([], url)
  end.

(** [url, x = url.split(sep, 1)] when [sep in url], else nothing changes. *)
Definition split_off (sep : N) (url : str) : str * str :=
  match split_first sep url with
  | Some (a, b) => (a, b)
  | None => (url, [])
  end.

(** The two checks of the netloc that call other libraries ([ipaddress] for
    a bracketed host, [unicodedata] for the NFKC form of a non-ASCII netloc)
    are inputs of the model. *)
Record NetlocChecks : Type := mkChecks {
  bracketed_ok : str -> bool;
  nfkc_ok : str -> bool
}.

(** No [ValueError] for this netloc. *)
Definition netloc_ok (chk : NetlocChecks) (nl : str) : bool :=
  let open_br := has_char 91 nl in
  let close_br := has_char 93 nl in
  negb ((open_br && negb close_br) || (close_br && negb open_br))
  && (if open_br && close_br then bracketed_ok chk nl else true)
  && (match nl with
      | [] => true
      | _ => forallb (fun c => (c <? 128)%N) nl || nfkc_ok chk nl
      end).

(** [urlsplit(url)]; [None] is a [ValueError]. *)
Definition urlsplit (chk : NetlocChecks) (url : str) : option SplitResult :=
  let url := remove_unsafe (lstrip_c0 url) in
  let (sch, url) := split_scheme url in
  let (nl, url) := split_netloc url in
  let (url, frag) := split_off hash url in
  let (url, qry) := split_off question url in
  if netloc_ok chk nl then Some (mkSplit sch nl url qry frag) else None.

Definition uses_netloc : list str :=
  [ []; py "ftp"; py "http"; py "gopher"; py "nntp"; py "telnet";
    py "imap"; py "wais"; py "file"; py "mms"; py "https"; py "shttp";
    py "snews"; py "prospero"; py "rtsp"; py "rtspu"; py "rsync";
    py "svn"; py "svn+ssh"; py "sftp"; py "nfs"; py "git"; py "git+ssh";
    py "ws"; py "wss" ].

Definition starts_with_slash (s : str) : bool :=
  match s with
  | c :: _ => (c =? slash)%N
  | [] => false
  end.

Definition starts_with_two_slashes (s : str) : bool :=
  match s with
  | c1 :: c2 :: _ => (c1 =? slash)%N && (c2 =? slash)%N
  | _ => false
  end.

Definition is_empty (s : str) : bool :=
  match s with
  | [] => true
  | _ :: _ => false
  end.

(** [scheme + ':' + url], [url + '?' + query], [url + '#' + fragment], each
    only for a non-empty component. *)
Definition add_scheme (sch url : str) : str :=
  if is_empty sch then url else sch ++ colon :: url.

Definition add_part (sep : N) (url part : str) : str :=
  if is_empty part then url else url ++ sep :: part.

(** [urlunsplit], Python 3.12.4 and later. *)
Definition urlunsplit (c : SplitResult) : str :=
  let url := path c in
  let url :=
    if negb (is_empty (netloc c)) then
      (slash :: slash :: netloc c)
      ++ (if negb (is_empty url) && negb (starts_with_slash url)
          then slash :: url else url)
    else if starts_with_two_slashes url then slash :: slash :: url
    else if negb (is_empty (scheme c)) && mem (scheme c) uses_netloc
            && (is_empty url || starts_with_slash url)
         then slash :: slash :: url
    else url in
  add_part hash (add_part question (add_scheme (scheme c) url) (query c))
           (fragment c).

(** [urlunsplit], Python up to 3.12.3. *)
Definition urlunsplit_legacy (c : SplitResult) : str :=
  let url := path c in
  let url :=
    if negb (is_empty (netloc c))
       || (negb (is_empty (scheme c)) && mem (scheme c) uses_netloc
           && negb (starts_with_two_slashes url))
    then
      (slash :: slash :: netloc c)
      ++ (if negb (is_empty url) && negb (starts_with_slash url)
          then slash :: url else url)
    else url in
  add_part hash (add_part question (add_scheme (scheme c) url) (query c))
           (fragment c).

(** The parts of Python's standard library that differ between releases or
    call into code that is not modelled; they are inputs of the model. *)
Record Library : Type := mkLibrary {
  checks : NetlocChecks;
  (* the release is older than 3.12.4, where [urlunsplit] changed *)
  before_3_12_4 : bool;
  (* what [re] makes of a replacement template that holds a backslash, for
     the pattern of [_set_format_in_query]: [None] is [re.error], else the
     text that takes the place of the matched text *)
  compile_template : str -> option (str -> str)
}.

(** The [urlunsplit] of the library. *)
Definition urlunsplit_of (lib : Library) : SplitResult -> str :=
  if before_3_12_4 lib then urlunsplit_legacy else urlunsplit.

(** The UTF-8 bytes of a code point; [None] for a surrogate, which
    [str.encode] refuses (and for a number that is no code point). *)
Definition utf8_encode_char (c : N) : option (list N) :=
  if (c <? 128)%N then Some [c]
  else if (c <? 2048)%N then Some [192 + c / 64; 128 + c mod 64]%N
  else if (c <? 65536)%N then
    if in_range 55296 57343 c then None
    else Some [224 + c / 4096; 128 + (c / 64) mod 64; 128 + c mod 64]%N
  else if (c <? 1114112)%N then
    Some [240 + c / 262144; 128 + (c / 4096) mod 64;
          128 + (c / 64) mod 64; 128 + c mod 64]%N
  else None.

Fixpoint utf8_encode (s : str) : option (list N) :=
  match s with
  | [] => Some []
  | c :: r =>
      match utf8_encode_char c, utf8_encode r with
      | Some bs, Some rest => Some (bs ++ rest)
      | _, _ => None
      end
  end.

(** [b in _ALWAYS_SAFE]: letters, digits and [_.-~] *)
Definition always_safe (b : N) : bool :=
  ascii_alpha b || is_digit b
  || (b =? 95)%N || (b =? 46)%N || (b =? 45)%N || (b =? 126)%N.

Definition hex_digit (d : N) : N :=
  if (d <? 10)%N then (48 + d)%N else (55 + d)%N.

(** [chr(b) if b in safe else '%{:02X}'.format(b)], for a byte [b] *)
Definition quote_byte (b : N) : str :=
  if always_safe b then [b]
  else [37%N; hex_digit (b / 16); hex_digit (b mod 16)].

(** [quote(string, safe='')]; [None] is a [UnicodeEncodeError]. *)
Definition quote (s : str) : option str :=
  match utf8_encode s with
  | Some bs => Some (flat_map quote_byte bs)
  | None => None
  end.

(** *** The functions of [xhs_img_deal.py] and [xhs_img_coze_workflow.py] *)

(** [path.rsplit('/', 1)[-1]]: the text after the last slash. *)
Fixpoint after_last_slash (s : str) : str :=
  match s with
  | [] => []
  | c :: r =>
      if has_char slash r then after_last_slash r
      else if (c =? slash)%N then r else s
  end.

Definition _derive_basename_from_path (p : str) : str :=
  let last := after_last_slash p in
  match split_first bang last with
  | Some (base, _) => base
  | None => last
  end.

(** [_normalize_fmt]; [None] is the [ValueError]. *)
Definition _normalize_fmt (fmt : str) : option str :=
  let fmt := strip (lower fmt) in
  if eqb fmt (py "jpeg") then Some (py "jpg")
  else if eqb fmt (py "jpg") || eqb fmt (py "png") then Some fmt
  else None.

(** [[p for p in query.split('&') if p] if query else []] *)
Definition query_parts (qry : str) : list str :=
  match qry with
  | [] => []
  | _ => filter (fun p => negb (is_empty p)) (split amp qry)
  end.

(** [next((i for i, p in enumerate(parts) if test(p)), None)], given as the
    parts before index [i], the part at [i] and the parts after it. *)
Fixpoint find_part (test : str -> bool) (parts : list str)
  : option (list str * str * list str) :=
  match parts with
  | [] => None
  | p :: rest =>
      if test p then Some ([], p, rest)
      else match find_part test rest with
           | Some (pre, seg, post) => Some (p :: pre, seg, post)
           | None => None
           end
  end.

(** The loop of [_set_attname_in_query]: replace the first part that passes
    [test]; [None] when there is none. *)
Fixpoint replace_first (test : str -> bool) (f : str -> str)
         (parts : list str) : option (list str) :=
  match parts with
  | [] => None
  | p :: rest =>
      if test p then Some (f p :: rest)
      else match replace_first test f rest with
           | Some rest' => Some (p :: rest')
           | None => None
           end
  end.

Definition format_prefix : str := py "/format/".

Definition format_stop (c : N) : bool :=
  (c =? slash)%N || (c =? amp)%N || (c =? question)%N.

Fixpoint take_while (f : N -> bool) (s : str) : str :=
  match s with
  | [] => []
  | c :: r => if f c then c :: take_while f r else []
  end.

(** [re.sub(r'/format/[^/&?]*', repl, seg, count=1)] once the replacement is
    known: the leftmost match, as long as it can be, gives way to what
    [repl] makes of the matched text. *)
Fixpoint sub_first (repl : str -> str) (seg : str) : str :=
  if startswith format_prefix seg then
    let rest := skipn (length format_prefix) seg in
    repl (format_prefix ++ take_while (fun c => negb (format_stop c)) rest)
    ++ drop_while (fun c => negb (format_stop c)) rest
  else
    match seg with
    | [] => []
    | c :: r => c :: sub_first repl r
    end.

(** The replacement that [re.sub] makes of a template string: a template
    without a backslash stands for itself, any other goes to the template
    compiler. *)
Definition replacement (lib : Library) (template : str)
  : option (str -> str) :=
  if has_char backslash template then compile_template lib template
  else Some (fun _ => template).

(** [re.sub(r'/format/[^/&?]*', f'/format/{fmt}', seg, count=1)]; [None] is
    [re.error]. *)
Definition sub_format (lib : Library) (fmt seg : str) : option str :=
  match replacement lib (format_prefix ++ fmt) with
  | Some repl => Some (sub_first repl seg)
  | None => None
  end.

(** [seg.rstrip('/')] *)
Definition rstrip_slash (seg : str) : str :=
  rev (drop_while (fun c => (c =? slash)%N) (rev seg)).

(** The new text of the [imageMogr2] part. *)
Definition set_format_segment (lib : Library) (fmt seg : str) : option str :=
  if includes seg format_prefix then sub_format lib fmt seg
  else Some (rstrip_slash seg ++ format_prefix ++ fmt).

(** The parts of the query after the step of [_set_format_in_query], before
    they are joined. *)
Definition format_parts (lib : Library) (fmt : str) (parts : list str)
  : option (list str) :=
  match find_part (startswith (py "imageMogr2")) parts with
  | None => Some (parts ++ [py "imageMogr2/format/" ++ fmt])
  | Some (pre, seg, post) =>
      match set_format_segment lib fmt seg with
      | Some seg' => Some (pre ++ seg' :: post)
      | None => None
      end
  end.

(** [_set_format_in_query]; [None] when [re.sub] raises. *)
Definition _set_format_in_query (lib : Library) (qry fmt : str)
  : option str :=
  match format_parts lib fmt (query_parts qry) with
  | Some parts => Some (join amp parts)
  | None => None
  end.

(** [_set_attname_in_query]; [None] when [quote] raises. *)
Definition _set_attname_in_query (qry filename : str) : option str :=
  match quote filename with
  | None => None
  | Some quoted =>
      let parts := query_parts qry in
      let encoded := py "attname=" ++ quoted in
      Some (join amp
              (match replace_first (startswith (py "attname="))
                                   (fun _ => encoded) parts with
               | Some parts' => parts'
               | None => parts ++ [encoded]
               end))
  end.

(** [f"{base}.{fmt}" if not filename else filename] *)
Definition expect_name (base fmt : str) (filename : option str) : str :=
  match filename with
  | Some (c :: r) => c :: r
  | Some [] | None => base ++ py "." ++ fmt
  end.

(** [convert_url]; [None] is an exception. *)
Definition convert_url (lib : Library) (url fmt : str)
           (filename : option str) : option str :=
  match _normalize_fmt fmt with
  | None => None
  | Some fmt =>
      match urlsplit (checks lib) url with
      | None => None
      | Some sp =>
          let base := _derive_basename_from_path (path sp) in
          let name := expect_name base fmt filename in
          match _set_format_in_query lib (query sp) fmt with
          | None => None
          | Some q1 =>
              match _set_attname_in_query q1 name with
              | None => None
              | Some q2 =>
                  Some (urlunsplit_of lib
                          (mkSplit (scheme sp) (netloc sp) (path sp)
                                   q2 (fragment sp)))
              end
          end
      end
  end.

Definition to_png (lib : Library) (url : str) (filename : option str)
  : option str :=
  convert_url lib url (py "png") filename.

Definition to_jpg (lib : Library) (url : str) (filename : option str)
  : option str :=
  convert_url lib url (py "jpg") filename.

(** *** What [urlsplit] guarantees about its result *)

(** The characters a query may hold: not [#], not tab, CR, LF. *)
Definition query_char (c : N) : bool :=
  negb (c =? hash)%N && negb (unsafe_char c).

Definition clean (s : str) : bool := forallb (fun c => negb (unsafe_char c)) s.

(** Scheme detection finds no scheme. *)
Definition no_scheme (s : str) : Prop := split_scheme s = ([], s).

(** [#fragment], or nothing for an empty fragment. *)
Definition fragment_tail (f : str) : str :=
  if is_empty f then [] else hash :: f.

(** The text is empty or starts above the space character. *)
Definition starts_above_space (s : str) : Prop :=
  s = [] \/ (32 < hd 0%N s)%N.

Definition well_formed_scheme (sch : str) : Prop :=
  sch = [] \/
  exists c pre, sch = c :: pre /\ ascii_alpha c = true /\
                forallb scheme_char sch = true /\ lower sch = sch.

Record well_split (chk : NetlocChecks) (sp : SplitResult) : Prop := {
  ws_scheme : well_formed_scheme (scheme sp);
  ws_netloc : forallb (fun c => negb (is_delim c)) (netloc sp) = true;
  ws_netloc_ok : netloc_ok chk (netloc sp) = true;
  ws_path : forallb (fun c => negb (c =? question)%N && negb (c =? hash)%N)
                    (path sp) = true;
  ws_path_slash : netloc sp <> [] ->
                  path sp = [] \/ starts_with_slash (path sp) = true;
  ws_no_scheme : scheme sp = [] -> netloc sp = [] -> no_scheme (path sp);
  ws_path_head : scheme sp = [] -> netloc sp = [] ->
                 starts_above_space (path sp);
  ws_query : forallb query_char (query sp) = true;
  ws_clean_netloc : clean (netloc sp) = true;
  ws_clean_path : clean (path sp) = true;
  ws_clean_fragment : clean (fragment sp) = true
}.

(** [sp] with another query. *)
Definition with_query (sp : SplitResult) (q : str) : SplitResult :=
  mkSplit (scheme sp) (netloc sp) (path sp) q (fragment sp).

(** What follows the netloc in a URL put together from [sp] and the query
    [q]: the path, [?q] and the fragment. *)
Definition after_netloc (sp : SplitResult) (q : str) : str :=
  path sp ++ question :: q ++ fragment_tail (fragment sp).

(** The two versions of [urlunsplit] build the same URL from these parts:
    there is a netloc, or the path does not start with two slashes and the
    scheme is none of [uses_netloc] or the path is empty or absolute. *)
Definition legacy_exact (sp : SplitResult) : bool :=
  negb (is_empty (netloc sp))
  || (negb (starts_with_two_slashes (path sp))
      && (is_empty (scheme sp) || negb (mem (scheme sp) uses_netloc)
          || is_empty (path sp) || starts_with_slash (path sp))).

(** *** Sample inputs *)

(** Checks that accept every netloc. *)
Definition no_checks : NetlocChecks := mkChecks (fun _ => true) (fun _ => true).

(** A template compiler for the sample libraries.  It knows what [re] makes
    of three templates: the octal escape 046 stands for [&], the escape of
    [n] for a line feed, and the reference to group 1, which the pattern
    does not have, is an error.  The statements below ask it for no other
    template. *)
Definition escape_templates (template : str) : option (str -> str) :=
  if eqb template (py "/format/\046") then Some (fun _ => py "/format/&")
  else if eqb template (py "/format/a\nb")
       then Some (fun _ => py "/format/a" ++ [10%N] ++ py "b")
  else None.

(** A library from release 3.12.4 on, and an older one; both accept every
    netloc. *)
Definition current_library : Library :=
  mkLibrary no_checks false escape_templates.

Definition older_library : Library :=
  mkLibrary no_checks true escape_templates.

(** Every character of the text may stand in a query. *)
Definition query_text (s : str) : Prop := forallb query_char s = true.

(** The URL of [_demo]. *)
Definition demo_url : str :=
  py "https://sns-webpic-qc.xhscdn.com/202508081203/37ef76c1b643207bc131f3c54d95b607/notes_pre_post/1040g3k031kssdadd30005oujaj4ptcu7pvcpuh0!nd_dft_wlteh_jpg_3".

(** Its parts. *)
Definition demo_split : SplitResult :=
  mkSplit (py "https") (py "sns-webpic-qc.xhscdn.com")
    (py "/202508081203/37ef76c1b643207bc131f3c54d95b607/notes_pre_post/1040g3k031kssdadd30005oujaj4ptcu7pvcpuh0!nd_dft_wlteh_jpg_3")
    [] [].

(** The parts after the step of [_set_attname_in_query]. *)
Definition attname_parts (encoded : str) (parts : list str) : list str :=
  match replace_first (startswith (py "attname=")) (fun _ => encoded) parts with
  | Some parts' => parts'
  | None => parts ++ [encoded]
  end.

(** A part of a query: not empty, and without [&]. *)
Definition is_part (p : str) : Prop := p <> [] /\ has_char amp p = false.

(** *** [main] of [xhs_img_coze_workflow.py]

    [url] is [params.get('url', '')] and [custom_filename] is
    [params.get('custom_filename', None)]; [None] is an exception, the
    [ValueError] of the empty [url] among them. *)
Definition main (lib : Library) (url : str)
           (custom_filename : option str) : option (str * str) :=
  match url with
  | [] => None
  | _ =>
      match to_png lib url custom_filename with
      | None => None
      | Some pngUrl =>
          match to_jpg lib url custom_filename with
          | None => None
          | Some jpgUrl => Some (pngUrl, jpgUrl)
          end
      end
  end.

End ImgUrl.

(** ** The note id: [extract_note_id] *)

Module NoteId.
Import Text.

(** [[a-z0-9]] *)
Definition id_char (c : N) : bool := in_range 97 122 c || is_digit c.

Fixpoint take_while (f : N -> bool) (s : list N) : list N :=
  match s with
  | [] => []
  | c :: r => if f c then c :: take_while f r else []
  end.

Definition item_prefix : list N := py "/item/".

(** [re.search(r"/item/([a-z0-9]+)", url)] and [match.group(1)]: the search
    goes through the start positions from the left; the pattern matches where
    "/item/" is followed by at least one character of the class, and the
    group is the run of such characters from there.  [None] is Python's
    [None]. *)
Fixpoint extract_note_id (url : list N) : option (list N) :=
  match url with
  | [] => None
  | _ :: rest =>
      if startswith item_prefix url then
        match take_while id_char (skipn (length item_prefix) url) with
        | [] => extract_note_id rest
        | note_id => Some note_id
        end
      else extract_note_id rest
  end.

(** The URL of [main], shortened. *)
Definition sample_url : list N :=
  py "https://www.xiaohongshu.com/discovery/item/68982712000000002500d698?source=webshare&xhsshare=pc_web".

End NoteId.

(** ** The login check: [check_login_status] *)

Module Login.
Import Text.

(** What [page.query_selector(indicator)] and [element.is_visible()] give for
    one indicator. *)
Inductive Probe : Type :=
| Visible          (* an element is found and it is visible *)
| NotVisible       (* no element, or one that is not visible *)
| ProbeRaises.     (* one of the two calls raises *)

Record LoginPage : Type := mkLoginPage {
  wait_raises : bool;                  (* [page.wait_for_timeout] raises *)
  probe : list N -> Probe;
  page_url : list N;                   (* [page.url] *)
  (* [document.body.textContent]; [None] when the evaluation raises or the
     result is no string *)
  body_text : option (list N)
}.

Definition login_indicators : list (list N) :=
  [ py "text=登录"; py "text=注册"; py "text=立即登录";
    py "[data-testid*='login']"; py "[class*='login']" ].

(** The loop over the indicators: a visible one sets the flag and ends the
    loop, a raising one is skipped. *)
Fixpoint has_login_button (probe : list N -> Probe)
         (indicators : list (list N)) : bool :=
  match indicators with
  | [] => false
  | indicator :: rest =>
      match probe indicator with
      | Visible => true
      | NotVisible | ProbeRaises => has_login_button probe rest
      end
  end.

Definition url_keywords : list (list N) :=
  [py "login"; py "signin"; py "register"].

Definition text_keywords : list (list N) :=
  [py "请登录"; py "登录"; py "注册"].

(** [check_login_status].  The URL is lower-cased with [Text.lower]: the
    three URL keywords hold no "k", and their "i" is followed by another
    letter, so the two characters outside A-Z whose lower case has an ASCII
    letter ("K" for kelvin, and the dotted capital I, which becomes "i" and a
    combining dot) cannot complete a keyword. *)
Definition check_login_status (p : LoginPage) : bool :=
  if wait_raises p then false
  else
    let button := has_login_button (probe p) login_indicators in
    let is_login_page :=
      existsb (fun keyword => includes (lower (page_url p)) keyword)
              url_keywords in
    match body_text p with
    | None => false
    | Some page_text =>
        let has_login_text :=
          existsb (fun keyword => includes page_text keyword) text_keywords in
        if button || is_login_page || has_login_text then false else true
    end.

(** A note page as a logged-in user sees it. *)
Definition member_page : LoginPage :=
  mkLoginPage false (fun _ => NotVisible)
              (py "https://www.xiaohongshu.com/discovery/item/68982712")
              (Some (py "Great post!")).

End Login.

(** ** The image scraper: [load_cookies], [extract_comment_images], [scrape] *)

Module Images.
Import Text.

Definition jsstr : Type := list N.

(** [load_cookies] of [xhs_comment_image_scraper.py]; [VNone] is Python's
    [None]. *)
Definition load_cookies (file : Cookies.CookieFile) : Cookies.value :=
  match file with
  | Cookies.NoPath => Cookies.VNone
  | Cookies.Missing | Cookies.Unreadable => Cookies.VNone
  | Cookies.Parsed data =>
      match data with
      | Cookies.VDict d =>
          if Cookies.dict_has (py "cookies") d then
            match Cookies.dict_get (py "cookies") d with
            | Some cookies => cookies
            | None => Cookies.VNone
            end
          else Cookies.VNone
      | Cookies.VList _ => data
      | _ => Cookies.VNone
      end
  end.

(** *** The script of [extract_comment_images] *)

Definition cdn_markers : list jsstr :=
  [js "xiaohongshu.com"; js "xhscdn.com"; js "sns-img"; js "redcdn"].

(** [/(xiaohongshu\.com|xhscdn\.com|sns-img|redcdn)/i.test(clean)].  Without
    the [u] flag, case-insensitive matching never lets a character outside
    ASCII match an ASCII one, so the test is a search for the four words in
    the text with A-Z lower-cased. *)
Definition is_cdn (clean : jsstr) : bool :=
  existsb (fun marker => includes (lower clean) marker) cdn_markers.

Definition question : N := 63.

(** [u.split('?')[0]] *)
Definition before_question (u : jsstr) : jsstr :=
  match split_first question u with
  | Some (before, _) => before
  | None => u
  end.

(** [urls.add(clean)] on a [Set], kept in insertion order. *)
Definition set_add (clean : jsstr) (urls : list jsstr) : list jsstr :=
  if mem clean urls then urls else urls ++ [clean].

Definition pickUrl (urls : list jsstr) (u : jsstr) : list jsstr :=
  match u with
  | [] => urls                                   (* if (!u) return *)
  | _ =>
      let clean := before_question u in
      if is_cdn clean then set_add clean urls else urls
  end.

(** An [img] element, with what the script reads from it. *)
Record Img : Type := mkImg {
  currentSrc : jsstr;
  src : jsstr;
  data_src : option jsstr;         (* getAttribute('data-src') *)
  srcset : jsstr;
  srcset_attr : option jsstr       (* getAttribute('srcset') *)
}.

(** [a || b] on a string *)
Definition or_str (a b : jsstr) : jsstr :=
  match a with
  | [] => b
  | _ => a
  end.

(** [a || b] on the result of [getAttribute]: [null] or a string *)
Definition attr_or (a : option jsstr) (b : jsstr) : jsstr :=
  match a with
  | Some (c :: r) => c :: r
  | Some [] | None => b
  end.

Definition comma : N := 44.
Definition space : N := 32.

Definition before (sep : N) (s : jsstr) : jsstr :=
  match split_first sep s with
  | Some (a, _) => a
  | None => s
  end.

(** The callback of [imgs.forEach]. *)
Definition from_img (urls : list jsstr) (img : Img) : list jsstr :=
  let c1 := or_str (currentSrc img)
                   (or_str (src img) (attr_or (data_src img) [])) in
  let urls := match c1 with
              | [] => urls
              | _ => pickUrl urls c1
              end in
  match or_str (srcset img) (attr_or (srcset_attr img) []) with
  | [] => urls
  | set =>
      let first := before space (trim (before comma set)) in
      pickUrl urls first
  end.

Definition is_quote (c : N) : bool := (c =? 34)%N || (c =? 39)%N.

(** The characters that [.] does not match. *)
Definition line_terminator (c : N) : bool :=
  (c =? 10)%N || (c =? 13)%N || (c =? 8232)%N || (c =? 8233)%N.

Definition close_paren : N := 41.

Definition starts_with_close (s : jsstr) : bool :=
  match s with
  | c :: _ => (c =? close_paren)%N
  | [] => false
  end.

(** The lazy group of the pattern and what follows it, an optional quote and
    a closing parenthesis: the group grows one character at a time until a
    closing parenthesis, or a quote and a closing parenthesis, follows. *)
Fixpoint lazy_group (s : jsstr) : option jsstr :=
  match s with
  | [] => None
  | c :: r =>
      if (c =? close_paren)%N then Some []
      else if is_quote c && starts_with_close r then Some []
      else if line_terminator c then None
      else match lazy_group r with
           | Some g => Some (c :: g)
           | None => None
           end
  end.

(** The pattern of [bg.match] tried at the start of [s]: the text [url(], an
    optional quote, the lazy group, an optional quote and a closing
    parenthesis.  The first quote is taken when there is one, and given back
    when the rest does not match with it. *)
Definition match_here (s : jsstr) : option jsstr :=
  if startswith (js "url(") s then
    match skipn 4 s with
    | q :: r =>
        if is_quote q then
          match lazy_group r with
          | Some g => Some g
          | None => lazy_group (q :: r)
          end
        else lazy_group (q :: r)
    | [] => None
    end
  else None.

(** [bg.match(...)]: the group of the first match, the start positions being
    tried from the left. *)
Fixpoint bg_match (bg : jsstr) : option jsstr :=
  match bg with
  | [] => None
  | _ :: r =>
      match match_here bg with
      | Some g => Some g
      | None => bg_match r
      end
  end.

(** The callback of [all.forEach], on the computed [backgroundImage]. *)
Definition from_bg (urls : list jsstr) (bg : jsstr) : list jsstr :=
  if startswith (js "url(") bg then
    match bg_match bg with
    | Some (c :: r) => pickUrl urls (c :: r)
    | Some [] | None => urls
    end
  else urls.

(** What [root.querySelectorAll] gives for a search root: the images, and
    the background image of every element below it. *)
Record Root : Type := mkRoot {
  imgs : list Img;
  backgrounds : list jsstr
}.

(** One of the [section,div,main,article,aside] elements. *)
Record Node : Type := mkNode {
  aria_label : option jsstr;
  node_id : jsstr;
  node_class : jsstr;
  node_text : jsstr;                (* textContent *)
  below : Root
}.

Record Page : Type := mkPage {
  nodes : list Node;
  whole : Root                      (* the search root [document] *)
}.

(** The test that makes a node a candidate.  [Text.lower] stands for
    [toLowerCase]: "comment" has no "i" and no "k". *)
Definition is_candidate (n : Node) : bool :=
  let label := lower (attr_or (aria_label n) [] ++ js " " ++ node_id n
                      ++ js " " ++ node_class n) in
  let text := lower (firstn 200 (node_text n)) in
  includes label (js "comment") || includes label (js "评论")
  || includes text (js "评论") || includes text (js "comment").

Definition scopes (page : Page) : list Root :=
  match filter is_candidate (nodes page) with
  | [] => [whole page]
  | candidates => map below candidates
  end.

Definition from_root (urls : list jsstr) (root : Root) : list jsstr :=
  fold_left from_bg (backgrounds root) (fold_left from_img (imgs root) urls).

(** The script: [Array.from(urls)]. *)
Definition script (page : Page) : list jsstr :=
  fold_left from_root (scopes page) [].

(** [list(dict.fromkeys(urls))] *)
Fixpoint fromkeys (seen urls : list jsstr) : list jsstr :=
  match urls with
  | [] => []
  | u :: rest =>
      if mem u seen then fromkeys seen rest
      else u :: fromkeys (u :: seen) rest
  end.

(** [extract_comment_images]; the page is [None] when [page.evaluate]
    raises. *)
Definition extract_comment_images (page : option Page) : list jsstr :=
  match page with
  | Some p => fromkeys [] (script p)
  | None => []
  end.

(** *** [scrape] *)

Record Session : Type := mkSession {
  (* the launch, a new context or page, or [goto] raises *)
  setup_raises : bool;
  heights : Scroll.Page;
  dom_after : nat -> option Page;
  (* [context.close()] or [browser.close()] raises *)
  close_raises : bool
}.

(** [scrape]: the cookies and the first wait are inside a [try] of their
    own; any other exception ends in [return []]. *)
Definition scrape (s : Session) (max_scrolls : nat) : list jsstr :=
  if setup_raises s then []
  else
    match Scroll.scroll_and_expand (heights s) max_scrolls with
    | (Scroll.Raised, _) => []
    | (_, st) =>
        let imgs := extract_comment_images (dom_after s (Scroll.rounds st)) in
        if close_raises s then [] else imgs
    end.

(** What [pickUrl] lets into the set: no question mark, and one of the four
    words in it. *)
Definition picked (u : jsstr) : Prop :=
  u <> [] /\ has_char question u = false /\ is_cdn u = true.

(** The state of the set while the script runs. *)
Definition good (urls : list jsstr) : Prop := NoDup urls /\ Forall picked urls.

(** *** Sample inputs *)

Definition sample_img : Img :=
  mkImg [] (js "https://sns-img-qc.xhscdn.com/a1.jpg?imageView2/2/w/200")
        None [] None.

Definition sample_page : Page :=
  mkPage [ mkNode None [] (js "Comment-list") []
                  (mkRoot [sample_img; sample_img]
                          [js "none";
                           js "url('https://ci.XHSCDN.com/bg.png?x=1')"]) ]
         (mkRoot [] []).

Definition sample_session : Session :=
  mkSession false (Scroll.static_page 900) (fun _ => Some sample_page) false.

(** The same page, with a height read that raises in the second round. *)
Definition failing_session : Session :=
  mkSession false
            (fun round => match round with
                          | 1 => Scroll.ReadRaises
                          | _ => Scroll.Heights 900 900
                          end)
            (fun _ => Some sample_page) false.

End Images.

(* ================================================================== *)
(** * Part II: the properties                                          *)
(* ================================================================== *)

Section ScrollFacts.
Import Scroll.

Variable thr : nat.
Hypothesis thr_pos : 0 < thr.
Variable obs : nat -> Z * Z.

Lemma heights_equal_unchanged st :
  last_height st = prev_height obs (rounds st) ->
  heights_equal st (fst (obs (rounds st))) (snd (obs (rounds st)))
  = unchanged obs (rounds st).
Proof.
  intros Hl. unfold heights_equal, unchanged. now rewrite Hl.
Qed.

Lemma unchanged_prev i :
  unchanged obs i = true -> snd (obs i) = prev_height obs i.
Proof.
  unfold unchanged. intros H.
  apply andb_true_iff in H. destruct H as [H1 H2].
  apply Z.eqb_eq in H1. apply Z.eqb_eq in H2. congruence.
Qed.

Lemma loop_step fuel st :
  loop thr (observed obs) (S fuel) st =
  if heights_equal st (fst (obs (rounds st))) (snd (obs (rounds st))) then
    if thr <=? S (stable_rounds st)
    then (Converged, mkState (last_height st) (S (stable_rounds st))
                             (S (rounds st)))
    else loop thr (observed obs) fuel
           (mkState (last_height st) (S (stable_rounds st)) (S (rounds st)))
  else loop thr (observed obs) fuel
         (mkState (snd (obs (rounds st))) 0 (S (rounds st))).
Proof. reflexivity. Qed.

Lemma loop_post_shift r0 fuel res :
  streak obs r0 < thr ->
  loop_post thr obs (S r0) fuel res ->
  loop_post thr obs r0 (S fuel) res.
Proof.
  unfold loop_post.
  intros Hr0 [(E & Hle & Hgt & Hk & Hsr & Hlh & Hall)|(E & Hr & Hi & Hall)].
  - left. repeat split; try assumption; try lia.
    intros j Hj. destruct (Nat.eq_dec j r0) as [-> |Hne];
      [assumption | apply Hall; lia].
  - right. split; [assumption|]. split; [lia|]. split; [assumption|].
    intros j Hj. destruct (Nat.eq_dec j r0) as [-> |Hne];
      [assumption | apply Hall; lia].
Qed.

(** What the loop returns, from any state satisfying the invariant. *)
Lemma loop_from_inv fuel : forall st,
  inv thr obs st ->
  loop_post thr obs (rounds st) fuel (loop thr (observed obs) fuel st).
Proof.
  induction fuel as [|fuel IH]; intros st Hinv.
  - right. cbn [loop fst snd].
    split; [reflexivity|]. split; [lia|]. split; [assumption|].
    intros j Hj. assert (j = rounds st) by lia. subst j.
    destruct Hinv as (_ & Hs & Hlt). now rewrite <- Hs.
  - destruct Hinv as (Hl & Hs & Hlt).
    rewrite loop_step, (heights_equal_unchanged st Hl).
    destruct (unchanged obs (rounds st)) eqn:Hu.
    + destruct (Nat.leb_spec thr (S (stable_rounds st))) as [Hge|Hlt'].
      * left. cbn [fst snd rounds stable_rounds last_height streak prev_height].
        rewrite Hu, <- Hs. repeat split; try lia.
        -- rewrite Hl. symmetry. now apply unchanged_prev.
        -- intros j Hj. assert (j = rounds st) by lia. subst j.
           now rewrite <- Hs.
      * apply loop_post_shift; [now rewrite <- Hs|].
        apply (IH (mkState (last_height st) (S (stable_rounds st))
                           (S (rounds st)))).
        unfold Scroll.inv.
        cbn [rounds stable_rounds last_height streak prev_height].
        rewrite Hu, <- Hs. repeat split; try lia.
        rewrite Hl. symmetry. now apply unchanged_prev.
    + apply loop_post_shift; [now rewrite <- Hs|].
      apply (IH (mkState (snd (obs (rounds st))) 0 (S (rounds st)))).
      unfold Scroll.inv.
      cbn [rounds stable_rounds last_height streak prev_height].
      rewrite Hu. repeat split; lia.
Qed.

Lemma inv_init : inv thr obs init.
Proof. unfold Scroll.inv, init; cbn. repeat split; lia. Qed.

Lemma loop_init fuel :
  loop_post thr obs 0 fuel (loop thr (observed obs) fuel init).
Proof. apply (loop_from_inv fuel init inv_init). Qed.

(** The streak reaches [c] exactly when the last [c] rounds were unchanged. *)
Lemma streak_window k : forall c,
  c <= streak obs k <-> stable_window obs c k.
Proof.
  unfold stable_window.
  induction k as [|k IH]; intros c; cbn [streak].
  - split.
    + intros Hc. split; [lia|]. intros j Hj. lia.
    + intros [Hc _]. lia.
  - destruct c as [|c].
    + split; [intros _; split; [lia|intros j Hj; lia] | lia].
    + destruct (unchanged obs k) eqn:Hu.
      * split.
        -- intros Hc. assert (Hc' : c <= streak obs k) by lia.
           apply IH in Hc'. destruct Hc' as [Hck Hw]. split; [lia|].
           intros j Hj. destruct (Nat.eq_dec j k) as [-> |Hne];
             [assumption | apply Hw; lia].
        -- intros [Hck Hw]. apply le_n_S. apply IH. split; [lia|].
           intros j Hj. apply Hw. lia.
      * split; [lia|]. intros [Hck Hw].
        rewrite Hw in Hu by lia. discriminate.
Qed.

(** Leaving by [break], characterised on the observations alone. *)
Lemma converged_iff m st :
  loop thr (observed obs) m init = (Converged, st) <-> stops_at obs thr m st.
Proof.
  pose proof (loop_init m) as Hpost. unfold loop_post in Hpost.
  unfold stops_at. split.
  - intros Heq. rewrite Heq in Hpost. cbn [fst snd] in Hpost.
    destruct Hpost as [(_ & Hle & _ & Hk & Hsr & Hlh & Hall)|(E & _)];
      [|discriminate].
    split; [lia|]. split; [apply streak_window; lia|].
    split; [|split; assumption].
    intros k Hk' Hw. apply streak_window in Hw.
    specialize (Hall k). lia.
  - intros (Hle & Hw & Hfirst & Hsr & Hlh).
    apply streak_window in Hw.
    destruct (loop thr (observed obs) m init) as [e st'].
    cbn [fst snd] in Hpost.
    destruct Hpost as [(E & Hle' & _ & Hk & Hsr' & Hlh' & Hall)
                      |(E & Hr & _ & Hall)].
    + assert (Hrs : rounds st' = rounds st).
      { destruct (Nat.lt_trichotomy (rounds st') (rounds st)) as [H|[H|H]].
        - exfalso. apply (Hfirst _ H). apply streak_window. lia.
        - assumption.
        - specialize (Hall (rounds st)). lia. }
      subst e. f_equal.
      destruct st as [l s r], st' as [l' s' r']. cbn in *.
      subst. reflexivity.
    + specialize (Hall (rounds st)). lia.
Qed.

End ScrollFacts.

Section ScrollLoop.
Import Scroll.

Variable thr : nat.
Variable page : Page.

(** The loop never carries out more rounds than it is given. *)
Lemma loop_rounds_le fuel : forall st,
  rounds (snd (loop thr page fuel st)) <= rounds st + fuel.
Proof.
  induction fuel as [|fuel IH]; intros st; cbn [loop].
  - cbn. lia.
  - destruct (page (rounds st)) as [c n| |c|c]; cbn [snd]; try lia.
    destruct (heights_equal st c n).
    + destruct (thr <=? _).
      * cbn. lia.
      * eapply Nat.le_trans; [apply IH|]. cbn. lia.
    + eapply Nat.le_trans; [apply IH|]. cbn. lia.
Qed.

(** When the budget runs out, every round of it was carried out. *)
Lemma loop_budget_rounds fuel : forall st st',
  loop thr page fuel st = (BudgetExhausted, st') ->
  rounds st' = rounds st + fuel.
Proof.
  induction fuel as [|fuel IH]; intros st st'; cbn [loop].
  - intros [= <-]. lia.
  - destruct (page (rounds st)) as [c n| |c|c]; try discriminate.
    destruct (heights_equal st c n).
    + destruct (thr <=? _); [discriminate|].
      intros H. apply IH in H. cbn in H. lia.
    + intros H. apply IH in H. cbn in H. lia.
Qed.

(** One more iteration of budget is one more round after the others. *)
Lemma loop_snoc fuel : forall st,
  loop thr page (S fuel) st =
  match loop thr page fuel st with
  | (BudgetExhausted, st') => loop thr page 1 st'
  | r => r
  end.
Proof.
  induction fuel as [|fuel IH]; intros st.
  - reflexivity.
  - change (loop thr page (S (S fuel)) st) with
      (match page (rounds st) with
       | Heights curr new =>
           if heights_equal st curr new then
             if thr <=? S (stable_rounds st)
             then (Converged, mkState (last_height st)
                                (S (stable_rounds st)) (S (rounds st)))
             else loop thr page (S fuel)
                    (mkState (last_height st) (S (stable_rounds st))
                             (S (rounds st)))
           else loop thr page (S fuel) (mkState new 0 (S (rounds st)))
       | _ => (Raised, st)
       end).
    change (loop thr page (S fuel) st) with
      (match page (rounds st) with
       | Heights curr new =>
           if heights_equal st curr new then
             if thr <=? S (stable_rounds st)
             then (Converged, mkState (last_height st)
                                (S (stable_rounds st)) (S (rounds st)))
             else loop thr page fuel
                    (mkState (last_height st) (S (stable_rounds st))
                             (S (rounds st)))
           else loop thr page fuel (mkState new 0 (S (rounds st)))
       | _ => (Raised, st)
       end).
    destruct (page (rounds st)) as [c n| |c|c]; try reflexivity.
    destruct (heights_equal st c n).
    + destruct (thr <=? _); [reflexivity | apply IH].
    + apply IH.
Qed.

End ScrollLoop.

Section ScrollClaims.
Import Scroll.

Lemma counter_step thr obs m st :
  loop thr (observed obs) m init = (BudgetExhausted, st) ->
  stable_rounds (snd (loop thr (observed obs) (S m) init))
  = counter_after st (obs m).
Proof.
  intros Heq. rewrite loop_snoc, Heq.
  apply loop_budget_rounds in Heq. cbn in Heq. subst m.
  unfold counter_after. cbn [loop]. unfold observed at 1.
  destruct (heights_equal st _ _); [|reflexivity].
  destruct (thr <=? _); reflexivity.
Qed.

Lemma grows_not_unchanged obs i : grows obs i -> unchanged obs i = false.
Proof.
  unfold grows, unchanged. intros [H|H].
  - apply andb_false_intro1. apply Z.eqb_neq. lia.
  - destruct (Z.eqb_spec (snd (obs i)) (fst (obs i))) as [E|E];
      [|reflexivity].
    cbn. apply Z.eqb_neq. lia.
Qed.

Lemma loop_growing thr obs fuel : forall st,
  last_height st = prev_height obs (rounds st) ->
  (forall i, rounds st <= i < rounds st + fuel -> grows obs i) ->
  loop thr (observed obs) fuel st =
  (BudgetExhausted,
   match fuel with
   | O => st
   | S _ => mkState (prev_height obs (rounds st + fuel)) 0 (rounds st + fuel)
   end).
Proof.
  induction fuel as [|fuel IH]; intros st Hl Hg; [reflexivity|].
  rewrite loop_step, (heights_equal_unchanged obs st Hl).
  rewrite grows_not_unchanged by (apply Hg; lia).
  rewrite IH; cbn [rounds last_height].
  - replace (rounds st + S fuel) with (S (rounds st) + fuel) by lia.
    destruct fuel; [|reflexivity].
    rewrite Nat.add_0_r. reflexivity.
  - reflexivity.
  - intros i Hi. apply Hg. lia.
Qed.

(** C2, as stated, fails: on the height sequence [100, 250, 250, 250] the
    two loops never both leave in round 4.  When the values are the heights
    at the start of the rounds, [scroll_and_expand] leaves after round 3;
    when each round reads its value before and after the scroll,
    [scroll_and_load_comments] leaves after round 5 only. *)
Lemma C2_counterexample :
  scroll_and_expand (simulated grow_then_flat) 20
  = (Converged, mkState 250 2 3)
  /\ scroll_and_load_comments (sampled grow_then_flat) 4
     = (BudgetExhausted, mkState 250 2 4)
  /\ scroll_and_load_comments (sampled grow_then_flat) 20
     = (Converged, mkState 250 3 5).
Proof. repeat split; reflexivity. Qed.

(** C2, as amended.  On the height sequence [100, 250, 250, 250], the page
    staying at 250 afterwards, the round of the [break] depends on the loop
    and on what a round reads.  When the k-th value is the height at the
    start of round k and the scroll of that round brings the page to the
    next value, [scroll_and_load_comments] leaves in round 4 with three
    stable rounds counted and [scroll_and_expand] in round 3 with two; when
    both reads of round k give the k-th value, they leave in rounds 5 and 4.
    This holds for every round budget that reaches the round; with a
    smaller budget the loop is still running when the budget ends, so it
    does not leave earlier. *)
Theorem C2_stop_rounds (max_rounds : nat) :
  (4 <= max_rounds ->
   scroll_and_load_comments (simulated grow_then_flat) max_rounds
   = (Converged, mkState 250 3 4))
  /\ (3 <= max_rounds ->
      scroll_and_expand (simulated grow_then_flat) max_rounds
      = (Converged, mkState 250 2 3))
  /\ (5 <= max_rounds ->
      scroll_and_load_comments (sampled grow_then_flat) max_rounds
      = (Converged, mkState 250 3 5))
  /\ (4 <= max_rounds ->
      scroll_and_expand (sampled grow_then_flat) max_rounds
      = (Converged, mkState 250 2 4))
  /\ map (scroll_and_load_comments (simulated grow_then_flat)) [1; 2; 3]
     = [ (BudgetExhausted, mkState 250 0 1);
         (BudgetExhausted, mkState 250 1 2);
         (BudgetExhausted, mkState 250 2 3) ]
  /\ map (scroll_and_expand (simulated grow_then_flat)) [1; 2]
     = [ (BudgetExhausted, mkState 250 0 1);
         (BudgetExhausted, mkState 250 1 2) ]
  /\ map (scroll_and_load_comments (sampled grow_then_flat)) [1; 2; 3; 4]
     = [ (BudgetExhausted, mkState 100 0 1);
         (BudgetExhausted, mkState 250 0 2);
         (BudgetExhausted, mkState 250 1 3);
         (BudgetExhausted, mkState 250 2 4) ]
  /\ map (scroll_and_expand (sampled grow_then_flat)) [1; 2; 3]
     = [ (BudgetExhausted, mkState 100 0 1);
         (BudgetExhausted, mkState 250 0 2);
         (BudgetExhausted, mkState 250 1 3) ].
Proof.
  split; [|split; [|split; [|split]]]; try (repeat split; reflexivity).
  - intros Hm. destruct max_rounds as [|[|[|[|k]]]]; try lia. reflexivity.
  - intros Hm. destruct max_rounds as [|[|[|k]]]; try lia. reflexivity.
  - intros Hm. destruct max_rounds as [|[|[|[|[|k]]]]]; try lia. reflexivity.
  - intros Hm. destruct max_rounds as [|[|[|[|k]]]]; try lia. reflexivity.
Qed.

Lemma C2_stop_rounds_witness :
  scroll_and_load_comments (simulated grow_then_flat) 30
  = (Converged, mkState 250 3 4)
  /\ scroll_and_expand (sampled grow_then_flat) 30
     = (Converged, mkState 250 2 4).
Proof.
  split.
  - apply (proj1 (C2_stop_rounds 30)). lia.
  - apply (proj1 (proj2 (proj2 (proj2 (C2_stop_rounds 30))))). lia.
Defined.

(** The observations behind C2: what the rounds read under the first
    reading of the sequence. *)
Example grow_then_flat_rounds :
  map (heights_of grow_then_flat) [0; 1; 2; 3]
  = [(100, 250); (250, 250); (250, 250); (250, 250)]%Z.
Proof. reflexivity. Qed.

(** C3, as stated, fails.  On the same page [scroll_and_expand] leaves by
    [break] after round 3 with only two stable rounds counted: the height
    changed in round 1, so it was not unchanged for three rounds.  And the
    counter follows the three-way equality, not a comparison of one height
    with [last_height]: it is reset in a round that ends at [last_height] but
    started at another height, and in a round that starts at [last_height]
    and ends at another height. *)
Lemma C3_counterexample :
  scroll_and_expand (simulated grow_then_flat) 20
  = (Converged, mkState 250 2 3)
  /\ unchanged (heights_of grow_then_flat) 0 = false
  /\ ~ stable_window (heights_of grow_then_flat) 3 3
  /\ scroll_and_load_comments (observed shrink_between_rounds) 1
     = (BudgetExhausted, mkState 250 0 1)
  /\ shrink_between_rounds 1 = (100, 250)%Z
  /\ scroll_and_load_comments (observed shrink_between_rounds) 2
     = (BudgetExhausted, mkState 250 0 2)
  /\ scroll_and_load_comments (simulated grow_twice) 1
     = (BudgetExhausted, mkState 250 0 1)
  /\ heights_of grow_twice 1 = (250, 400)%Z
  /\ scroll_and_load_comments (simulated grow_twice) 2
     = (BudgetExhausted, mkState 400 0 2).
Proof.
  repeat split; try reflexivity.
  intros [_ Hw]. specialize (Hw 0). cbn in Hw.
  assert (H : false = true) by (apply Hw; lia). discriminate.
Qed.

(** C3, as amended.  For every sequence of round observations and every
    budget: [scroll_and_load_comments] leaves by [break] exactly after the
    first round that completes 3 consecutive rounds with
    [new_height == curr_height == last_height], and [scroll_and_expand]
    after the first round that completes 2 such rounds; as long as the loop
    runs, the counter after a round is the counter before it plus one when
    that three-way equality holds in the round, and 0 otherwise. *)
Theorem C3_stability_rule (obs : nat -> Z * Z) (max_rounds : nat)
        (st : ScrollState) :
  (scroll_and_load_comments (observed obs) max_rounds = (Converged, st)
     <-> stops_at obs 3 max_rounds st)
  /\ (scroll_and_expand (observed obs) max_rounds = (Converged, st)
     <-> stops_at obs 2 max_rounds st)
  /\ (scroll_and_load_comments (observed obs) max_rounds
       = (BudgetExhausted, st) ->
     stable_rounds
       (snd (scroll_and_load_comments (observed obs) (S max_rounds)))
     = counter_after st (obs max_rounds))
  /\ (scroll_and_expand (observed obs) max_rounds = (BudgetExhausted, st) ->
     stable_rounds (snd (scroll_and_expand (observed obs) (S max_rounds)))
     = counter_after st (obs max_rounds)).
Proof.
  unfold scroll_and_load_comments, scroll_and_expand.
  split; [apply converged_iff; lia|].
  split; [apply converged_iff; lia|].
  split; apply counter_step.
Qed.

Lemma C3_stability_rule_witness :
  stops_at (heights_of grow_then_flat) 3 30 (mkState 250 3 4)
  /\ stops_at (heights_of grow_then_flat) 2 20 (mkState 250 2 3)
  /\ stable_rounds
       (snd (scroll_and_load_comments (simulated grow_then_flat) 3))
     = counter_after (mkState 250 1 2) (heights_of grow_then_flat 2).
Proof.
  split; [|split].
  - apply (C3_stability_rule (heights_of grow_then_flat) 30 (mkState 250 3 4)).
    reflexivity.
  - apply (C3_stability_rule (heights_of grow_then_flat) 20 (mkState 250 2 3)).
    reflexivity.
  - apply (C3_stability_rule (heights_of grow_then_flat) 2 (mkState 250 1 2)).
    reflexivity.
Defined.

(** C4.  Whatever the page does, neither loop carries out more than
    [max_rounds] rounds.  On a page whose height grows in every round of the
    budget, both loops use the whole budget: they end after exactly
    [max_rounds] rounds, not by [break], with the stable-round counter
    below 3 (it is 0). *)
Theorem C4_round_budget (page : Page) (obs : nat -> Z * Z) (max_rounds : nat) :
  rounds (snd (scroll_and_load_comments page max_rounds)) <= max_rounds
  /\ rounds (snd (scroll_and_expand page max_rounds)) <= max_rounds
  /\ ((forall i, i < max_rounds -> grows obs i) ->
      let r := scroll_and_load_comments (observed obs) max_rounds in
      let r' := scroll_and_expand (observed obs) max_rounds in
      fst r = BudgetExhausted /\ rounds (snd r) = max_rounds
      /\ stable_rounds (snd r) = 0 /\ stable_rounds (snd r) < 3
      /\ fst r' = BudgetExhausted /\ rounds (snd r') = max_rounds
      /\ stable_rounds (snd r') = 0 /\ stable_rounds (snd r') < 3).
Proof.
  unfold scroll_and_load_comments, scroll_and_expand.
  split; [apply (loop_rounds_le 3 page max_rounds init)|].
  split; [apply (loop_rounds_le 2 page max_rounds init)|].
  intros Hg. cbn zeta.
  rewrite !loop_growing by (try reflexivity; intros i Hi; apply Hg; cbn in Hi; lia).
  destruct max_rounds; cbn; repeat split; lia.
Qed.

Lemma C4_round_budget_witness :
  (forall i, i < 20 -> grows doubling i)
  /\ fst (scroll_and_load_comments (observed doubling) 20) = BudgetExhausted
  /\ rounds (snd (scroll_and_load_comments (observed doubling) 20)) = 20
  /\ stable_rounds (snd (scroll_and_load_comments (observed doubling) 20)) < 3.
Proof.
  assert (Hg : forall i, i < 20 -> grows doubling i).
  { intros i Hi. left. unfold doubling. cbn [fst snd].
    rewrite Nat2Z.inj_succ, Z.pow_succ_r by lia.
    assert (0 < 2 ^ Z.of_nat i)%Z by (apply Z.pow_pos_nonneg; lia). lia. }
  split; [exact Hg|].
  destruct (C4_round_budget (observed doubling) doubling 20)
    as (_ & _ & H).
  specialize (H Hg). cbn zeta in H.
  destruct H as (H1 & H2 & _ & H4 & _).
  repeat split; assumption.
Defined.

End ScrollClaims.

Section TextFacts.
Import Text.

Lemma eqb_eq a : forall b, eqb a b = true <-> a = b.
Proof.
  induction a as [|x a IH]; intros [|y b]; cbn [eqb]; split; intros H;
    try reflexivity; try discriminate.
  - apply andb_true_iff in H. destruct H as [H1 H2].
    apply N.eqb_eq in H1. apply IH in H2. congruence.
  - injection H as -> ->. rewrite N.eqb_refl. now apply IH.
Qed.

Lemma mem_In x l : mem x l = true <-> In x l.
Proof.
  unfold mem. rewrite existsb_exists. split.
  - intros [y [Hy He]]. apply eqb_eq in He. now subst.
  - intros H. exists x. split; [assumption | now apply eqb_eq].
Qed.

Lemma mem_false_In x l : mem x l = false <-> ~ In x l.
Proof.
  rewrite <- mem_In. destruct (mem x l); split; intros H;
    try reflexivity; try discriminate; try congruence.
Qed.

End TextFacts.

Section ExtractFacts.
Import Text Extract.

(** *** The selector cascade *)

Lemma try_selectors_none document sels :
  Forall (no_match document) sels ->
  try_selectors document sels = ([], map (fun sel => mkSearch sel 0) sels).
Proof.
  induction 1 as [|sel rest Hsel _ IH]; [reflexivity|].
  unfold no_match in Hsel.
  cbn [try_selectors map]. rewrite IH, Hsel. reflexivity.
Qed.

Lemma try_selectors_first document pre sel post :
  Forall (no_match document) pre ->
  document sel <> [] ->
  try_selectors document (pre ++ sel :: post) =
  (document sel,
   map (fun s => mkSearch s 0) pre ++ [mkSearch sel (length (document sel))]).
Proof.
  intros Hpre Hsel. induction Hpre as [|s rest Hs _ IH].
  - cbn [app try_selectors map].
    destruct (document sel) as [|e es]; [congruence | reflexivity].
  - unfold no_match in Hs.
    cbn [app try_selectors map]. rewrite IH, Hs. reflexivity.
Qed.

(** Either no selector matches, or there is a first one that does. *)
Lemma first_match_or_none document sels :
  Forall (no_match document) sels \/
  exists pre sel post,
    sels = pre ++ sel :: post /\
    Forall (no_match document) pre /\ document sel <> [].
Proof.
  induction sels as [|s rest IH]; [left; constructor|].
  destruct (document s) as [|e es] eqn:Hs.
  - destruct IH as [IH|(pre & sel & post & -> & Hpre & Hsel)].
    + left. constructor; assumption.
    + right. exists (s :: pre), sel, post. repeat split; try assumption.
      constructor; assumption.
  - right. exists [], s, rest. repeat split; [constructor | congruence].
Qed.

Lemma selectors_not_text_feature :
  ~ In text_feature_based (map selector
      (map (fun s => mkSearch s 0) selectors)).
Proof.
  rewrite map_map. cbn [selector map]. rewrite <- mem_false_In.
  vm_compute. reflexivity.
Qed.

Lemma find_none document :
  Forall (no_match document) selectors ->
  find_comment_elements document =
  (filter text_feature (document generic_tags),
   map (fun s => mkSearch s 0) selectors
   ++ [mkSearch text_feature_based
         (length (filter text_feature (document generic_tags)))]).
Proof.
  intros H. unfold find_comment_elements.
  rewrite (try_selectors_none _ _ H). reflexivity.
Qed.

Lemma find_first document pre sel post :
  selectors = pre ++ sel :: post ->
  Forall (no_match document) pre ->
  document sel <> [] ->
  find_comment_elements document =
  (document sel,
   map (fun s => mkSearch s 0) pre ++ [mkSearch sel (length (document sel))]).
Proof.
  intros Hsels Hpre Hsel. unfold find_comment_elements.
  rewrite Hsels, (try_selectors_first _ _ _ _ Hpre Hsel).
  destruct (document sel); [congruence | reflexivity].
Qed.

(** C5.  For every document: the text-feature search (tier 2) supplies the
    candidates, and its entry is pushed on the search log, exactly when every
    selector of the list has no match.  When some selector matches, the
    matches of the first such selector are the candidates, the log ends with
    that selector, and the result is the same whatever the generic tags would
    have matched: tier 2 is not evaluated. *)
Theorem C5_tier_fallback (document : Document) :
  (In text_feature_based
      (map selector (snd (find_comment_elements document)))
   <-> Forall (no_match document) selectors)
  /\ (Forall (no_match document) selectors ->
      fst (find_comment_elements document)
      = filter text_feature (document generic_tags))
  /\ (forall pre sel post,
        selectors = pre ++ sel :: post ->
        Forall (no_match document) pre ->
        document sel <> [] ->
        find_comment_elements document =
        (document sel,
         map (fun s => mkSearch s 0) pre
         ++ [mkSearch sel (length (document sel))]))
  /\ (forall document' : Document,
        ~ Forall (no_match document) selectors ->
        (forall sel, In sel selectors -> document' sel = document sel) ->
        find_comment_elements document' = find_comment_elements document).
Proof.
  split; [|split; [|split]].
  - split.
    + intros Hin.
      destruct (first_match_or_none document selectors)
        as [Hall|(pre & sel & post & Hsels & Hpre & Hsel)]; [assumption|].
      exfalso.
      rewrite (find_first _ _ _ _ Hsels Hpre Hsel) in Hin. cbn [snd] in Hin.
      apply selectors_not_text_feature.
      rewrite Hsels, !map_app, in_app_iff. rewrite map_app, in_app_iff in Hin.
      destruct Hin as [Hin|Hin]; [left; assumption|].
      right. cbn in Hin |- *. destruct Hin as [Hin|[]]. left. assumption.
    + intros Hall. rewrite (find_none _ Hall). cbn [snd].
      rewrite map_app, in_app_iff. right. left. reflexivity.
  - intros Hall. rewrite (find_none _ Hall). reflexivity.
  - intros pre sel post. apply find_first.
  - intros document' Hsome Hsame.
    destruct (first_match_or_none document selectors)
      as [Hall|(pre & sel & post & Hsels & Hpre & Hsel)]; [contradiction|].
    rewrite (find_first document _ _ _ Hsels Hpre Hsel).
    assert (Hsel' : document' sel = document sel).
    { apply Hsame. rewrite Hsels. apply in_or_app. right. left. reflexivity. }
    rewrite <- Hsel'.
    apply (find_first document' pre sel post); [assumption| |congruence].
    apply Forall_forall. intros s Hs. unfold no_match.
    rewrite Hsame.
    + rewrite Forall_forall in Hpre. now apply Hpre.
    + rewrite Hsels. apply in_or_app. left. assumption.
Qed.

Lemma C5_tier_fallback_witness :
  find_comment_elements sample_document =
  (sample_document (js ".comment-item"),
   map (fun s => mkSearch s 0) (firstn 3 selectors)
   ++ [mkSearch (js ".comment-item")
                (length (sample_document (js ".comment-item")))]).
Proof.
  apply (proj1 (proj2 (proj2 (C5_tier_fallback sample_document)))
           (firstn 3 selectors) (js ".comment-item") (skipn 4 selectors)).
  - vm_compute. reflexivity.
  - unfold selectors. cbn [firstn].
    repeat (constructor; [vm_compute; reflexivity|]). constructor.
  - vm_compute. discriminate.
Defined.

(** *** The de-duplication *)

(** Two records with the same key pass or fail the length test together. *)
Lemma long_by_key c : long c = (3 <? length (contentKey c)).
Proof.
  unfold long, contentKey. rewrite length_firstn.
  destruct (Nat.ltb_spec 3 (length (content c)));
    destruct (Nat.ltb_spec 3 (Nat.min 30 (length (content c))));
    try reflexivity; lia.
Qed.

Lemma same_key_long c d : contentKey c = contentKey d -> long c = long d.
Proof. intros H. now rewrite !long_by_key, H. Qed.

Lemma unique_from_step seen x rest :
  unique_from seen (x :: rest) =
  if negb (mem (contentKey x) seen) && long x
  then x :: unique_from (contentKey x :: seen) rest
  else unique_from seen rest.
Proof. reflexivity. Qed.

Lemma unique_from_In cs : forall seen c,
  In c (unique_from seen cs) <-> kept_from seen cs c.
Proof.
  induction cs as [|x rest IH]; intros seen c.
  - cbn. split; [intros []|].
    intros (before & after & H & _). destruct before; discriminate.
  - rewrite unique_from_step.
    destruct (negb (mem (contentKey x) seen) && long x) eqn:Hkeep.
    + apply andb_true_iff in Hkeep. destruct Hkeep as [Hseen Hlong].
      apply negb_true_iff, mem_false_In in Hseen.
      cbn [In]. rewrite IH. split.
      * intros [<-|(before & after & -> & Hl & Hns & Hfirst)].
        -- exists [], rest. repeat split; try assumption. intros d [].
        -- exists (x :: before), after. cbn [In] in Hns.
           repeat split; try assumption; [tauto|].
           intros d [<-|Hd] Hld; [|now apply Hfirst].
           intros E. apply Hns. left. assumption.
      * intros (before & after & Heq & Hl & Hns & Hfirst).
        destruct before as [|y before]; cbn [app] in Heq;
          injection Heq as <- ->; [left; reflexivity|].
        right. exists before, after. repeat split; try assumption.
        -- cbn [In]. intros [E|Hin]; [|contradiction].
           apply (Hfirst x); [left; reflexivity | assumption | assumption].
        -- intros d Hd. apply Hfirst. right. assumption.
    + rewrite IH. split.
      * intros (before & after & -> & Hl & Hns & Hfirst).
        exists (x :: before), after. repeat split; try assumption.
        intros d [<-|Hd] Hld; [|now apply Hfirst].
        intros E. apply andb_false_iff in Hkeep.
        destruct Hkeep as [Hk|Hk]; [|congruence].
        apply negb_false_iff, mem_In in Hk. rewrite E in Hk. contradiction.
      * intros (before & after & Heq & Hl & Hns & Hfirst).
        destruct before as [|y before]; cbn [app] in Heq;
          injection Heq as <- ->.
        -- exfalso. apply mem_false_In in Hns.
           rewrite Hns, Hl in Hkeep. discriminate.
        -- exists before, after. repeat split; try assumption.
           intros d Hd. apply Hfirst. right. assumption.
Qed.

Lemma unique_from_keys cs : forall seen,
  NoDup (map contentKey (unique_from seen cs)) /\
  forall k, In k (map contentKey (unique_from seen cs)) -> ~ In k seen.
Proof.
  induction cs as [|x rest IH]; intros seen.
  - cbn. split; [constructor | intros k []].
  - rewrite unique_from_step.
    destruct (negb (mem (contentKey x) seen) && long x) eqn:Hkeep.
    + apply andb_true_iff in Hkeep. destruct Hkeep as [Hseen _].
      apply negb_true_iff, mem_false_In in Hseen.
      destruct (IH (contentKey x :: seen)) as [Hnd Hout].
      cbn [map]. split.
      * constructor; [|assumption].
        intros Hin. apply (Hout _ Hin). left. reflexivity.
      * intros k [<-|Hin]; [assumption|].
        intros Hk. apply (Hout _ Hin). right. assumption.
    + apply IH.
Qed.

Lemma unique_from_subseq cs : forall seen, Subseq (unique_from seen cs) cs.
Proof.
  induction cs as [|x rest IH]; intros seen.
  - constructor.
  - rewrite unique_from_step.
    destruct (negb (mem (contentKey x) seen) && long x);
      constructor; apply IH.
Qed.

(** C6.  For every list of parsed records, the output of the de-duplication
    loop (a) is the input with records left out, order kept; (b) holds no two
    records whose contents agree on their first 30 code units; (c) holds a
    record exactly when no record before it in the input agrees with it on
    the first 30 code units of the content and its content is longer than 3,
    so a record of length at most 3 is dropped even when no other record
    starts like it. *)
Theorem C6_dedup_first_seen (comments : list Comment) :
  Subseq (uniqueComments comments) comments
  /\ NoDup (map (fun c => firstn 30 (content c)) (uniqueComments comments))
  /\ (forall c,
        In c (uniqueComments comments) <->
        (exists before after,
            comments = before ++ c :: after /\
            ~ In (firstn 30 (content c))
                 (map (fun d => firstn 30 (content d)) before))
        /\ 3 < length (content c))
  /\ (forall c, length (content c) <= 3 -> ~ In c (uniqueComments comments)).
Proof.
  change (fun c : Comment => firstn 30 (content c)) with contentKey.
  change (forall c : Comment,
             In c (uniqueComments comments) <->
             first_of_its_key comments c /\ 3 < length (content c))
    with (forall c : Comment,
             In c (uniqueComments comments) <->
             (exists before after,
                 comments = before ++ c :: after /\
                 ~ In (firstn 30 (content c)) (map contentKey before))
             /\ 3 < length (content c)).
  assert (Hin : forall c, In c (uniqueComments comments) <->
                first_of_its_key comments c /\ 3 < length (content c)).
  { intros c. unfold uniqueComments. rewrite unique_from_In.
    unfold kept_from, first_of_its_key. split.
    - intros (before & after & Heq & Hl & _ & Hfirst).
      split; [|unfold long in Hl; now apply Nat.ltb_lt in Hl].
      exists before, after. split; [assumption|].
      intros Hk. apply in_map_iff in Hk. destruct Hk as (d & Hkd & Hd).
      apply (Hfirst d Hd); [|assumption].
      now rewrite (same_key_long d c Hkd).
    - intros [(before & after & Heq & Hfirst) Hl].
      exists before, after. repeat split; try assumption.
      + unfold long. now apply Nat.ltb_lt.
      + intros [].
      + intros d Hd _ E. apply Hfirst. rewrite <- E. now apply in_map. }
  split; [apply unique_from_subseq|].
  split; [apply unique_from_keys|].
  split; [exact Hin|].
  intros c Hshort Hc. apply Hin in Hc. lia.
Qed.

Lemma C6_dedup_first_seen_witness :
  ~ In (mkComment (2, 0%N) (js "ab") [] [] (Finite 0) [] [] [] 0%N)
       (uniqueComments
          (parse_elements zero_clock 0 (map text_only scenario_texts)))
  /\ map content
         (uniqueComments
            (parse_elements zero_clock 0 (map text_only same_start)))
     = [js "0123456789012345678901234567890 first"]
  /\ js "0123456789012345678901234567890 first"
     <> js "0123456789012345678901234567890 second".
Proof.
  split; [|split].
  - apply (C6_dedup_first_seen
             (parse_elements zero_clock 0 (map text_only scenario_texts))).
    vm_compute. lia.
  - vm_compute. reflexivity.
  - vm_compute. discriminate.
Defined.

(** *** The scenario of four candidates *)

(** C1, as stated, fails: the scenario yields two records, not one. *)
Lemma C1_counterexample :
  map content (comments_of zero_clock (map text_only scenario_texts))
  = [js "Great post! 👍"; js "Great post! 👍 (dup)"]
  /\ length (comments_of zero_clock (map text_only scenario_texts)) <> 1.
Proof. split; [vm_compute; reflexivity | vm_compute; discriminate]. Qed.

(** C1, as amended.  For candidates with the texts "Great post! 👍",
    "Great post! 👍 (dup)", "ab", "登录", whatever their other attributes and
    the clock, the pipeline yields exactly two records, with contents
    "Great post! 👍" and "Great post! 👍 (dup)" in this order: the parser
    skips "登录", the length test of the de-duplication drops "ab", and the
    two remaining texts, 14 and 20 code units long, are their own keys, which
    differ. *)
Theorem C1_scenario (clock : Clock) (candidates : list Element) :
  map textContent candidates = scenario_texts ->
  map content (comments_of clock candidates)
  = [js "Great post! 👍"; js "Great post! 👍 (dup)"]
  /\ skipped (js "登录") = true
  /\ skipped (js "ab") = false
  /\ length (js "ab") <= 3
  /\ firstn 30 (js "Great post! 👍") <> firstn 30 (js "Great post! 👍 (dup)").
Proof.
  intros Htexts. split.
  - destruct candidates as [|[t1 ? ? ? ? ? ?] [|[t2 ? ? ? ? ? ?]
      [|[t3 ? ? ? ? ? ?] [|[t4 ? ? ? ? ? ?] [|? ?]]]]]; try discriminate.
    cbn [map textContent] in Htexts.
    assert (Ht : [t1; t2; t3; t4]
                 = [js "Great post! 👍"; js "Great post! 👍 (dup)";
                    js "ab"; js "登录"]) by exact Htexts.
    clear Htexts. injection Ht as -> -> -> ->.
    vm_compute. reflexivity.
  - split; [vm_compute; reflexivity|].
    split; [vm_compute; reflexivity|].
    split; [vm_compute; lia|].
    vm_compute. discriminate.
Qed.

Lemma C1_scenario_witness :
  map content (comments_of zero_clock (map text_only scenario_texts))
  = [js "Great post! 👍"; js "Great post! 👍 (dup)"].
Proof.
  apply (C1_scenario zero_clock (map text_only scenario_texts)).
  reflexivity.
Defined.

End ExtractFacts.

Section CookieFacts.
Import Text Logging Cookies.

(** *** Splitting and stripping *)

Lemma split_without sep s :
  has_char sep s = false -> split sep s = [s].
Proof.
  unfold has_char. induction s as [|c r IH]; [reflexivity|].
  cbn [existsb split]. intros H. apply orb_false_iff in H.
  destruct H as [Hc Hr]. rewrite N.eqb_sym in Hc. rewrite Hc, (IH Hr).
  reflexivity.
Qed.

Lemma split_app sep s t :
  has_char sep s = false -> split sep (s ++ sep :: t) = s :: split sep t.
Proof.
  unfold has_char. induction s as [|c r IH]; cbn [existsb split app].
  - intros _. now rewrite N.eqb_refl.
  - intros H. apply orb_false_iff in H. destruct H as [Hc Hr].
    rewrite N.eqb_sym in Hc. rewrite Hc, (IH Hr). reflexivity.
Qed.

Lemma split_join segs :
  segs <> [] ->
  Forall (fun s => has_char semicolon s = false) segs ->
  split semicolon (join semicolon segs) = segs.
Proof.
  intros Hne H. induction H as [|s rest Hs Hrest IH]; [congruence|].
  destruct rest as [|s' rest'].
  - cbn [join]. now apply split_without.
  - change (join semicolon (s :: s' :: rest'))
      with (s ++ semicolon :: join semicolon (s' :: rest')).
    rewrite (split_app _ _ _ Hs), IH; [reflexivity | discriminate].
Qed.

Lemma split_first_app sep a b :
  has_char sep a = false -> split_first sep (a ++ sep :: b) = Some (a, b).
Proof.
  unfold has_char. induction a as [|c r IH]; cbn [existsb split_first app].
  - intros _. now rewrite N.eqb_refl.
  - intros H. apply orb_false_iff in H. destruct H as [Hc Hr].
    rewrite N.eqb_sym in Hc. rewrite Hc, (IH Hr). reflexivity.
Qed.

Lemma drop_while_keep f s :
  f (hd 0%N s) = false -> drop_while f s = s.
Proof. destruct s as [|c r]; cbn; [reflexivity|]. now intros ->. Qed.

Lemma hd_rev s : hd 0%N (rev s) = last s 0%N.
Proof.
  destruct (rev s) as [|y r] eqn:E.
  - apply (f_equal (@rev N)) in E. rewrite rev_involutive in E. now subst.
  - apply (f_equal (@rev N)) in E. rewrite rev_involutive in E. subst s.
    cbn [rev hd]. now rewrite last_last.
Qed.

Lemma strip_with_unpadded f s :
  f (hd 0%N s) = false -> f (last s 0%N) = false -> strip_with f s = s.
Proof.
  intros Hh Hl. unfold strip_with.
  rewrite (drop_while_keep f s Hh), drop_while_keep, rev_involutive;
    [reflexivity|].
  now rewrite hd_rev.
Qed.

Lemma strip_unpadded s : unpadded s = true -> strip s = s.
Proof.
  unfold unpadded, strip. intros H. apply andb_true_iff in H.
  destruct H as [Hh Hl]. apply negb_true_iff in Hh, Hl.
  now apply strip_with_unpadded.
Qed.

Lemma has_char_app c a b :
  has_char c (a ++ b) = has_char c a || has_char c b.
Proof. unfold has_char. apply existsb_app. Qed.

Lemma last_app_cons (a : list N) x b d : last (a ++ x :: b) d = last (x :: b) d.
Proof.
  induction a as [|y a IH]; [reflexivity|].
  rewrite <- IH. cbn [app].
  destruct (a ++ x :: b) eqn:E; [destruct a; discriminate | reflexivity].
Qed.

(** *** One pair *)

Lemma pair_text_facts nv :
  well_formed_pair nv ->
  has_char semicolon (pair_text nv) = false /\
  strip (pair_text nv) = pair_text nv /\
  non_empty (pair_text nv) = true /\
  split_first equals (pair_text nv) = Some (fst nv, snd nv) /\
  strip (fst nv) = fst nv /\
  strip (snd nv) = snd nv.
Proof.
  destruct nv as [n v]. unfold well_formed_pair, pair_text. cbn [fst snd].
  intros (Hn1 & Hn2 & Hv1 & Hn3 & Hv3).
  split; [|split; [|split; [|split; [|split]]]].
  - change (n ++ equals :: v) with (n ++ [equals] ++ v).
    rewrite !has_char_app, Hn1, Hv1. reflexivity.
  - apply strip_unpadded. unfold unpadded in *.
    apply andb_true_iff in Hn3, Hv3. destruct Hn3 as [Hn3 _], Hv3 as [_ Hv3].
    apply andb_true_iff. split.
    + destruct n; [reflexivity | exact Hn3].
    + rewrite last_app_cons. destruct v as [|c r]; [reflexivity|].
      change (last (equals :: c :: r) 0%N) with (last (c :: r) 0%N).
      exact Hv3.
  - destruct n; reflexivity.
  - now apply split_first_app.
  - now apply strip_unpadded.
  - now apply strip_unpadded.
Qed.

Lemma make_cookie_expected n v now :
  make_cookie n v now = expected_cookie (n, v) now.
Proof.
  unfold make_cookie, expected_cookie. cbn [fst snd].
  replace (mem n http_only_names)
    with (eqb n (py "web_session") || eqb n (py "a1")
          || eqb n (py "websectiga"))
    by (unfold mem, http_only_names; cbn [existsb];
        now rewrite orb_false_r, orb_assoc).
  destruct (eqb n (py "web_session") || eqb n (py "a1")
            || eqb n (py "websectiga"));
    vm_compute; reflexivity.
Qed.

(** *** What the log lines need *)

Lemma print_raises_false log text :
  print_raises log text = false <->
  debug log = false \/ forallb (printable log) text = true.
Proof.
  unfold print_raises. destruct (debug log); cbn [andb].
  - rewrite negb_false_iff. split; [now right | now intros [|]].
  - split; [now left | reflexivity].
Qed.

Lemma print_raises_incl log text part :
  incl part text ->
  print_raises log text = false -> print_raises log part = false.
Proof.
  intros Hi H. apply print_raises_false in H. apply print_raises_false.
  destruct H as [H|H]; [now left | right].
  rewrite forallb_forall in *. intros c Hc. apply H, Hi, Hc.
Qed.

Lemma firstn_incl {A : Type} n (l : list A) : incl (firstn n l) l.
Proof.
  revert l. induction n as [|n IH]; intros l; [intros x []|].
  destruct l as [|a l]; [intros x []|]. cbn [firstn].
  intros x [->|H]; [now left | right; now apply IH].
Qed.

Lemma preview_text_incl val : incl (preview_text val) val.
Proof.
  unfold preview_text. destruct (20 <? length val);
    [apply firstn_incl | apply incl_refl].
Qed.

Lemma pair_log_prints log name val :
  print_raises log val = false -> pair_log_raises log name val = false.
Proof.
  intros H. unfold pair_log_raises.
  rewrite (print_raises_incl log val _ (preview_text_incl val) H).
  apply andb_false_r.
Qed.

Lemma cookie_pairs_text pairs :
  pairs <> [] ->
  Forall well_formed_pair pairs ->
  cookie_pairs (cookie_text pairs) = map pair_text pairs.
Proof.
  intros Hne Hwf. unfold cookie_pairs, cookie_text.
  rewrite split_join.
  - clear Hne. induction Hwf as [|nv rest Hnv _ IH]; [reflexivity|].
    destruct (pair_text_facts nv Hnv) as (_ & Hs & Hne & _).
    cbn [map filter]. rewrite Hs, Hne. cbn [map]. rewrite Hs, IH.
    reflexivity.
  - destruct pairs; [congruence | discriminate].
  - clear Hne. induction Hwf as [|nv rest Hnv _ IH]; constructor;
      [apply (pair_text_facts nv Hnv) | exact IH].
Qed.

Lemma parse_pairs_expected log clock pairs : forall reads,
  Forall well_formed_pair pairs ->
  Forall (fun nv => print_raises log (snd nv) = false) pairs ->
  parse_pairs log clock reads (map pair_text pairs)
  = Returns (expected_cookies clock reads pairs).
Proof.
  induction pairs as [|nv rest IH]; intros reads Hwf Hpr; [reflexivity|].
  inversion Hwf as [|? ? Hnv Hrest]; subst.
  inversion Hpr as [|? ? Hp Hprest]; subst.
  destruct (pair_text_facts nv Hnv) as (_ & _ & _ & Hsp & Hsn & Hsv).
  cbn [map parse_pairs expected_cookies]. rewrite Hsp. cbv zeta.
  rewrite Hsn, Hsv, (pair_log_prints log _ _ Hp).
  rewrite make_cookie_expected, (IH _ Hrest Hprest).
  destruct nv; reflexivity.
Qed.

Lemma parse_cookie_string_non_empty log clock s :
  s <> [] ->
  parse_cookie_string log clock s
  = match parse_pairs log clock 0 (cookie_pairs s) with
    | Returns cookies => Returns (Some cookies)
    | Raises => Raises
    end.
Proof. destruct s; [congruence | reflexivity]. Qed.

Lemma cookie_text_non_empty pairs :
  pairs <> [] -> non_empty (cookie_text pairs) = true.
Proof.
  destruct pairs as [|[n v] rest]; [congruence|]. intros _.
  unfold cookie_text. cbn [map]. unfold pair_text at 1. cbn [fst snd].
  destruct (map pair_text rest); cbn [join]; destruct n; reflexivity.
Qed.

Lemma expected_cookies_length clock pairs : forall reads,
  length (expected_cookies clock reads pairs) = length pairs.
Proof.
  induction pairs as [|nv rest IH]; intros reads; [reflexivity|].
  cbn [expected_cookies length]. now rewrite IH.
Qed.

(** C7.  For every non-empty list of well-formed pairs (no [;] in a name or a
    value, no [=] in a name, no white space at the ends, and values that the
    log can print: every character is one the console takes, or [debug] is
    off), the parser applied to [name=value;name2=value2;...] returns one
    cookie per pair, in order, with the name and the value of the pair
    unchanged, domain [.xiaohongshu.com], path [/], and [expires] 24 hours
    after the clock read made for that cookie; [load_cookies] with this
    cookie string returns the same list. *)
Theorem C7_cookie_string_parsed (log : Logger) (clock : nat -> Z)
        (pairs : list (str * str)) (file : CookieFile) :
  pairs <> [] ->
  Forall well_formed_pair pairs ->
  Forall (fun nv => print_raises log (snd nv) = false) pairs ->
  parse_cookie_string log clock (cookie_text pairs)
  = Returns (Some (expected_cookies clock 0 pairs))
  /\ load_cookies_or_string log clock file (Some (cookie_text pairs))
     = Some (expected_cookies clock 0 pairs)
  /\ length (expected_cookies clock 0 pairs) = length pairs.
Proof.
  intros Hne Hwf Hpr.
  assert (Hs : cookie_text pairs <> []).
  { pose proof (cookie_text_non_empty pairs Hne) as Hs.
    intros E. rewrite E in Hs. discriminate. }
  assert (Hparse : parse_cookie_string log clock (cookie_text pairs)
                   = Returns (Some (expected_cookies clock 0 pairs))).
  { rewrite parse_cookie_string_non_empty by exact Hs.
    rewrite (cookie_pairs_text pairs Hne Hwf).
    now rewrite parse_pairs_expected. }
  split; [exact Hparse|]. split; [|apply expected_cookies_length].
  unfold load_cookies_or_string, load_cookies_from_string.
  destruct (cookie_text pairs) as [|c s] eqn:E; [congruence|].
  now rewrite Hparse.
Qed.

Lemma C7_cookie_string_parsed_witness :
  parse_cookie_string strict_logger sample_clock (cookie_text sample_pairs)
  = Returns (Some (expected_cookies sample_clock 0 sample_pairs)).
Proof.
  apply (C7_cookie_string_parsed strict_logger sample_clock sample_pairs
           NoPath).
  - discriminate.
  - repeat constructor; vm_compute; reflexivity.
  - repeat constructor.
Defined.

(** Why the values have to print: with [debug] on, the log line of an
    important cookie raises on a value with a lone surrogate, and
    [load_cookies] returns [None]; a cookie that is not logged, or a silent
    logger, lets the same value through. *)
Example unprintable_value_raises :
  parse_cookie_string strict_logger sample_clock (py "a1=" ++ [55296%N])
  = Raises
  /\ load_cookies_or_string strict_logger sample_clock NoPath
       (Some (py "a1=" ++ [55296%N])) = None
  /\ parse_cookie_string silent_logger sample_clock (py "a1=" ++ [55296%N])
     = Returns (Some [expected_cookie (py "a1", [55296%N])
                                      (sample_clock 0)])
  /\ parse_cookie_string strict_logger sample_clock (py "b=" ++ [55296%N])
     = Returns (Some [expected_cookie (py "b", [55296%N])
                                      (sample_clock 0)]).
Proof. repeat split; vm_compute; reflexivity. Qed.

(** The text and the result of the witness, spelled out. *)
Example sample_pairs_text :
  cookie_text sample_pairs = py "a1=xyz;web_session=0400=".
Proof. vm_compute. reflexivity. Qed.

(** *** Records without name and value *)

Lemma validate_skips expiry clock bad after :
  is_cookie bad = false ->
  forall before reads,
    validate expiry clock reads (before ++ bad :: after)
    = validate expiry clock reads (before ++ after).
Proof.
  intros Hbad. induction before as [|x before IH]; intros reads.
  - cbn [app validate]. destruct bad; try reflexivity.
    cbn [is_cookie] in Hbad. rewrite Hbad. reflexivity.
  - cbn [app validate]. destruct x; try apply IH.
    destruct (dict_has (py "name") d && dict_has (py "value") d);
      [|apply IH].
    destruct (expiry && _); now rewrite IH.
Qed.

Lemma dict_has_set key key' v d :
  dict_has key d = true -> dict_has key (dict_set key' v d) = true.
Proof.
  unfold dict_has. induction d as [|[k w] r IH]; [discriminate|].
  cbn [existsb dict_set fst]. intros H.
  destruct (eqb key' k); cbn [existsb fst]; [exact H|].
  apply orb_true_iff in H. apply orb_true_iff.
  destruct H as [H|H]; [left; exact H | right; now apply IH].
Qed.

Lemma dict_has_default key key' v d :
  dict_has key d = true -> dict_has key (set_default key' v d) = true.
Proof.
  unfold set_default. destruct (dict_has key' d); [trivial|].
  apply dict_has_set.
Qed.

(** Every validated cookie is a dict with a name and a value. *)
Lemma validate_only_cookies expiry clock cookies : forall reads c,
  In c (validate expiry clock reads cookies) -> is_cookie c = true.
Proof.
  induction cookies as [|x rest IH]; intros reads c; [intros []|].
  cbn [validate]. destruct x; try apply IH.
  destruct (dict_has (py "name") d && dict_has (py "value") d) eqn:Hx;
    [|apply IH].
  apply andb_true_iff in Hx. destruct Hx as [Hn Hv].
  destruct (expiry && _); cbn [In]; (intros [<-|Hin]; [|now apply IH in Hin]);
    cbn [is_cookie]; apply andb_true_iff; split;
    repeat first [apply dict_has_set | apply dict_has_default]; assumption.
Qed.

(** C8, as stated, fails: a file with a record that has neither name nor
    value loads without error, the record left out, in both versions of
    [load_cookies]. *)
Lemma C8_counterexample :
  load_cookies strict_logger sample_clock (Parsed file_with_bad_record)
  = Some [ VDict [ (py "name", VStr (py "a1"));
                   (py "value", VStr (py "xyz"));
                   (py "domain", VStr (py ".xiaohongshu.com"));
                   (py "path", VStr (py "/")) ] ]
  /\ load_cookies_or_string strict_logger sample_clock
       (Parsed file_with_bad_record) None
     = Some [ VDict [ (py "name", VStr (py "a1"));
                      (py "value", VStr (py "xyz"));
                      (py "domain", VStr (py ".xiaohongshu.com"));
                      (py "path", VStr (py "/"));
                      (py "expires", VInt 1700086400) ] ].
Proof. split; vm_compute; reflexivity. Qed.

(** C8, as amended.  A record of a cookie file that has neither a name nor a
    value field is left out without any error: for a file holding a JSON
    array of records, bare or under the key [cookies], both versions of
    [load_cookies] validate the array as if the record were not in it, and
    return the validated cookies.  They return [None] only when the log
    line of an important cookie among these raises: while the preview of its
    value is built (a value without length, a list or dict of more than 20
    entries) or, with [debug] on, while it is printed (a string value with a
    character the console does not take among its first 20). *)
Theorem C8_bad_record_skipped (log : Logger) (expiry : bool)
        (clock : nat -> Z) (before after : list value)
        (d : list (str * value)) :
  dict_has (py "name") d = false ->
  dict_has (py "value") d = false ->
  let valid_cookies := validate expiry clock 0 (before ++ after) in
  validate expiry clock 0 (before ++ VDict d :: after) = valid_cookies
  /\ ~ In (VDict d) valid_cookies
  /\ load_file log expiry clock
       (Parsed (VList (before ++ VDict d :: after)))
     = (if existsb (log_raises log) valid_cookies then None
        else Some valid_cookies)
  /\ load_file log expiry clock
       (Parsed (VDict [(py "cookies", VList (before ++ VDict d :: after))]))
     = (if existsb (log_raises log) valid_cookies then None
        else Some valid_cookies).
Proof.
  intros Hname Hvalue valid_cookies.
  assert (Hbad : is_cookie (VDict d) = false)
    by (cbn [is_cookie]; now rewrite Hname).
  assert (Hskip : validate expiry clock 0 (before ++ VDict d :: after)
                  = valid_cookies) by now apply validate_skips.
  split; [exact Hskip|]. split.
  - intros Hin. apply validate_only_cookies in Hin. congruence.
  - assert (Hload : forall data,
              select_cookies data
              = Some (Some (VList (before ++ VDict d :: after))) ->
              load_file log expiry clock (Parsed data)
              = if existsb (log_raises log) valid_cookies then None
                else Some valid_cookies).
    { intros data Hsel. cbn [load_file]. unfold load_data. rewrite Hsel.
      cbn [iterate].
      replace (truthy (VList (before ++ VDict d :: after))) with true
        by (destruct before; reflexivity).
      cbn [negb]. rewrite Hskip. reflexivity. }
    split; apply Hload; [reflexivity | vm_compute; reflexivity].
Qed.

Lemma C8_bad_record_skipped_witness :
  validate false sample_clock 0
    ([VDict [(py "name", VStr (py "a1")); (py "value", VStr (py "xyz"))]]
     ++ VDict [(py "domain", VStr (py ".example.com"))] :: [])
  = validate false sample_clock 0
      ([VDict [(py "name", VStr (py "a1")); (py "value", VStr (py "xyz"))]]
       ++ []).
Proof.
  apply (C8_bad_record_skipped strict_logger false sample_clock
           [VDict [(py "name", VStr (py "a1")); (py "value", VStr (py "xyz"))]]
           [] [(py "domain", VStr (py ".example.com"))]);
    vm_compute; reflexivity.
Defined.

(** The log line that C8 speaks of: a surrogate in the value of an
    important cookie makes the loader return [None] with [debug] on, and not
    with [debug] off. *)
Example unprintable_file_value :
  load_cookies strict_logger sample_clock
    (Parsed (VList [ VDict [ (py "name", VStr (py "a1"));
                             (py "value", VStr [55296%N]) ] ]))
  = None
  /\ load_cookies silent_logger sample_clock
       (Parsed (VList [ VDict [ (py "name", VStr (py "a1"));
                                (py "value", VStr [55296%N]) ] ]))
     = Some [ VDict [ (py "name", VStr (py "a1"));
                      (py "value", VStr [55296%N]);
                      (py "domain", VStr (py ".xiaohongshu.com"));
                      (py "path", VStr (py "/")) ] ].
Proof. split; vm_compute; reflexivity. Qed.

End CookieFacts.

Section ScrapeFacts.
Import Scroll Scrape.

(** A budget of [k + m] rounds is [k] rounds followed by [m] rounds. *)
Lemma loop_app thr p k : forall m st,
  loop thr p (k + m) st =
  match loop thr p k st with
  | (BudgetExhausted, st') => loop thr p m st'
  | r => r
  end.
Proof.
  induction k as [|k IH]; intros m st; [reflexivity|].
  cbn [Nat.add loop].
  destruct (p (rounds st)) as [c n| |c|c]; try reflexivity.
  destruct (heights_equal st c n).
  - destruct (thr <=? _); [reflexivity | apply IH].
  - apply IH.
Qed.

Lemma loop_raises thr p k max_rounds st :
  k < max_rounds ->
  loop thr p k init = (BudgetExhausted, st) ->
  raises (p k) = true ->
  loop thr p max_rounds init = (Raised, st) /\ rounds st = k.
Proof.
  intros Hk Hrun Hraise.
  pose proof (loop_budget_rounds thr p k init st Hrun) as Hr. cbn in Hr.
  split; [|exact Hr].
  replace max_rounds with (k + S (max_rounds - S k)) by lia.
  rewrite loop_app, Hrun. cbn [loop]. rewrite Hr.
  destruct (p k); [discriminate | reflexivity | reflexivity | reflexivity].
Qed.




(** The log of [extract_comments] can lose the comments: the preview of a
    sample stops between the two halves of a character, the default console
    refuses the half, and the record that the script returned is dropped.
    With [debug] off it is returned. *)
Example cut_preview_drops_comments :
  map Extract.content
      (fst (Extract.extract_script Extract.zero_clock Extract.cut_document))
    = [Extract.cut_text]
  /\ extract_comments Logging.strict_logger Extract.zero_clock
       (Some Extract.cut_document) = []
  /\ map Extract.content
         (extract_comments Logging.silent_logger Extract.zero_clock
            (Some Extract.cut_document))
     = [Extract.cut_text].
Proof.
  vm_compute. repeat split.
Qed.

End ScrapeFacts.

Section UrlSplitting.
Import Text ImgUrl.

(** *** Splitting at a separator *)

Lemma url_split_first_some sep s a b :
  split_first sep s = Some (a, b) ->
  s = a ++ sep :: b /\ has_char sep a = false.
Proof.
  revert a b. induction s as [|c r IH]; intros a b; cbn [split_first];
    [discriminate|].
  destruct (N.eqb_spec c sep) as [-> |Hne].
  - intros [= <- <-]. split; reflexivity.
  - destruct (split_first sep r) as [[a' b']|]; [|discriminate].
    intros [= <- <-]. destruct (IH a' b' eq_refl) as [-> Hno].
    split; [reflexivity|]. unfold has_char in *. cbn [existsb].
    rewrite Hno, orb_false_r. apply N.eqb_neq. congruence.
Qed.

Lemma url_split_first_none sep s :
  split_first sep s = None -> has_char sep s = false.
Proof.
  unfold has_char. induction s as [|c r IH]; cbn [split_first existsb];
    [reflexivity|].
  destruct (N.eqb_spec c sep) as [-> |Hne]; [discriminate|].
  destruct (split_first sep r) as [[a' b']|]; [discriminate|].
  intros _. rewrite (IH eq_refl), orb_false_r. apply N.eqb_neq. congruence.
Qed.

Lemma url_split_first_absent sep s :
  has_char sep s = false -> split_first sep s = None.
Proof.
  unfold has_char. induction s as [|c r IH]; cbn [existsb split_first];
    [reflexivity|].
  intros H. apply orb_false_iff in H. destruct H as [Hc Hr].
  rewrite N.eqb_sym in Hc. rewrite Hc, (IH Hr). reflexivity.
Qed.

(** With a separator in [a], the first split of [a ++ t] is that of [a]. *)
Lemma url_split_first_prefix sep a pre post t :
  split_first sep a = Some (pre, post) ->
  split_first sep (a ++ t) = Some (pre, post ++ t).
Proof.
  intros H. apply url_split_first_some in H. destruct H as [-> Hno].
  rewrite <- app_assoc. cbn [app]. now apply split_first_app.
Qed.

Lemma has_char_false c s :
  has_char c s = false <-> forallb (fun x => negb (x =? c)%N) s = true.
Proof.
  unfold has_char. induction s as [|x r IH]; cbn [existsb forallb];
    [tauto|].
  rewrite orb_false_iff, andb_true_iff, IH, negb_true_iff, N.eqb_sym.
  tauto.
Qed.

Lemma forallb_weaken (P Q : N -> bool) s :
  (forall c, P c = true -> Q c = true) ->
  forallb P s = true -> forallb Q s = true.
Proof.
  intros HPQ. rewrite !forallb_forall. intros H c Hc. apply HPQ, H, Hc.
Qed.

Lemma span_netloc_spec s a b :
  span_netloc s = (a, b) ->
  s = a ++ b /\ forallb (fun c => negb (is_delim c)) a = true /\
  (b = [] \/ is_delim (hd 0%N b) = true).
Proof.
  revert a b. induction s as [|c r IH]; intros a b; cbn [span_netloc].
  - intros [= <- <-]. repeat split. left. reflexivity.
  - destruct (is_delim c) eqn:Hc.
    + intros [= <- <-]. repeat split. right. exact Hc.
    + destruct (span_netloc r) as [a' b']. intros [= <- <-].
      destruct (IH a' b' eq_refl) as (-> & Ha & Hb).
      repeat split; [|exact Hb]. cbn [forallb]. now rewrite Hc, Ha.
Qed.

Lemma span_netloc_app a b :
  forallb (fun c => negb (is_delim c)) a = true ->
  b = [] \/ is_delim (hd 0%N b) = true ->
  span_netloc (a ++ b) = (a, b).
Proof.
  intros Ha Hb. induction a as [|c r IH]; cbn [app].
  - destruct b as [|d t]; [reflexivity|]. cbn [span_netloc].
    destruct Hb as [Hb|Hb]; [discriminate|]. cbn [hd] in Hb. now rewrite Hb.
  - cbn [forallb] in Ha. apply andb_true_iff in Ha. destruct Ha as [Hc Hr].
    apply negb_true_iff in Hc. cbn [span_netloc]. rewrite Hc, (IH Hr).
    reflexivity.
Qed.

(** *** Character classes *)

(** Decide a statement about the character tests by arithmetic. *)
Ltac no_if t :=
  lazymatch t with
  | context [if _ then _ else _] => fail
  | _ => idtac
  end.

Ltac chars_to_arith :=
  unfold lower_char, hex_digit;
  unfold query_char, unsafe_char, always_safe, scheme_char, ascii_alpha,
    is_digit, is_delim, format_stop, in_range,
    colon, slash, question, hash, amp, bang;
  repeat (match goal with
          | |- context [(?a <=? ?b)%N] =>
              no_if a; no_if b; destruct (N.leb_spec a b)
          | |- context [(?a <? ?b)%N] =>
              no_if a; no_if b; destruct (N.ltb_spec a b)
          | |- context [(?a =? ?b)%N] =>
              no_if a; no_if b; destruct (N.eqb_spec a b)
          end; cbn [andb orb negb]);
  intros; try reflexivity; try discriminate; try lia.

Lemma lower_char_alpha c :
  ascii_alpha c = true -> ascii_alpha (lower_char c) = true.
Proof. chars_to_arith. Qed.

Lemma lower_char_scheme c :
  scheme_char c = true -> scheme_char (lower_char c) = true.
Proof. chars_to_arith. Qed.

Lemma lower_char_idem c : lower_char (lower_char c) = lower_char c.
Proof. chars_to_arith. Qed.

Lemma scheme_char_not_colon c : scheme_char c = true -> (c =? colon)%N = false.
Proof. chars_to_arith. Qed.

Lemma scheme_char_clean c : scheme_char c = true -> negb (unsafe_char c) = true.
Proof. chars_to_arith. Qed.

Lemma alpha_above_space c : ascii_alpha c = true -> (32 < c)%N.
Proof. chars_to_arith. Qed.

Lemma question_not_scheme_char : scheme_char question = false.
Proof. reflexivity. Qed.

Lemma always_safe_query_char b : always_safe b = true -> query_char b = true.
Proof. chars_to_arith. Qed.

Lemma hex_digit_query_char d : query_char (hex_digit d) = true.
Proof. chars_to_arith. Qed.

Lemma above_space_kept c : (32 < c)%N -> (c <=? 32)%N = false.
Proof. intros H. now apply N.leb_gt. Qed.

Lemma above_space_clean c : (32 < c)%N -> negb (unsafe_char c) = true.
Proof. chars_to_arith. Qed.

Lemma delim_not_alpha c : is_delim c = true -> ascii_alpha c = false.
Proof. chars_to_arith. Qed.

Lemma delim_above_space c : is_delim c = true -> (32 < c)%N.
Proof. chars_to_arith. Qed.

Lemma slash_is_delim c : (c =? slash)%N = true -> is_delim c = true.
Proof. chars_to_arith. Qed.

Lemma lower_scheme pre :
  forallb scheme_char pre = true ->
  forallb scheme_char (lower pre) = true /\ lower (lower pre) = lower pre.
Proof.
  unfold lower. induction pre as [|c r IH]; cbn [forallb map];
    [split; reflexivity|].
  intros H. apply andb_true_iff in H. destruct H as [Hc Hr].
  destruct (IH Hr) as [IH1 IH2].
  rewrite (lower_char_scheme c Hc), IH1, lower_char_idem, IH2.
  split; reflexivity.
Qed.

(** *** Scheme detection *)

Lemma split_scheme_spec u :
  split_scheme u = ([], u) \/
  exists c pre rest,
    u = (c :: pre) ++ colon :: rest /\ ascii_alpha c = true /\
    forallb scheme_char (c :: pre) = true /\
    split_scheme u = (lower (c :: pre), rest).
Proof.
  unfold split_scheme.
  destruct (split_first colon u) as [[[|c pre] rest]|] eqn:E;
    try (left; reflexivity).
  destruct (ascii_alpha c && forallb scheme_char (c :: pre)) eqn:T;
    [|left; reflexivity].
  right. exists c, pre, rest. apply andb_true_iff in T. destruct T as [T1 T2].
  apply url_split_first_some in E. destruct E as [E _].
  repeat split; assumption.
Qed.

Lemma no_scheme_prefix p t : no_scheme (p ++ t) -> no_scheme p.
Proof.
  unfold no_scheme, split_scheme.
  destruct (split_first colon p) as [[pre post]|] eqn:E; [|reflexivity].
  rewrite (url_split_first_prefix _ _ _ _ t E).
  destruct pre as [|c pre]; [reflexivity|].
  destruct (ascii_alpha c && forallb scheme_char (c :: pre));
    [discriminate | reflexivity].
Qed.

Lemma url_split_first_skip sep a b :
  has_char sep a = false ->
  split_first sep (a ++ b) =
  match split_first sep b with
  | Some (x, y) => Some (a ++ x, y)
  | None => None
  end.
Proof.
  unfold has_char. induction a as [|c r IH]; cbn [existsb app].
  - intros _. destruct (split_first sep b) as [[x y]|]; reflexivity.
  - intros H. apply orb_false_iff in H. destruct H as [Hc Hr].
    rewrite N.eqb_sym in Hc. cbn [split_first]. rewrite Hc, (IH Hr).
    destruct (split_first sep b) as [[x y]|]; reflexivity.
Qed.

Lemma forallb_scheme_with_question a b :
  forallb scheme_char (a ++ question :: b) = false.
Proof.
  rewrite forallb_app. cbn [forallb]. rewrite question_not_scheme_char.
  apply andb_false_r.
Qed.

Lemma no_scheme_extend p t :
  no_scheme p -> no_scheme (p ++ question :: t).
Proof.
  unfold no_scheme, split_scheme.
  destruct (split_first colon p) as [[pre post]|] eqn:E.
  - rewrite (url_split_first_prefix _ _ _ _ (question :: t) E).
    destruct pre as [|c pre]; [reflexivity|].
    destruct (ascii_alpha c && forallb scheme_char (c :: pre));
      [discriminate | reflexivity].
  - intros _. apply url_split_first_none in E.
    rewrite (url_split_first_skip _ _ (question :: t) E).
    cbn [split_first]. change (question =? colon)%N with false. cbn iota.
    destruct (split_first colon t) as [[x y]|]; [|reflexivity].
    destruct (p ++ question :: x) as [|c pre] eqn:Hp; [reflexivity|].
    rewrite <- Hp, forallb_scheme_with_question, andb_false_r. reflexivity.
Qed.

Lemma no_scheme_head s : ascii_alpha (hd 0%N s) = false -> no_scheme s.
Proof.
  unfold no_scheme, split_scheme. intros H.
  destruct (split_first colon s) as [[[|c pre] post]|] eqn:E;
    try reflexivity.
  apply url_split_first_some in E. destruct E as [-> _].
  cbn [app hd] in H. rewrite H. reflexivity.
Qed.

Lemma split_scheme_add sch x :
  well_formed_scheme sch ->
  (sch = [] -> no_scheme x) ->
  split_scheme (add_scheme sch x) = (sch, x).
Proof.
  intros [-> |(c & pre & -> & Ha & Hs & Hl)] Hno.
  - cbn [add_scheme is_empty]. now apply Hno.
  - cbn [add_scheme is_empty]. unfold split_scheme.
    rewrite split_first_app.
    + rewrite Ha, Hs, Hl. reflexivity.
    + apply has_char_false. revert Hs. apply forallb_weaken.
      intros x' Hx. apply scheme_char_not_colon in Hx.
      now apply negb_true_iff.
Qed.

(** *** [urlsplit], taken apart and put together *)

Lemma lstrip_c0_keep u : starts_above_space u -> lstrip_c0 u = u.
Proof.
  intros [-> |H]; [reflexivity|]. destruct u as [|c r]; [reflexivity|].
  cbn [hd] in H. unfold lstrip_c0. cbn [drop_while].
  now rewrite above_space_kept.
Qed.

Lemma remove_unsafe_keep u : clean u = true -> remove_unsafe u = u.
Proof.
  unfold clean, remove_unsafe. induction u as [|c r IH]; [reflexivity|].
  cbn [forallb filter]. intros H. apply andb_true_iff in H.
  destruct H as [Hc Hr]. rewrite Hc, (IH Hr). reflexivity.
Qed.

Lemma lstrip_c0_head u : starts_above_space (lstrip_c0 u).
Proof.
  unfold lstrip_c0. induction u as [|c r IH]; [left; reflexivity|].
  cbn [drop_while]. destruct (N.leb_spec c 32); [exact IH|].
  right. exact H.
Qed.

Lemma remove_unsafe_head u :
  starts_above_space u -> starts_above_space (remove_unsafe u).
Proof.
  intros [-> |H]; [left; reflexivity|]. destruct u as [|c r];
    [left; reflexivity|].
  cbn [hd] in H. right. unfold remove_unsafe. cbn [filter].
  rewrite (above_space_clean c H). exact H.
Qed.

Lemma remove_unsafe_clean u : clean (remove_unsafe u) = true.
Proof.
  unfold clean, remove_unsafe. apply forallb_forall. intros c Hc.
  apply filter_In in Hc. apply Hc.
Qed.

Lemma clean_app a b : clean (a ++ b) = clean a && clean b.
Proof. apply forallb_app. Qed.

Lemma split_off_fragment x f :
  has_char hash x = false ->
  split_off hash (x ++ fragment_tail f) = (x, f).
Proof.
  intros Hx. unfold split_off, fragment_tail.
  destruct f as [|c r]; cbn [is_empty].
  - rewrite app_nil_r, (url_split_first_absent _ _ Hx). reflexivity.
  - rewrite (split_first_app _ _ _ Hx). reflexivity.
Qed.

Lemma split_off_query p q :
  has_char question p = false ->
  split_off question (p ++ question :: q) = (p, q).
Proof.
  intros Hp. unfold split_off. now rewrite (split_first_app _ _ _ Hp).
Qed.

(** Putting a URL together so that [urlsplit] finds the parts again. *)
Lemma urlsplit_compose chk sch x nl rest pq p q f :
  well_formed_scheme sch ->
  (sch = [] -> no_scheme x) ->
  starts_above_space (add_scheme sch x) ->
  clean (add_scheme sch x) = true ->
  split_netloc x = (nl, rest) ->
  split_off hash rest = (pq, f) ->
  split_off question pq = (p, q) ->
  netloc_ok chk nl = true ->
  urlsplit chk (add_scheme sch x) = Some (mkSplit sch nl p q f).
Proof.
  intros Hsch Hno Hhead Hclean Hnl Hf Hq Hok. unfold urlsplit.
  rewrite (lstrip_c0_keep _ Hhead), (remove_unsafe_keep _ Hclean).
  rewrite (split_scheme_add _ _ Hsch Hno), Hnl, Hf, Hq, Hok. reflexivity.
Qed.

(** Taking [urlsplit] apart. *)
Lemma urlsplit_inv chk url sp :
  urlsplit chk url = Some sp ->
  exists u1 rest pq,
    split_scheme (remove_unsafe (lstrip_c0 url)) = (scheme sp, u1) /\
    split_netloc u1 = (netloc sp, rest) /\
    split_off hash rest = (pq, fragment sp) /\
    split_off question pq = (path sp, query sp) /\
    netloc_ok chk (netloc sp) = true.
Proof.
  unfold urlsplit.
  destruct (split_scheme _) as [sch u1] eqn:E1.
  destruct (split_netloc u1) as [nl rest] eqn:E2.
  destruct (split_off hash rest) as [pq f] eqn:E3.
  destruct (split_off question pq) as [p q] eqn:E4.
  destruct (netloc_ok chk nl) eqn:E5; [|discriminate].
  intros [= <-]. exists u1, rest, pq. cbn. repeat split; assumption.
Qed.

Lemma split_off_spec sep u a b :
  split_off sep u = (a, b) ->
  has_char sep a = false /\ (u = a /\ b = [] \/ u = a ++ sep :: b).
Proof.
  unfold split_off. destruct (split_first sep u) as [[x y]|] eqn:E.
  - intros [= <- <-]. apply url_split_first_some in E.
    destruct E as [E Hno]. split; [exact Hno | right; exact E].
  - intros [= <- <-]. apply url_split_first_none in E.
    split; [exact E | left; split; reflexivity].
Qed.

Lemma split_netloc_spec u nl rest :
  split_netloc u = (nl, rest) ->
  (nl = [] /\ rest = u /\ starts_with_two_slashes u = false) \/
  (u = slash :: slash :: nl ++ rest /\
   forallb (fun c => negb (is_delim c)) nl = true /\
   (rest = [] \/ is_delim (hd 0%N rest) = true)).
Proof.
  unfold split_netloc, starts_with_two_slashes.
  destruct u as [|c1 [|c2 r]]; try (intros [= <- <-]; left; now repeat split).
  destruct (N.eqb_spec c1 slash) as [-> |H1]; cbn [andb];
    [|intros [= <- <-]; left; now repeat split].
  destruct (N.eqb_spec c2 slash) as [-> |H2];
    [|intros [= <- <-]; left; now repeat split].
  intros H. apply span_netloc_spec in H. destruct H as (-> & Hnl & Hrest).
  right. repeat split; assumption.
Qed.

(** The path is the start of what follows the netloc. *)
Lemma path_is_prefix rest pq f p q :
  split_off hash rest = (pq, f) ->
  split_off question pq = (p, q) ->
  has_char question p = false /\ has_char hash p = false /\
  has_char hash q = false /\
  (exists t, rest = p ++ t) /\
  (clean rest = true -> clean p = true /\ clean q = true /\ clean f = true).
Proof.
  intros Hf Hq. apply split_off_spec in Hf, Hq.
  destruct Hf as [Hpq Hrest], Hq as [Hp Hpq'].
  assert (Hparts : has_char hash p = false /\ has_char hash q = false /\
                   exists t, pq = p ++ t /\ (clean pq = true ->
                     clean p = true /\ clean q = true)).
  { destruct Hpq' as [[-> ->] | ->].
    - repeat split; try assumption. exists []. rewrite app_nil_r.
      split; [reflexivity|]. intros H. split; [exact H | reflexivity].
    - rewrite has_char_app in Hpq. apply orb_false_iff in Hpq.
      destruct Hpq as [H1 H2]. cbn [has_char existsb] in H2.
      apply orb_false_iff in H2. destruct H2 as [_ H2].
      repeat split; try assumption. exists (question :: q).
      split; [reflexivity|]. rewrite clean_app. intros H.
      apply andb_true_iff in H. destruct H as [Ha Hb].
      unfold clean in Hb. cbn [forallb] in Hb. apply andb_true_iff in Hb.
      split; [exact Ha | apply Hb]. }
  destruct Hparts as (Hhp & Hhq & t & -> & Hcl).
  split; [exact Hp|]. split; [exact Hhp|]. split; [exact Hhq|]. split.
  - destruct Hrest as [[-> ->] | ->].
    + exists t. reflexivity.
    + exists (t ++ hash :: f). now rewrite app_assoc.
  - destruct Hrest as [[-> ->] | ->]; intros Hc.
    + destruct (Hcl Hc) as [H1 H2]. repeat split; assumption.
    + rewrite clean_app in Hc. apply andb_true_iff in Hc.
      destruct Hc as [Hc Hf]. destruct (Hcl Hc) as [H1 H2].
      unfold clean in Hf. cbn [forallb] in Hf. apply andb_true_iff in Hf.
      repeat split; try assumption. apply Hf.
Qed.

Lemma no_scheme_nil : no_scheme [].
Proof. reflexivity. Qed.

(** [urlsplit] returns well-formed parts. *)
Lemma urlsplit_well_split chk url sp :
  urlsplit chk url = Some sp -> well_split chk sp.
Proof.
  intros H. apply urlsplit_inv in H.
  destruct H as (u1 & rest & pq & Hs & Hn & Hf & Hq & Hok).
  set (u0 := remove_unsafe (lstrip_c0 url)) in *.
  assert (Hc0 : clean u0 = true) by apply remove_unsafe_clean.
  assert (Hh0 : starts_above_space u0)
    by apply remove_unsafe_head, lstrip_c0_head.
  destruct (path_is_prefix _ _ _ _ _ Hf Hq)
    as (Hpq & Hph & Hqh & [t Hrest] & Hclean).
  (* the scheme *)
  assert (Hsch : (scheme sp = [] /\ u1 = u0 /\ no_scheme u0) \/
                 (well_formed_scheme (scheme sp) /\ scheme sp <> [] /\
                  exists pre, u0 = pre ++ colon :: u1)).
  { destruct (split_scheme_spec u0) as [E|(c & pre & r & E0 & Ha & Hsc & E)];
      rewrite E in Hs; injection Hs as Hs1 Hs2.
    - left. repeat split; first [congruence | exact E].
    - right. subst r. split; [|split].
      + right. exists (lower_char c), (lower pre). rewrite <- Hs1.
        destruct (lower_scheme (c :: pre) Hsc) as [L1 L2].
        repeat split; try assumption. now apply lower_char_alpha.
      + rewrite <- Hs1. discriminate.
      + exists (c :: pre). exact E0. }
  assert (Hc1 : clean u1 = true).
  { destruct Hsch as [(_ & -> & _)|(_ & _ & pre & E)]; [exact Hc0|].
    rewrite E, clean_app in Hc0. apply andb_true_iff in Hc0.
    destruct Hc0 as [_ Hc0]. unfold clean in Hc0. cbn [forallb] in Hc0.
    apply andb_true_iff in Hc0. apply Hc0. }
  (* the netloc *)
  apply split_netloc_spec in Hn.
  assert (Hcn : clean (netloc sp) = true /\ clean rest = true).
  { destruct Hn as [(-> & -> & _)|(E & _ & _)]; [split; [reflexivity|exact Hc1]|].
    rewrite E in Hc1. unfold clean in Hc1. cbn [forallb] in Hc1.
    apply andb_true_iff in Hc1. destruct Hc1 as [_ Hc1].
    apply andb_true_iff in Hc1. destruct Hc1 as [_ Hc1].
    fold (clean (netloc sp ++ rest)) in Hc1. rewrite clean_app in Hc1.
    now apply andb_true_iff in Hc1. }
  destruct Hcn as [Hcnl Hcrest]. destruct (Hclean Hcrest) as (Hcp & Hcq & Hcf).
  (* the path after a netloc or after two slashes *)
  assert (Hdelim : rest = [] \/ is_delim (hd 0%N rest) = true ->
                   path sp = [] \/ starts_with_slash (path sp) = true).
  { intros Hd. destruct (path sp) as [|c r] eqn:Ep; [left; reflexivity|].
    right. destruct Hd as [Hd|Hd]; [rewrite Hd in Hrest; discriminate|].
    rewrite Hrest in Hd. cbn [app hd] in Hd. cbn [starts_with_slash].
    cbn [has_char existsb] in Hpq, Hph.
    apply orb_false_iff in Hpq, Hph. destruct Hpq as [Hpq _], Hph as [Hph _].
    unfold is_delim in Hd. rewrite (N.eqb_sym c question) in Hd.
    rewrite (N.eqb_sym c hash) in Hd. rewrite Hpq, Hph, !orb_false_r in Hd.
    exact Hd. }
  constructor.
  - destruct Hsch as [(E & _)|(Hw & _)]; [left; exact E | exact Hw].
  - destruct Hn as [(-> & _)|(_ & Hnl & _)]; [reflexivity | exact Hnl].
  - exact Hok.
  - apply forallb_forall. intros c Hc.
    apply has_char_false in Hpq, Hph. rewrite forallb_forall in Hpq, Hph.
    now rewrite (Hpq c Hc), (Hph c Hc).
  - intros Hne. destruct Hn as [(E & _)|(_ & _ & Hd)]; [congruence|].
    now apply Hdelim.
  - intros Es En.
    destruct Hsch as [(_ & -> & Hno)|(_ & Hne & _)]; [|congruence].
    destruct Hn as [(_ & -> & _)|(_ & _ & Hd)].
    + rewrite Hrest in Hno. now apply no_scheme_prefix in Hno.
    + destruct (Hdelim Hd) as [-> |Hsl]; [apply no_scheme_nil|].
      apply no_scheme_head. destruct (path sp) as [|c r]; [discriminate|].
      cbn [starts_with_slash hd] in *.
      apply delim_not_alpha, slash_is_delim, Hsl.
  - intros Es En.
    destruct Hsch as [(_ & -> & _)|(_ & Hne & _)]; [|congruence].
    destruct Hn as [(_ & -> & _)|(_ & _ & Hd)].
    + destruct Hh0 as [E|Hh0].
      * left. rewrite E in Hrest. destruct (path sp); [reflexivity|discriminate].
      * destruct (path sp) as [|c r]; [left; reflexivity|].
        right. rewrite Hrest in Hh0. exact Hh0.
    + destruct (Hdelim Hd) as [-> |Hsl]; [left; reflexivity|].
      right. destruct (path sp) as [|c r]; [discriminate|].
      cbn [starts_with_slash hd] in *.
      apply delim_above_space, slash_is_delim, Hsl.
  - apply forallb_forall. intros c Hc. unfold query_char.
    apply has_char_false in Hqh. rewrite forallb_forall in Hqh.
    unfold clean in Hcq. rewrite forallb_forall in Hcq.
    now rewrite (Hqh c Hc), (Hcq c Hc).
  - exact Hcnl.
  - exact Hcp.
  - exact Hcf.
Qed.

(** *** From the parts back to the URL and to the parts again *)

Lemma add_scheme_app sch a b : add_scheme sch a ++ b = add_scheme sch (a ++ b).
Proof.
  unfold add_scheme. destruct sch; cbn [is_empty]; [reflexivity|].
  now rewrite <- app_assoc.
Qed.

Lemma add_part_non_empty sep u part :
  part <> [] -> add_part sep u part = u ++ sep :: part.
Proof. unfold add_part. destruct part; [congruence | reflexivity]. Qed.

Lemma add_part_fragment u f : add_part hash u f = u ++ fragment_tail f.
Proof.
  unfold add_part, fragment_tail. destruct f; cbn [is_empty];
    [now rewrite app_nil_r | reflexivity].
Qed.

Lemma query_char_clean q : forallb query_char q = true -> clean q = true.
Proof.
  apply forallb_weaken. intros c H. unfold query_char in H.
  now apply andb_true_iff in H.
Qed.

Lemma query_char_no_hash q :
  forallb query_char q = true -> has_char hash q = false.
Proof.
  intros H. apply has_char_false. revert H. apply forallb_weaken.
  intros c H. unfold query_char in H. now apply andb_true_iff in H.
Qed.

Lemma well_formed_scheme_clean sch :
  well_formed_scheme sch -> clean sch = true.
Proof.
  intros [-> |(c & pre & _ & _ & Hs & _)]; [reflexivity|].
  revert Hs. apply forallb_weaken, scheme_char_clean.
Qed.

Section Roundtrip.

Variable chk : NetlocChecks.
Variable sp : SplitResult.
Variable q : str.
Hypothesis Hws : well_split chk sp.
Hypothesis Hq : q <> [].
Hypothesis Hqc : forallb query_char q = true.

Lemma after_netloc_clean : clean (after_netloc sp q) = true.
Proof.
  unfold after_netloc, fragment_tail.
  rewrite clean_app, (ws_clean_path _ _ Hws). cbn [andb].
  change (question :: q ++ _) with ([question] ++ q ++
    (if is_empty (fragment sp) then [] else hash :: fragment sp)).
  rewrite !clean_app, (query_char_clean _ Hqc).
  destruct (fragment sp) as [|c r] eqn:E; cbn [is_empty]; [reflexivity|].
  rewrite <- E. change (hash :: fragment sp) with ([hash] ++ fragment sp).
  rewrite clean_app, (ws_clean_fragment _ _ Hws). reflexivity.
Qed.

Lemma after_netloc_splits :
  split_off hash (after_netloc sp q) = (path sp ++ question :: q, fragment sp)
  /\ split_off question (path sp ++ question :: q) = (path sp, q).
Proof.
  pose proof (ws_path _ _ Hws) as Hp.
  assert (Hpq : has_char question (path sp) = false).
  { apply has_char_false. revert Hp. apply forallb_weaken.
    intros c H. now apply andb_true_iff in H. }
  assert (Hph : has_char hash (path sp) = false).
  { apply has_char_false. revert Hp. apply forallb_weaken.
    intros c H. now apply andb_true_iff in H. }
  split; [|now apply split_off_query].
  unfold after_netloc.
  replace (path sp ++ question :: q ++ fragment_tail (fragment sp))
    with ((path sp ++ question :: q) ++ fragment_tail (fragment sp))
    by now rewrite <- app_assoc.
  apply split_off_fragment.
  rewrite has_char_app, Hph. cbn [has_char existsb orb].
  fold (has_char hash q). now rewrite (query_char_no_hash _ Hqc).
Qed.

(** The shape that [urlsplit] takes apart into [sp] with query [q]. *)
Lemma urlsplit_of_shape x :
  split_netloc x = (netloc sp, after_netloc sp q) ->
  clean x = true ->
  (scheme sp = [] -> no_scheme x /\ starts_above_space x) ->
  urlsplit chk (add_scheme (scheme sp) x) = Some (with_query sp q).
Proof.
  intros Hnl Hcx Hnone.
  destruct after_netloc_splits as [Hf Hqs].
  apply (urlsplit_compose chk (scheme sp) x (netloc sp) (after_netloc sp q)
           (path sp ++ question :: q) (path sp) q (fragment sp));
    try assumption.
  - apply (ws_scheme _ _ Hws).
  - intros E. now apply Hnone.
  - destruct (ws_scheme _ _ Hws) as [E|(c & pre & E & Ha & _)].
    + rewrite E. cbn [add_scheme is_empty]. now apply Hnone.
    + rewrite E. cbn [add_scheme is_empty]. right. cbn [app hd].
      now apply alpha_above_space.
  - unfold add_scheme. destruct (scheme sp) as [|c r] eqn:E;
      cbn [is_empty]; [exact Hcx|].
    rewrite <- E. change (scheme sp ++ colon :: x)
      with (scheme sp ++ [colon] ++ x).
    rewrite !clean_app, Hcx, (well_formed_scheme_clean _ (ws_scheme _ _ Hws)).
    reflexivity.
  - apply (ws_netloc_ok _ _ Hws).
Qed.

Lemma after_netloc_head :
  path sp = [] \/ starts_with_slash (path sp) = true ->
  is_delim (hd 0%N (after_netloc sp q)) = true.
Proof.
  unfold after_netloc. intros [-> |H]; [reflexivity|].
  destruct (path sp) as [|c r]; [discriminate|]. cbn [app hd].
  now apply slash_is_delim.
Qed.

Lemma urlsplit_after_slashes :
  path sp = [] \/ starts_with_slash (path sp) = true ->
  urlsplit chk
    (add_scheme (scheme sp)
       (slash :: slash :: netloc sp ++ after_netloc sp q))
  = Some (with_query sp q).
Proof.
  intros Hp. apply urlsplit_of_shape.
  - unfold split_netloc. rewrite N.eqb_refl. cbn [andb].
    apply span_netloc_app; [apply (ws_netloc _ _ Hws)|].
    right. now apply after_netloc_head.
  - change (slash :: slash :: netloc sp ++ after_netloc sp q)
      with ([slash; slash] ++ netloc sp ++ after_netloc sp q).
    rewrite !clean_app, (ws_clean_netloc _ _ Hws), after_netloc_clean.
    reflexivity.
  - intros _. split; [apply no_scheme_head; reflexivity|].
    right. cbn [hd]. reflexivity.
Qed.

Lemma after_netloc_no_slashes :
  starts_with_two_slashes (path sp) = false ->
  split_netloc (after_netloc sp q) = ([], after_netloc sp q).
Proof.
  unfold after_netloc, split_netloc, starts_with_two_slashes.
  destruct (path sp) as [|c1 [|c2 r]]; cbn [app].
  - intros _. destruct (q ++ fragment_tail (fragment sp)); reflexivity.
  - intros _. change (question =? slash)%N with false.
    now rewrite andb_false_r.
  - intros ->. reflexivity.
Qed.

(** [urlsplit] takes the result of [urlunsplit] apart into the same parts. *)
Lemma urlsplit_urlunsplit :
  urlsplit chk (urlunsplit (with_query sp q)) = Some (with_query sp q).
Proof.
  unfold urlunsplit.
  change (scheme (with_query sp q)) with (scheme sp).
  change (netloc (with_query sp q)) with (netloc sp).
  change (path (with_query sp q)) with (path sp).
  change (query (with_query sp q)) with q.
  change (fragment (with_query sp q)) with (fragment sp).
  rewrite add_part_fragment, (add_part_non_empty _ _ _ Hq).
  rewrite !add_scheme_app, <- app_assoc. cbn [app].
  destruct (netloc sp) as [|n nl] eqn:En; cbn [is_empty negb].
  - destruct (starts_with_two_slashes (path sp)) eqn:E2.
    + (* no netloc, a path with two slashes *)
      assert (Hp : path sp = [] \/ starts_with_slash (path sp) = true).
      { right. unfold starts_with_two_slashes in E2.
        destruct (path sp) as [|c1 [|c2 r]]; try discriminate.
        cbn [starts_with_slash]. now apply andb_true_iff in E2. }
      pose proof (urlsplit_after_slashes Hp) as H. rewrite En in H.
      exact H.
    + destruct (negb (is_empty (scheme sp)) && mem (scheme sp) uses_netloc
                && (is_empty (path sp) || starts_with_slash (path sp)))
        eqn:E3.
      * (* no netloc, a scheme that uses one *)
        assert (Hp : path sp = [] \/ starts_with_slash (path sp) = true).
        { apply andb_true_iff in E3. destruct E3 as [_ E3].
          apply orb_true_iff in E3. destruct E3 as [E3|E3];
            [left; destruct (path sp); [reflexivity|discriminate]
            |right; exact E3]. }
        pose proof (urlsplit_after_slashes Hp) as H. rewrite En in H.
        exact H.
      * (* no netloc, nothing added *)
        fold (after_netloc sp q). apply urlsplit_of_shape.
        -- rewrite En. now apply after_netloc_no_slashes.
        -- apply after_netloc_clean.
        -- intros Es. split.
           ++ unfold after_netloc. apply no_scheme_extend.
              now apply (ws_no_scheme _ _ Hws).
           ++ unfold after_netloc.
              destruct (ws_path_head _ _ Hws Es En) as [-> |Hh];
                [right; reflexivity|].
              right. destruct (path sp); [cbn in Hh; lia | exact Hh].
  - (* a netloc *)
    assert (Hne : netloc sp <> []) by (rewrite En; discriminate).
    pose proof (ws_path_slash _ _ Hws Hne) as Hp.
    replace (negb (is_empty (path sp)) && negb (starts_with_slash (path sp)))
      with false
      by (destruct Hp as [-> | ->]; [reflexivity | now rewrite andb_false_r]).
    pose proof (urlsplit_after_slashes Hp) as H. rewrite En in H.
    rewrite <- H. f_equal. f_equal. unfold after_netloc. cbn [app].
    now rewrite <- app_assoc.
Qed.

End Roundtrip.

End UrlSplitting.

Section UrlQuery.
Import Text ImgUrl.

(** *** The rewritten query holds query characters only *)

Lemma query_text_app a b : query_text (a ++ b) <-> query_text a /\ query_text b.
Proof. unfold query_text. rewrite forallb_app. apply andb_true_iff. Qed.

Lemma query_text_cons c s :
  query_text (c :: s) <-> query_char c = true /\ query_text s.
Proof. unfold query_text. cbn [forallb]. apply andb_true_iff. Qed.

Lemma split_query_text sep s :
  query_text s -> Forall query_text (split sep s).
Proof.
  induction s as [|c r IH]; intros H.
  - repeat constructor.
  - apply query_text_cons in H. destruct H as [Hc Hr].
    specialize (IH Hr). cbn [split].
    destruct (c =? sep)%N; [constructor; [reflexivity | exact IH]|].
    destruct (split sep r) as [|h t].
    + repeat constructor. apply query_text_cons. split; [exact Hc|reflexivity].
    + inversion IH as [|? ? Hh Ht]; subst. constructor; [|exact Ht].
      apply query_text_cons. split; assumption.
Qed.

Lemma join_query_text parts :
  Forall query_text parts -> query_text (join amp parts).
Proof.
  induction 1 as [|x rest Hx Hrest IH]; [reflexivity|].
  destruct rest as [|y rest']; [exact Hx|].
  change (join amp (x :: y :: rest')) with (x ++ amp :: join amp (y :: rest')).
  apply query_text_app. split; [exact Hx|].
  apply query_text_cons. split; [reflexivity | exact IH].
Qed.

Lemma query_parts_text q : query_text q -> Forall query_text (query_parts q).
Proof.
  intros H. unfold query_parts. destruct q as [|c r]; [constructor|].
  apply Forall_forall. intros x Hx. apply filter_In in Hx.
  destruct Hx as [Hx _].
  pose proof (split_query_text amp _ H) as Hall.
  rewrite Forall_forall in Hall. now apply Hall.
Qed.

Lemma replace_first_text test f parts parts' :
  (forall x, query_text x -> query_text (f x)) ->
  Forall query_text parts ->
  replace_first test f parts = Some parts' ->
  Forall query_text parts' /\ exists x, In (f x) parts'.
Proof.
  intros Hf Hall. revert parts'.
  induction Hall as [|x rest Hx Hrest IH]; intros parts'; cbn [replace_first];
    [discriminate|].
  destruct (test x).
  - intros [= <-]. split; [constructor; [now apply Hf | exact Hrest]|].
    exists x. left. reflexivity.
  - destruct (replace_first test f rest) as [rest'|]; [|discriminate].
    intros [= <-]. destruct (IH rest' eq_refl) as [H1 [y Hy]].
    split; [constructor; assumption|]. exists y. right. exact Hy.
Qed.

Lemma drop_while_text g s : query_text s -> query_text (drop_while g s).
Proof.
  induction s as [|c r IH]; intros H; [exact H|].
  cbn [drop_while]. destruct (g c); [|exact H].
  apply IH. now apply query_text_cons in H.
Qed.

Lemma skipn_text n : forall s, query_text s -> query_text (skipn n s).
Proof.
  induction n as [|n IH]; intros s H; [exact H|].
  destruct s as [|c r]; [exact H|]. cbn [skipn]. apply IH.
  now apply query_text_cons in H.
Qed.

Lemma rev_text s : query_text s -> query_text (rev s).
Proof.
  unfold query_text. rewrite !forallb_forall. intros H c Hc.
  apply H. now apply in_rev.
Qed.

Lemma sub_first_text fmt seg :
  query_text fmt -> query_text seg ->
  query_text (sub_first (fun _ => format_prefix ++ fmt) seg).
Proof.
  intros Hfmt.
  assert (Ht : query_text (format_prefix ++ fmt))
    by (apply query_text_app; split; [reflexivity | exact Hfmt]).
  induction seg as [|c r IH]; intros Hseg.
  - cbn [sub_first]. destruct (startswith format_prefix []); [|reflexivity].
    apply query_text_app. split; [exact Ht|].
    apply drop_while_text, skipn_text. reflexivity.
  - cbn [sub_first]. destruct (startswith format_prefix (c :: r)).
    + apply query_text_app. split; [exact Ht|].
      now apply drop_while_text, skipn_text.
    + apply query_text_cons in Hseg. destruct Hseg as [Hc Hr].
      apply query_text_cons. split; [exact Hc | now apply IH].
Qed.

(** A format without a backslash is put in as it is. *)
Lemma sub_format_literal lib fmt seg :
  has_char backslash fmt = false ->
  sub_format lib fmt seg
  = Some (sub_first (fun _ => format_prefix ++ fmt) seg).
Proof.
  intros H. unfold sub_format, replacement.
  rewrite has_char_app, H. reflexivity.
Qed.

Lemma set_format_segment_literal lib fmt seg :
  has_char backslash fmt = false ->
  set_format_segment lib fmt seg
  = Some (if includes seg format_prefix
          then sub_first (fun _ => format_prefix ++ fmt) seg
          else rstrip_slash seg ++ format_prefix ++ fmt).
Proof.
  intros H. unfold set_format_segment. rewrite (sub_format_literal _ _ _ H).
  now destruct (includes seg format_prefix).
Qed.

Lemma set_format_segment_text lib fmt seg seg' :
  has_char backslash fmt = false ->
  query_text fmt -> query_text seg ->
  set_format_segment lib fmt seg = Some seg' -> query_text seg'.
Proof.
  intros Hb Hfmt Hseg. rewrite (set_format_segment_literal _ _ _ Hb).
  intros E. apply (f_equal (fun o => match o with Some x => x | None => [] end))
    in E. rewrite <- E. clear E.
  destruct (includes seg format_prefix); [now apply sub_first_text|].
  apply query_text_app. split.
  - unfold rstrip_slash. now apply rev_text, drop_while_text, rev_text.
  - apply query_text_app. split; [reflexivity | exact Hfmt].
Qed.

Lemma find_part_some test parts : forall pre seg post,
  find_part test parts = Some (pre, seg, post) ->
  parts = pre ++ seg :: post /\ test seg = true.
Proof.
  induction parts as [|p rest IH]; intros pre seg post; cbn [find_part];
    [discriminate|].
  destruct (test p) eqn:E.
  - intros [= <- <- <-]. now split.
  - destruct (find_part test rest) as [[[pre' seg'] post']|]; [|discriminate].
    intros [= <- <- <-]. destruct (IH _ _ _ eq_refl) as [-> Hs]. now split.
Qed.

(** With a format that holds no backslash the format step returns: a part
    is added at the end, or the first [imageMogr2] part gets its new text. *)
Lemma format_parts_cases lib f parts :
  has_char backslash f = false ->
  exists parts',
    format_parts lib f parts = Some parts' /\
    (parts' = parts ++ [py "imageMogr2/format/" ++ f]
     \/ exists pre seg post seg',
          parts = pre ++ seg :: post /\
          startswith (py "imageMogr2") seg = true /\
          set_format_segment lib f seg = Some seg' /\
          parts' = pre ++ seg' :: post).
Proof.
  intros Hb. unfold format_parts.
  destruct (find_part _ parts) as [[[pre seg] post]|] eqn:E.
  - destruct (find_part_some _ _ _ _ _ E) as [-> Hs].
    rewrite (set_format_segment_literal _ _ _ Hb).
    eexists. split; [reflexivity|]. right.
    exists pre, seg, post. eexists. split; [reflexivity|].
    split; [exact Hs|].
    split; [apply (set_format_segment_literal _ _ _ Hb) | reflexivity].
  - eexists. split; [reflexivity | now left].
Qed.

Lemma set_format_text lib q fmt :
  has_char backslash fmt = false ->
  query_text fmt -> query_text q ->
  exists q1, _set_format_in_query lib q fmt = Some q1 /\ query_text q1.
Proof.
  intros Hb Hfmt Hq. unfold _set_format_in_query.
  pose proof (query_parts_text q Hq) as Hparts.
  destruct (format_parts_cases lib fmt (query_parts q) Hb)
    as (parts' & -> & Hcases).
  eexists. split; [reflexivity|]. apply join_query_text.
  destruct Hcases as [-> | (pre & seg & post & seg' & E & _ & Hseg & ->)].
  - apply Forall_app. split; [exact Hparts|]. constructor; [|constructor].
    apply query_text_app. split; [reflexivity | exact Hfmt].
  - rewrite E in Hparts. apply Forall_app in Hparts.
    destruct Hparts as [H1 H2]. inversion H2 as [|? ? Hx Hpost]; subst.
    apply Forall_app. split; [exact H1|]. constructor; [|exact Hpost].
    exact (set_format_segment_text _ _ _ _ Hb Hfmt Hx Hseg).
Qed.

Lemma quote_byte_text b : query_text (quote_byte b).
Proof.
  unfold quote_byte. destruct (always_safe b) eqn:E.
  - apply query_text_cons. split; [now apply always_safe_query_char|].
    reflexivity.
  - apply query_text_cons. split; [reflexivity|].
    apply query_text_cons. split; [apply hex_digit_query_char|].
    apply query_text_cons. split; [apply hex_digit_query_char|reflexivity].
Qed.

Lemma quote_text s quoted : quote s = Some quoted -> query_text quoted.
Proof.
  unfold quote. destruct (utf8_encode s) as [bs|]; [|discriminate].
  intros [= <-]. induction bs as [|b r IH]; [reflexivity|].
  cbn [flat_map]. apply query_text_app. split;
    [apply quote_byte_text | exact IH].
Qed.

Lemma join_non_empty parts x :
  In x parts -> x <> [] -> join amp parts <> [].
Proof.
  induction parts as [|y rest IH]; [intros []|].
  intros Hin Hx. destruct rest as [|z rest'].
  - destruct Hin as [->|[]]. exact Hx.
  - change (join amp (y :: z :: rest'))
      with (y ++ amp :: join amp (z :: rest')).
    destruct y; discriminate.
Qed.

Lemma set_attname_text q name q2 :
  query_text q ->
  _set_attname_in_query q name = Some q2 ->
  query_text q2 /\ q2 <> [].
Proof.
  intros Hq. unfold _set_attname_in_query.
  destruct (quote name) as [quoted|] eqn:Eq; [|discriminate].
  intros [= <-].
  assert (Henc : query_text (py "attname=" ++ quoted)).
  { apply query_text_app. split; [reflexivity | now apply quote_text in Eq]. }
  assert (Hne : py "attname=" ++ quoted <> []) by discriminate.
  pose proof (query_parts_text q Hq) as Hparts.
  destruct (replace_first _ _ (query_parts q)) as [parts'|] eqn:E.
  - destruct (replace_first_text _ _ _ _ (fun x _ => Henc) Hparts E)
      as [Hall [x Hx]].
    split; [now apply join_query_text | now apply (join_non_empty _ _ Hx)].
  - split.
    + apply join_query_text, Forall_app. split; [exact Hparts|].
      constructor; [exact Henc | constructor].
    + apply (join_non_empty _ (py "attname=" ++ quoted));
        [apply in_or_app; right; left; reflexivity | exact Hne].
Qed.

Lemma normalize_fmt_text fmt f :
  _normalize_fmt fmt = Some f ->
  (f = py "jpg" \/ f = py "png") /\ query_text f.
Proof.
  unfold _normalize_fmt.
  destruct (eqb (strip (lower fmt)) (py "jpeg")).
  - intros [= <-]. split; [left; reflexivity | reflexivity].
  - destruct (eqb (strip (lower fmt)) (py "jpg")) eqn:E1; cbn [orb].
    + intros [= <-]. apply eqb_eq in E1. rewrite E1.
      split; [left; reflexivity | reflexivity].
    + destruct (eqb (strip (lower fmt)) (py "png")) eqn:E2; [|discriminate].
      intros [= <-]. apply eqb_eq in E2. rewrite E2.
      split; [right; reflexivity | reflexivity].
Qed.

(** On parts that pass [legacy_exact], both versions of [urlunsplit] build
    the same URL. *)
Lemma urlunsplit_legacy_same c :
  legacy_exact c = true -> urlunsplit_legacy c = urlunsplit c.
Proof.
  unfold urlunsplit_legacy, urlunsplit, legacy_exact.
  destruct (netloc c) as [|n nl]; [|reflexivity].
  cbn [is_empty negb orb]. intros H. apply andb_true_iff in H.
  destruct H as [H1 H2]. apply negb_true_iff in H1. rewrite H1.
  destruct (is_empty (scheme c)), (mem (scheme c) uses_netloc),
    (is_empty (path c)), (starts_with_slash (path c));
    cbn in H2 |- *; try discriminate; reflexivity.
Qed.

Lemma urlunsplit_of_exact lib c :
  before_3_12_4 lib = false \/ legacy_exact c = true ->
  urlunsplit_of lib c = urlunsplit c.
Proof.
  unfold urlunsplit_of. intros [-> | H]; [reflexivity|].
  destruct (before_3_12_4 lib); [now apply urlunsplit_legacy_same|].
  reflexivity.
Qed.

(** What [convert_url] returns, and how the result splits again. *)
Lemma convert_url_result lib url fmt filename f sp quoted :
  _normalize_fmt fmt = Some f ->
  urlsplit (checks lib) url = Some sp ->
  quote (expect_name (_derive_basename_from_path (path sp)) f filename)
  = Some quoted ->
  before_3_12_4 lib = false \/ legacy_exact sp = true ->
  exists q1 q2,
    _set_format_in_query lib (query sp) f = Some q1 /\
    _set_attname_in_query q1
      (expect_name (_derive_basename_from_path (path sp)) f filename)
    = Some q2 /\
    convert_url lib url fmt filename = Some (urlunsplit (with_query sp q2)) /\
    urlsplit (checks lib) (urlunsplit (with_query sp q2))
    = Some (with_query sp q2).
Proof.
  intros Hfmt Hsplit Hquote Hlib.
  pose proof (urlsplit_well_split _ _ _ Hsplit) as Hws.
  destruct (normalize_fmt_text _ _ Hfmt) as [Hjp Hf].
  assert (Hb : has_char backslash f = false)
    by (destruct Hjp as [-> | ->]; reflexivity).
  set (name := expect_name (_derive_basename_from_path (path sp)) f filename)
    in *.
  destruct (set_format_text lib (query sp) f Hb Hf (ws_query _ _ Hws))
    as (q1 & Eq1 & Hq1).
  destruct (_set_attname_in_query q1 name) as [q2|] eqn:Eq2.
  2:{ unfold _set_attname_in_query in Eq2. rewrite Hquote in Eq2.
      discriminate. }
  destruct (set_attname_text _ _ _ Hq1 Eq2) as [Hq2 Hne].
  exists q1, q2. split; [exact Eq1|]. split; [exact Eq2|]. split.
  - unfold convert_url. rewrite Hfmt, Hsplit. fold name.
    rewrite Eq1, Eq2. f_equal.
    apply (urlunsplit_of_exact lib (with_query sp q2)).
    destruct Hlib as [H | H]; [now left | right; exact H].
  - now apply urlsplit_urlunsplit.
Qed.




(** The URL the witness is about, spelled out. *)
Example demo_to_png :
  to_png current_library demo_url None
  = Some (demo_url
          ++ py "?imageMogr2/format/png&attname=1040g3k031kssdadd30005oujaj4ptcu7pvcpuh0.png").
Proof. vm_compute. reflexivity. Qed.

(** Where the two versions of [urlunsplit] differ: without a netloc, the
    older one turns the relative path of [http:x] into [/x]. *)
Example legacy_urlunsplit_differs :
  urlsplit no_checks (py "http:x") = Some (mkSplit (py "http") [] (py "x") [] [])
  /\ urlunsplit (mkSplit (py "http") [] (py "x") [] []) = py "http:x"
  /\ urlunsplit_legacy (mkSplit (py "http") [] (py "x") [] []) = py "http:///x".
Proof. repeat split; vm_compute; reflexivity. Qed.

End UrlQuery.

(* ------------------------------------------------------------------ *)
(** ** More on the scroll loops                                        *)
(* ------------------------------------------------------------------ *)

Section ScrollMore.
Import Scroll.

Lemma loop_rounds_ge thr page fuel : forall st,
  rounds st <= rounds (snd (loop thr page fuel st)).
Proof.
  induction fuel as [|fuel IH]; intros st; cbn [loop]; [cbn; lia|].
  destruct (page (rounds st)) as [c n| |c|c]; cbn [snd]; try lia.
  destruct (heights_equal st c n).
  - destruct (thr <=? _); [cbn; lia|].
    eapply Nat.le_trans; [|apply IH]. cbn. lia.
  - eapply Nat.le_trans; [|apply IH]. cbn. lia.
Qed.

Lemma loop_stopped_stays thr page m k :
  fst (loop thr page m init) <> BudgetExhausted ->
  loop thr page (m + k) init = loop thr page m init.
Proof.
  intros H. rewrite loop_app.
  destruct (loop thr page m init) as [[| |] st]; try reflexivity.
  now contradiction H.
Qed.

(** X1.  A run that ended by [break] or by an exception is not changed by a
    larger round budget, in either loop. *)
Theorem scroll_budget_irrelevant_once_stopped (page : Page) (m k : nat) :
  (fst (scroll_and_load_comments page m) <> BudgetExhausted ->
   scroll_and_load_comments page (m + k) = scroll_and_load_comments page m)
  /\ (fst (scroll_and_expand page m) <> BudgetExhausted ->
      scroll_and_expand page (m + k) = scroll_and_expand page m).
Proof. split; apply loop_stopped_stays. Qed.

Lemma scroll_budget_irrelevant_once_stopped_witness :
  scroll_and_load_comments (simulated grow_then_flat) (4 + 26)
  = scroll_and_load_comments (simulated grow_then_flat) 4.
Proof.
  apply (scroll_budget_irrelevant_once_stopped (simulated grow_then_flat) 4 26).
  discriminate.
Defined.

Lemma loop_threshold_mono thr1 thr2 page fuel : forall st,
  thr1 <= thr2 ->
  rounds (snd (loop thr1 page fuel st)) <= rounds (snd (loop thr2 page fuel st)).
Proof.
  induction fuel as [|fuel IH]; intros st Hle; cbn [loop]; [lia|].
  destruct (page (rounds st)) as [c n| |c|c]; try lia.
  destruct (heights_equal st c n); [|now apply IH].
  cbn [stable_rounds].
  destruct (Nat.leb_spec thr1 (S (stable_rounds st)));
    destruct (Nat.leb_spec thr2 (S (stable_rounds st))); try lia.
  - cbn [snd].
    apply (loop_rounds_ge thr2 page fuel
             (mkState (last_height st) (S (stable_rounds st)) (S (rounds st)))).
  - now apply IH.
Qed.

(** X2.  On the same page and with the same budget, the loop of the image
    scraper (two stable rounds) never carries out more rounds than the loop of
    the comment scraper (three stable rounds). *)
Theorem scroll_and_expand_stops_no_later (page : Page) (max_rounds : nat) :
  rounds (snd (scroll_and_expand page max_rounds))
  <= rounds (snd (scroll_and_load_comments page max_rounds)).
Proof. apply loop_threshold_mono. lia. Qed.

Lemma first_round_changes obs :
  fst (obs 0) <> 0%Z \/ snd (obs 0) <> 0%Z -> unchanged obs 0 = false.
Proof.
  unfold unchanged. cbn [prev_height]. intros H.
  destruct (Z.eqb_spec (snd (obs 0)) (fst (obs 0))) as [E|E]; [|reflexivity].
  destruct (Z.eqb_spec (fst (obs 0)) 0) as [E0|E0]; [|reflexivity].
  lia.
Qed.

(** X3.  [last_height] starts at 0, so on a page that is not of height 0 the
    first round only records the height: a stop by stability comes after round
    4 at the earliest in the comment scraper, after round 3 in the image
    scraper. *)
Theorem scroll_first_round_never_stable (obs : nat -> Z * Z)
        (max_rounds : nat) (st : ScrollState) :
  fst (obs 0) <> 0%Z \/ snd (obs 0) <> 0%Z ->
  (scroll_and_load_comments (observed obs) max_rounds = (Converged, st) ->
   4 <= rounds st)
  /\ (scroll_and_expand (observed obs) max_rounds = (Converged, st) ->
      3 <= rounds st).
Proof.
  intros H0. pose proof (first_round_changes obs H0) as Hu.
  split; intros Hc; apply converged_iff in Hc; try lia;
    destruct Hc as (_ & [Hk Hw] & _);
    destruct (Nat.eq_dec (rounds st - 0) (rounds st)) as [_|]; try lia.
  - destruct (Nat.le_gt_cases 4 (rounds st)) as [|Hlt]; [assumption|].
    rewrite (Hw 0) in Hu by lia. discriminate.
  - destruct (Nat.le_gt_cases 3 (rounds st)) as [|Hlt]; [assumption|].
    rewrite (Hw 0) in Hu by lia. discriminate.
Qed.

Lemma scroll_first_round_never_stable_witness :
  4 <= rounds (mkState 250 3 4).
Proof.
  apply (scroll_first_round_never_stable (heights_of grow_then_flat) 30
           (mkState 250 3 4)); [left; discriminate | reflexivity].
Defined.

(** X4.  A page that stays at a height other than 0 costs exactly four rounds
    in the comment scraper and three in the image scraper, whatever the budget
    from there on. *)
Theorem scroll_static_page_cost (h : Z) (max_rounds : nat) :
  h <> 0%Z ->
  (4 <= max_rounds ->
   scroll_and_load_comments (static_page h) max_rounds
   = (Converged, mkState h 3 4))
  /\ (3 <= max_rounds ->
      scroll_and_expand (static_page h) max_rounds
      = (Converged, mkState h 2 3)).
Proof.
  intros Hh.
  assert (E0 : (h =? 0)%Z = false) by now apply Z.eqb_neq.
  split; intros Hm.
  - destruct max_rounds as [|[|[|[|k]]]]; try lia.
    unfold scroll_and_load_comments, static_page, observed.
    repeat (cbn -[Z.eqb heights_equal]; unfold heights_equal;
            cbn -[Z.eqb heights_equal]; rewrite ?Z.eqb_refl, ?E0).
    reflexivity.
  - destruct max_rounds as [|[|[|k]]]; try lia.
    unfold scroll_and_expand, static_page, observed.
    repeat (cbn -[Z.eqb heights_equal]; unfold heights_equal;
            cbn -[Z.eqb heights_equal]; rewrite ?Z.eqb_refl, ?E0).
    reflexivity.
Qed.

Lemma scroll_static_page_cost_witness :
  scroll_and_load_comments (static_page 900) 30 = (Converged, mkState 900 3 4).
Proof.
  apply (scroll_static_page_cost 900 30); [discriminate | lia].
Defined.

Lemma window_reads obs c k j :
  stable_window obs c k -> k - c <= j < k ->
  obs j = (prev_height obs (S j), prev_height obs (S j)) /\
  prev_height obs j = prev_height obs (S j).
Proof.
  intros [_ Hw] Hj. specialize (Hw j Hj). unfold unchanged in Hw.
  apply andb_true_iff in Hw. destruct Hw as [H1 H2].
  apply Z.eqb_eq in H1, H2. cbn [prev_height].
  destruct (obs j) as [a b]. cbn [fst snd] in *. subst. split; reflexivity.
Qed.

(** X5.  When the comment scraper stops by stability, both height reads of
    each of its last three rounds gave [last_height]: six equal reads in a
    row. *)
Theorem scroll_stop_means_equal_reads (obs : nat -> Z * Z) (max_rounds : nat)
        (st : ScrollState) (j : nat) :
  scroll_and_load_comments (observed obs) max_rounds = (Converged, st) ->
  rounds st - 3 <= j < rounds st ->
  obs j = (last_height st, last_height st).
Proof.
  intros Hc Hj. apply converged_iff in Hc; [|lia].
  destruct Hc as (_ & Hw & _ & _ & Hl). rewrite Hl.
  destruct Hw as [Hk Hw'].
  assert (Hw : stable_window obs 3 (rounds st)) by (split; assumption).
  destruct (window_reads obs 3 (rounds st) (rounds st - 1) Hw) as [E1 P1];
    [lia|].
  destruct (window_reads obs 3 (rounds st) (rounds st - 2) Hw) as [E2 P2];
    [lia|].
  destruct (window_reads obs 3 (rounds st) (rounds st - 3) Hw) as [E3 _];
    [lia|].
  replace (S (rounds st - 1)) with (rounds st) in * by lia.
  replace (S (rounds st - 2)) with (rounds st - 1) in * by lia.
  replace (S (rounds st - 3)) with (rounds st - 2) in * by lia.
  assert (Hcases : j = rounds st - 1 \/ j = rounds st - 2 \/ j = rounds st - 3)
    by lia.
  destruct Hcases as [-> | [-> | ->]]; congruence.
Qed.

Lemma scroll_stop_means_equal_reads_witness :
  heights_of grow_then_flat 2 = (250, 250)%Z.
Proof.
  apply (scroll_stop_means_equal_reads (heights_of grow_then_flat) 30
           (mkState 250 3 4) 2); [reflexivity | cbn; lia].
Defined.

End ScrollMore.

(* ------------------------------------------------------------------ *)
(** ** More on the extraction script                                   *)
(* ------------------------------------------------------------------ *)

Section StripFacts.
Import Text.

Lemma drop_while_head f s :
  drop_while f s = [] \/ f (hd 0%N (drop_while f s)) = false.
Proof.
  induction s as [|c r IH]; cbn; [left; reflexivity|].
  destruct (f c) eqn:E; [exact IH | right; exact E].
Qed.

Lemma drop_while_last f s d :
  drop_while f s <> [] -> last (drop_while f s) d = last s d.
Proof.
  induction s as [|c r IH]; cbn [drop_while]; [congruence|].
  destruct (f c) eqn:E; [|reflexivity].
  intros H. rewrite (IH H). destruct r; [now contradiction H | reflexivity].
Qed.

Lemma drop_while_split f s :
  exists pre, s = pre ++ drop_while f s /\ forallb f pre = true.
Proof.
  induction s as [|c r [pre [E H]]]; cbn [drop_while]; [now exists []|].
  destruct (f c) eqn:Ec.
  - exists (c :: pre). cbn. rewrite Ec, H. split; [now f_equal | reflexivity].
  - now exists [].
Qed.

Lemma forallb_drop_while P f s :
  forallb P s = true -> forallb P (drop_while f s) = true.
Proof.
  intros H. destruct (drop_while_split f s) as [pre [E _]].
  rewrite E, forallb_app in H. now apply andb_true_iff in H.
Qed.

Lemma forallb_rev (P : N -> bool) s : forallb P (rev s) = forallb P s.
Proof.
  induction s as [|c r IH]; [reflexivity|].
  cbn. rewrite forallb_app, IH. cbn. rewrite andb_true_r. apply andb_comm.
Qed.

Lemma forallb_strip_with P f s :
  forallb P s = true -> forallb P (strip_with f s) = true.
Proof.
  intros H. unfold strip_with. rewrite forallb_rev.
  apply forallb_drop_while. rewrite forallb_rev.
  now apply forallb_drop_while.
Qed.

Lemma strip_with_ends f s :
  f 0%N = false ->
  f (hd 0%N (strip_with f s)) = false /\
  f (last (strip_with f s) 0%N) = false.
Proof.
  intros H0. unfold strip_with.
  destruct (drop_while_head f (rev (drop_while f s))) as [E|E].
  - rewrite E. cbn. now split.
  - split.
    + rewrite hd_rev.
      destruct (drop_while f (rev (drop_while f s))) eqn:Ew;
        [cbn; exact H0|].
      rewrite <- Ew, drop_while_last by (rewrite Ew; discriminate).
      rewrite <- hd_rev, rev_involutive.
      destruct (drop_while_head f s) as [Eu|Eu]; [|exact Eu].
      rewrite Eu in Ew. discriminate.
    + rewrite <- hd_rev, rev_involutive. exact E.
Qed.

Lemma strip_with_idem f s :
  f 0%N = false -> strip_with f (strip_with f s) = strip_with f s.
Proof.
  intros H0. destruct (strip_with_ends f s H0).
  now apply strip_with_unpadded.
Qed.

Lemma trim_idem s : trim (trim s) = trim s.
Proof. now apply strip_with_idem. Qed.

Lemma strip_idem s : strip (strip s) = strip s.
Proof. now apply strip_with_idem. Qed.

End StripFacts.

Section ExtractMore.
Import Text Extract Scrape.

Lemma Subseq_In {A : Type} (sub l : list A) x :
  Subseq sub l -> In x sub -> In x l.
Proof.
  induction 1 as [|y sub l _ IH|y sub l _ IH]; cbn; intros H.
  - exact H.
  - destruct H; [now left | right; now apply IH].
  - right. now apply IH.
Qed.

Lemma parse_elements_In clock els : forall i c,
  In c (parse_elements clock i els) ->
  exists k el, nth_error els k = Some el /\
               parse_element clock (i + k) el = Some c.
Proof.
  induction els as [|e rest IH]; intros i c; cbn [parse_elements];
    [intros []|].
  destruct (parse_element clock i e) as [c0|] eqn:E.
  - intros [<- | H].
    + exists 0, e. rewrite Nat.add_0_r. now split.
    + destruct (IH _ _ H) as (k & el & Hk & Hp).
      exists (S k), el. rewrite Nat.add_succ_r. now split.
  - intros H. destruct (IH _ _ H) as (k & el & Hk & Hp).
    exists (S k), el. rewrite Nat.add_succ_r. now split.
Qed.

Lemma scrape_comments_from s max_scrolls c :
  In c (scrape_comments s max_scrolls) ->
  exists k document,
    dom_after s k = Some document /\
    In c (fst (extract_script (clock s) document)).
Proof.
  unfold scrape_comments, scrape_body, bind, guard, scroll_step.
  destruct (setup_raises s); [intros []|].
  destruct (analysis_raises s); [intros []|].
  destruct (Scroll.scroll_and_load_comments (page s) max_scrolls)
    as [[| |] st]; try (intros []);
    (destruct (close_raises s); [intros []|]);
    unfold extract_comments;
    (destruct (dom_after s (Scroll.rounds st)) as [d|] eqn:Ed; [|intros []]);
    cbv zeta; (destruct (existsb _ _); [intros []|]);
    intros H; now exists (Scroll.rounds st), d.
Qed.

Lemma extract_script_comments clock document :
  fst (extract_script clock document)
  = comments_of clock (fst (find_comment_elements document)).
Proof.
  unfold extract_script.
  now destruct (find_comment_elements document).
Qed.

(** X6.  Whatever the browser does, every record that [scrape_comments]
    returns was read from one of the candidate elements of the document the
    script ran on: its content is the trimmed text of that element, it is
    longer than three characters, it passed the skip test (so it holds none of
    the four deny-listed phrases), trimming it again changes nothing, and its
    class, tag and id are those of the element. *)
Theorem scraped_record_invariants (s : Session) (max_scrolls : nat)
        (c : Comment) :
  In c (scrape_comments s max_scrolls) ->
  3 < length (content c)
  /\ skipped (content c) = false
  /\ trim (content c) = content c
  /\ exists k document el,
       dom_after s k = Some document /\
       In el (fst (find_comment_elements document)) /\
       content c = trim (textContent el) /\
       element_class c = className el /\
       element_tag c = tagName el /\
       element_id c = elem_id el.
Proof.
  intros H. destruct (scrape_comments_from _ _ _ H) as (k & d & Hd & Hc).
  rewrite extract_script_comments in Hc. unfold comments_of, uniqueComments in Hc.
  pose proof (proj1 (unique_from_In _ _ _) Hc) as (b & a & _ & Hlong & _).
  pose proof (Subseq_In _ _ _ (unique_from_subseq _ _) Hc) as Hp.
  destruct (parse_elements_In _ _ _ _ Hp) as (j & el & Hj & He).
  unfold parse_element in He.
  destruct (skipped (trim (textContent el))) eqn:Hs; [discriminate|].
  injection He as <-. cbn [content element_class element_tag element_id].
  split; [|split; [exact Hs|split; [apply trim_idem|]]].
  - unfold long in Hlong. cbn [content] in Hlong.
    now apply Nat.ltb_lt in Hlong.
  - exists k, d, el. apply nth_error_In in Hj. now repeat split.
Qed.

Lemma scraped_record_invariants_witness :
  3 < length (js "nice one").
Proof.
  apply (scraped_record_invariants calm_session 30
           (mkComment (0, 0%N) (js "nice one") [] [] (Finite 0) []
                      (js "DIV") [] 0%N)).
  left. vm_compute. reflexivity.
Defined.

Lemma parse_elements_sorted clock els : forall i,
  StronglySorted lt (map index_of (parse_elements clock i els)) /\
  Forall (fun n => i <= n) (map index_of (parse_elements clock i els)).
Proof.
  induction els as [|e rest IH]; intros i; cbn [parse_elements].
  - split; constructor.
  - destruct (IH (S i)) as [Hs Hf].
    assert (Hf' : Forall (fun n => i <= n)
                    (map index_of (parse_elements clock (S i) rest))).
    { eapply Forall_impl; [|exact Hf]. cbn. intros; lia. }
    unfold parse_element.
    destruct (skipped (trim (textContent e))); [now split|].
    cbn [map]. split.
    + constructor; [exact Hs|].
      eapply Forall_impl; [|exact Hf]. unfold index_of. cbn. intros; lia.
    + constructor; [unfold index_of; cbn; lia | exact Hf'].
Qed.

Lemma Subseq_sorted (sub l : list Comment) :
  Subseq sub l ->
  StronglySorted lt (map index_of l) -> StronglySorted lt (map index_of sub).
Proof.
  induction 1 as [|y sub l Hsub IH|y sub l Hsub IH]; cbn [map]; intros Hs.
  - constructor.
  - inversion Hs as [|? ? Hs' Hf]; subst. constructor; [now apply IH|].
    rewrite Forall_forall in *. intros n Hn.
    apply in_map_iff in Hn. destruct Hn as (c & <- & Hc).
    apply Hf. apply in_map. eapply Subseq_In; eassumption.
  - inversion Hs; subst. now apply IH.
Qed.

Lemma sorted_NoDup l : StronglySorted lt l -> NoDup l.
Proof.
  induction 1 as [|x l _ IH Hf]; constructor; [|exact IH].
  intros Hin. rewrite Forall_forall in Hf. specialize (Hf _ Hin). lia.
Qed.

Lemma comments_of_sorted clock els :
  StronglySorted lt (map index_of (comments_of clock els)).
Proof.
  unfold comments_of, uniqueComments.
  eapply Subseq_sorted; [apply unique_from_subseq|].
  apply parse_elements_sorted.
Qed.

(** X7.  The records that [scrape_comments] returns carry strictly increasing
    indexes in their ids, so no two records share an id, whatever the clock
    reads. *)
Theorem scraped_ids_distinct (s : Session) (max_scrolls : nat) :
  StronglySorted lt (map index_of (scrape_comments s max_scrolls))
  /\ NoDup (map id (scrape_comments s max_scrolls)).
Proof.
  assert (Hs : StronglySorted lt (map index_of (scrape_comments s max_scrolls))).
  { unfold scrape_comments, scrape_body, bind, guard, scroll_step.
    destruct (setup_raises s); [constructor|].
    destruct (analysis_raises s); [constructor|].
    destruct (Scroll.scroll_and_load_comments (page s) max_scrolls)
      as [[| |] st]; try constructor;
      (destruct (close_raises s); [constructor|]);
      unfold extract_comments;
      (destruct (dom_after s (Scroll.rounds st)) as [d|]; [|constructor]);
      cbv zeta; (destruct (existsb _ _); [constructor|]);
      rewrite extract_script_comments; apply comments_of_sorted. }
  split; [exact Hs|].
  apply sorted_NoDup in Hs.
  unfold index_of in Hs. rewrite <- (map_map id fst) in Hs.
  now apply NoDup_map_inv in Hs.
Qed.

Lemma unique_from_fixed l : forall seen,
  Forall (fun c => long c = true) l ->
  NoDup (map contentKey l) ->
  (forall k, In k (map contentKey l) -> ~ In k seen) ->
  unique_from seen l = l.
Proof.
  induction l as [|x rest IH]; intros seen Hl Hn Hs; [reflexivity|].
  rewrite unique_from_step.
  inversion Hl as [|? ? Hx Hl']; subst.
  inversion Hn as [|? ? Hnx Hn']; subst.
  assert (Hm : mem (contentKey x) seen = false).
  { apply mem_false_In. apply Hs. now left. }
  rewrite Hm, Hx. cbn [negb andb]. f_equal.
  apply IH; [assumption..|].
  intros k Hk [<- | Hin]; [now apply Hnx|].
  apply (Hs k); [now right | exact Hin].
Qed.

(** X8.  De-duplicating a de-duplicated list changes nothing. *)
Theorem uniqueComments_idempotent (comments : list Comment) :
  uniqueComments (uniqueComments comments) = uniqueComments comments.
Proof.
  unfold uniqueComments at 1. apply unique_from_fixed.
  - apply Forall_forall. intros c Hc.
    apply unique_from_In in Hc. now destruct Hc as (_ & _ & _ & H & _).
  - apply unique_from_keys.
  - intros k _ [].
Qed.

Lemma take_digits_split s :
  exists rest,
    s = take_digits s ++ rest /\
    forallb is_digit (take_digits s) = true /\
    is_digit (hd 0%N rest) = false.
Proof.
  induction s as [|c r (rest & E & Hd & Hr)]; cbn [take_digits].
  - now exists [].
  - destruct (is_digit c) eqn:Ec.
    + exists rest. cbn. rewrite Ec, Hd. split; [now f_equal | now split].
    + exists (c :: r). now repeat split.
Qed.

Lemma match_digits_none s :
  match_digits s = None <-> forallb not_digit s = true.
Proof.
  unfold match_digits.
  destruct (drop_while_split (fun c => negb (is_digit c)) s) as (pre & E & Hp).
  destruct (drop_while_head (fun c => negb (is_digit c)) s) as [Ed|Ed].
  - rewrite Ed in *. rewrite app_nil_r in E. subst pre. now split.
  - destruct (drop_while _ s) as [|d ds] eqn:Edw; [now split|].
    split; [discriminate|]. intros H.
    rewrite E, forallb_app in H. apply andb_true_iff in H.
    destruct H as [_ H]. cbn in H, Ed. unfold not_digit in H.
    rewrite Ed in H. discriminate.
Qed.

(** X9.  [likeText.match(/\d+/)] finds nothing exactly in a text without
    digits, and otherwise gives the leftmost run of digits, taken as far as it
    goes; an element whose like nodes hold no digit gets the like count 0. *)
Theorem like_count_reads_first_digit_run :
  (forall text, match_digits text = None <-> forallb not_digit text = true)
  /\ (forall text m,
        match_digits text = Some m ->
        m <> [] /\ forallb is_digit m = true /\
        exists before after,
          text = before ++ m ++ after /\
          forallb not_digit before = true /\
          is_digit (hd 0%N after) = false)
  /\ (forall likes,
        Forall (fun l => forallb not_digit (sub_text l) = true) likes ->
        first_like_count likes = Finite 0).
Proof.
  split; [exact match_digits_none|]. split.
  - intros text m. unfold match_digits.
    destruct (drop_while_split (fun c => negb (is_digit c)) text)
      as (pre & E & Hp).
    destruct (drop_while_head (fun c => negb (is_digit c)) text) as [Ed|Ed].
    + rewrite Ed. discriminate.
    + destruct (drop_while _ text) as [|d ds] eqn:Edw; [discriminate|].
      intros [= <-]. cbn [hd] in Ed. apply negb_false_iff in Ed.
      destruct (take_digits_split (d :: ds)) as (rest & Er & Hd & Hr).
      split; [cbn; rewrite Ed; discriminate|]. split; [exact Hd|].
      exists pre, rest.
      change (if is_digit d then d :: take_digits ds else [])
        with (take_digits (d :: ds)).
      split; [rewrite E; f_equal; exact Er|]. now split.
  - induction 1 as [|l likes Hl _ IH]; [reflexivity|].
    cbn [first_like_count].
    assert (Hn : match_digits (trim (sub_text l)) = None).
    { apply match_digits_none. now apply forallb_strip_with. }
    now rewrite Hn.
Qed.

Lemma like_count_reads_first_digit_run_witness :
  first_like_count [mkSub (js "赞") None; mkSub (js " ") None] = Finite 0.
Proof.
  apply (proj2 (proj2 like_count_reads_first_digit_run)).
  repeat constructor.
Defined.

End ExtractMore.

(* ------------------------------------------------------------------ *)
(** ** More on the cookie loaders                                      *)
(* ------------------------------------------------------------------ *)

Section CookieMore.
Import Text Logging Cookies.

Lemma eqb_refl_str a : eqb a a = true.
Proof. now apply eqb_eq. Qed.

Lemma eqb_neq a b : a <> b -> eqb a b = false.
Proof.
  intros H. destruct (eqb a b) eqn:E; [|reflexivity].
  apply eqb_eq in E. contradiction.
Qed.

Lemma split_no_sep sep s :
  Forall (fun p => has_char sep p = false) (split sep s).
Proof.
  induction s as [|c r IH]; cbn [split].
  - now repeat constructor.
  - destruct (N.eqb_spec c sep) as [E|E].
    + now constructor.
    + assert (Hc : (sep =? c)%N = false) by (apply N.eqb_neq; congruence).
      destruct (split sep r) as [|h t].
      * repeat constructor. cbn. now rewrite Hc.
      * inversion IH as [|? ? Hh Ht]; subst. constructor; [|exact Ht].
        unfold has_char in *. cbn. now rewrite Hc.
Qed.

Lemma has_char_strip_with c f s :
  has_char c s = false -> has_char c (strip_with f s) = false.
Proof.
  rewrite !has_char_false. apply forallb_strip_with.
Qed.

Lemma strip_is_unpadded s : unpadded (strip s) = true.
Proof.
  unfold unpadded, strip.
  destruct (strip_with_ends py_space s eq_refl) as [H1 H2].
  now rewrite H1, H2.
Qed.

Lemma parse_pairs_shape log clock ps : forall reads cookies,
  Forall (fun p => has_char semicolon p = false) ps ->
  parse_pairs log clock reads ps = Returns cookies ->
  Forall (shaped_cookie clock) cookies /\
  length cookies = length (filter (has_char equals) ps).
Proof.
  induction ps as [|p rest IH]; intros reads cookies Hs;
    cbn [parse_pairs filter].
  - intros [= <-]. split; [constructor | reflexivity].
  - inversion Hs as [|? ? Hp Hrest]; subst.
    destruct (split_first equals p) as [[n v]|] eqn:E.
    + apply url_split_first_some in E. destruct E as [-> Hn].
      rewrite has_char_app in Hp. apply orb_false_iff in Hp.
      destruct Hp as [Hsn Hsv]. cbn in Hsv.
      assert (He : has_char equals (n ++ equals :: v) = true).
      { rewrite has_char_app. cbn. apply orb_true_r. }
      rewrite He. cbv zeta.
      destruct (pair_log_raises log (strip n) (strip v)); [discriminate|].
      destruct (parse_pairs log clock (S reads) rest) as [l|] eqn:El;
        [|discriminate].
      intros [= <-]. destruct (IH (S reads) l Hrest El) as [IH1 IH2].
      cbn [length]. split; [|now rewrite IH2].
      constructor; [|exact IH1].
      exists (strip n), (strip v), reads.
      split; [apply make_cookie_expected|].
      unfold well_formed_pair, strip. cbn [fst snd].
      repeat split;
        try (apply has_char_strip_with; assumption);
        apply strip_is_unpadded.
    + apply url_split_first_none in E. rewrite E. now apply IH.
Qed.

Lemma split_incl sep s : forall p, In p (split sep s) -> incl p s.
Proof.
  induction s as [|c r IH]; intros p; cbn [split].
  - intros [<- | []]. apply incl_refl.
  - destruct (c =? sep)%N.
    + intros [<- | H]; [intros x [] | apply incl_tl; now apply IH].
    + destruct (split sep r) as [|h t] eqn:E.
      * intros [<- | []]. intros x [-> | []]. now left.
      * intros [<- | H].
        -- intros x [-> | Hx]; [now left | right].
           apply (IH h); [now left | exact Hx].
        -- apply incl_tl. apply IH. now right.
Qed.

Lemma drop_while_incl f s : incl (drop_while f s) s.
Proof.
  destruct (drop_while_split f s) as (pre & E & _).
  intros x Hx. rewrite E. apply in_app_iff. now right.
Qed.

Lemma strip_with_incl f s : incl (strip_with f s) s.
Proof.
  unfold strip_with. intros x Hx.
  apply In_rev in Hx. apply drop_while_incl in Hx.
  apply In_rev in Hx. now apply drop_while_incl in Hx.
Qed.

Lemma parse_pairs_returns log clock ps : forall reads,
  Forall (fun p => print_raises log p = false) ps ->
  exists cookies, parse_pairs log clock reads ps = Returns cookies.
Proof.
  induction ps as [|p rest IH]; intros reads H; cbn [parse_pairs].
  - now exists [].
  - inversion H as [|? ? Hp Hrest]; subst.
    destruct (split_first equals p) as [[n v]|] eqn:E; [|now apply IH].
    apply url_split_first_some in E. destruct E as [-> _]. cbv zeta.
    assert (Hv : print_raises log (strip v) = false).
    { apply (print_raises_incl log _ _ (strip_with_incl py_space v)).
      apply (print_raises_incl log (n ++ equals :: v)); [|exact Hp].
      intros x Hx. apply in_app_iff. right. now right. }
    rewrite (pair_log_prints log _ _ Hv).
    destruct (IH (S reads) Hrest) as [l ->]. eexists. reflexivity.
Qed.

Lemma cookie_pairs_no_semicolon s :
  Forall (fun p => has_char semicolon p = false) (cookie_pairs s).
Proof.
  unfold cookie_pairs. apply Forall_forall. intros p Hp.
  apply in_map_iff in Hp. destruct Hp as (q & <- & Hq).
  apply filter_In in Hq. destruct Hq as [Hq _].
  apply has_char_strip_with.
  pose proof (split_no_sep semicolon s) as H.
  rewrite Forall_forall in H. now apply H.
Qed.

(** X10.  On a cookie string that is not empty, [parse_cookie_string]
    never returns [None]: it returns a list or it raises.  A list that it
    returns has one cookie for each non-blank segment with an equals sign,
    none for the others; each cookie has the fixed domain, path, [secure],
    [sameSite] and a life of 24 hours from a clock read, [httpOnly] set
    exactly for the names web_session, a1 and websectiga, and its name and
    value are stripped, the name free of [=] and both free of [;].  It does
    return a list when the log can print the string, that is when [debug]
    is off or the console takes every character of the string. *)
Theorem parse_cookie_string_shape (log : Logger) (clock : nat -> Z)
        (cookie_string : str) :
  cookie_string <> [] ->
  parse_cookie_string log clock cookie_string <> Returns None
  /\ (forall cookies,
        parse_cookie_string log clock cookie_string = Returns (Some cookies) ->
        Forall (shaped_cookie clock) cookies /\
        length cookies
        = length (filter (has_char equals) (cookie_pairs cookie_string)))
  /\ (print_raises log cookie_string = false ->
      exists cookies,
        parse_cookie_string log clock cookie_string
        = Returns (Some cookies)).
Proof.
  intros H. rewrite parse_cookie_string_non_empty by exact H.
  split; [|split].
  - destruct (parse_pairs log clock 0 (cookie_pairs cookie_string));
      discriminate.
  - intros cookies.
    destruct (parse_pairs log clock 0 (cookie_pairs cookie_string))
      as [l|] eqn:E; [|discriminate].
    intros [= <-].
    exact (parse_pairs_shape log clock _ 0 l
             (cookie_pairs_no_semicolon cookie_string) E).
  - intros Hp.
    destruct (parse_pairs_returns log clock (cookie_pairs cookie_string) 0)
      as [l ->]; [|now exists l].
    apply Forall_forall. intros p Hin. unfold cookie_pairs in Hin.
    apply in_map_iff in Hin. destruct Hin as (q & <- & Hq).
    apply filter_In in Hq. destruct Hq as [Hq _].
    apply (print_raises_incl log _ _ (strip_with_incl py_space q)).
    apply (print_raises_incl log cookie_string); [|exact Hp].
    now apply (split_incl semicolon).
Qed.

Lemma parse_cookie_string_shape_witness :
  exists cookies,
    parse_cookie_string strict_logger sample_clock (py "a1=xyz; junk; =")
    = Returns (Some cookies).
Proof.
  apply (parse_cookie_string_shape strict_logger sample_clock
           (py "a1=xyz; junk; =")).
  - vm_compute. discriminate.
  - vm_compute. reflexivity.
Defined.

Lemma drop_while_all f l x :
  forallb f l = true -> drop_while f (l ++ x) = drop_while f x.
Proof.
  induction l as [|c r IH]; cbn; [reflexivity|].
  intros H. apply andb_true_iff in H. destruct H as [Hc Hr].
  rewrite Hc. now apply IH.
Qed.

Lemma drop_while_app_keep f x r :
  drop_while f x <> [] -> drop_while f (x ++ r) = drop_while f x ++ r.
Proof.
  induction x as [|c x' IH]; cbn; [congruence|].
  destruct (f c); [exact IH | reflexivity].
Qed.

Lemma drop_while_app_gone f x r :
  drop_while f x = [] -> forallb f r = true -> drop_while f (x ++ r) = [].
Proof.
  induction x as [|c x' IH]; cbn.
  - intros _ H. rewrite <- (app_nil_r r). now rewrite drop_while_all.
  - destruct (f c); [exact IH | discriminate].
Qed.

Lemma strip_with_pad f l x r :
  forallb f l = true -> forallb f r = true ->
  strip_with f (l ++ x ++ r) = strip_with f x.
Proof.
  intros Hl Hr. unfold strip_with. rewrite drop_while_all by assumption.
  destruct (drop_while f x) as [|c u] eqn:E.
  - now rewrite drop_while_app_gone.
  - rewrite drop_while_app_keep by (rewrite E; discriminate).
    rewrite E, rev_app_distr. rewrite drop_while_all; [reflexivity|].
    now rewrite forallb_rev.
Qed.

Lemma blank_no_semicolon s : blank s = true -> has_char semicolon s = false.
Proof.
  unfold blank. intros H. apply has_char_false.
  eapply forallb_weaken; [|exact H].
  intros c Hc. destruct (N.eqb_spec c semicolon) as [->|]; [|reflexivity].
  discriminate.
Qed.

Lemma padded_text_facts item :
  padded_item item ->
  has_char semicolon (padded_text item) = false /\
  strip (padded_text item) = pair_text (snd (fst item)) /\
  padded_text item <> [].
Proof.
  intros (Hl & Hr & Hw). unfold padded_text.
  destruct (pair_text_facts _ Hw) as (Hs & Hst & Hne & _).
  split; [|split].
  - rewrite !has_char_app, Hs.
    now rewrite (blank_no_semicolon _ Hl), (blank_no_semicolon _ Hr).
  - unfold strip in *. now rewrite strip_with_pad.
  - intros E. apply app_eq_nil in E. destruct E as [_ E].
    apply app_eq_nil in E. destruct E as [E _].
    rewrite E in Hne. discriminate.
Qed.

Lemma padded_pairs items :
  Forall padded_item items ->
  map strip (filter (fun pair_ => non_empty (strip pair_))
                    (map padded_text items))
  = map pair_text (map (fun item => snd (fst item)) items).
Proof.
  induction 1 as [|item rest Hi _ IH]; [reflexivity|].
  destruct (padded_text_facts _ Hi) as (_ & Hst & _).
  destruct Hi as (_ & _ & Hw).
  destruct (pair_text_facts _ Hw) as (_ & _ & Hne & _).
  cbn [map filter]. rewrite Hst, Hne. cbn [map]. now rewrite Hst, IH.
Qed.

Lemma join_head_non_empty sep a l : a <> [] -> join sep (a :: l) <> [].
Proof.
  intros Ha. cbn [join]. destruct l; [exact Ha|].
  destruct a; [congruence | discriminate].
Qed.

(** X11.  White space around the pairs of a cookie string changes nothing:
    with a space after each semicolon, as the browser writes the [Cookie]
    header, the parser does what it does on the string of the bare pairs,
    be it the list it returns or the exception of a log line. *)
Theorem parse_cookie_string_ignores_padding (log : Logger) (clock : nat -> Z)
        (items : list (str * (str * str) * str)) :
  items <> [] ->
  Forall padded_item items ->
  parse_cookie_string log clock (join semicolon (map padded_text items))
  = parse_cookie_string log clock
      (cookie_text (map (fun item => snd (fst item)) items)).
Proof.
  intros Hne Hall.
  assert (Hsegs : Forall (fun s => has_char semicolon s = false)
                         (map padded_text items)).
  { apply Forall_forall. intros seg Hs. apply in_map_iff in Hs.
    destruct Hs as (item & <- & Hi). rewrite Forall_forall in Hall.
    now apply padded_text_facts, Hall. }
  assert (Hwf : Forall well_formed_pair
                       (map (fun item => snd (fst item)) items)).
  { apply Forall_forall. intros nv Hnv. apply in_map_iff in Hnv.
    destruct Hnv as (item & <- & Hi). rewrite Forall_forall in Hall.
    now apply Hall. }
  assert (Hne' : map (fun item : str * (str * str) * str => snd (fst item))
                     items <> [])
    by (destruct items; [congruence | discriminate]).
  rewrite !parse_cookie_string_non_empty.
  - rewrite (cookie_pairs_text _ Hne' Hwf).
    unfold cookie_pairs. rewrite split_join; [|now destruct items|exact Hsegs].
    now rewrite padded_pairs by assumption.
  - pose proof (cookie_text_non_empty _ Hne') as Hs.
    intros E. rewrite E in Hs. discriminate.
  - destruct items as [|item rest]; [congruence|]. cbn [map].
    apply join_head_non_empty. inversion Hall; subst.
    now apply padded_text_facts.
Qed.

Lemma parse_cookie_string_ignores_padding_witness :
  parse_cookie_string strict_logger sample_clock
    (py "a1=xyz; web_session=0400=")
  = parse_cookie_string strict_logger sample_clock
      (py "a1=xyz;web_session=0400=").
Proof.
  apply (parse_cookie_string_ignores_padding strict_logger sample_clock
           spaced_items).
  - discriminate.
  - repeat constructor; vm_compute; reflexivity.
Defined.

(** *** The file formats *)

Lemma dict_get_has key d v : dict_get key d = Some v -> dict_has key d = true.
Proof.
  induction d as [|[k w] r IH]; cbn; [discriminate|].
  destruct (eqb key k); [reflexivity|]. exact IH.
Qed.

(** X12.  The four accepted layouts of a cookie file lead to the same cookies:
    an object with a [cookies] array, a lone cookie object, and an object
    whose only field is a non-empty list with a first element that contains
    "name", all load as the bare array does. *)
Theorem cookie_file_layouts_agree (log : Logger) (expiry : bool)
        (clock : nat -> Z) :
  (forall d l,
      dict_get (py "cookies") d = Some (VList l) ->
      load_file log expiry clock (Parsed (VDict d))
      = load_file log expiry clock (Parsed (VList l)))
  /\ (forall d,
        dict_has (py "cookies") d = false ->
        dict_has (py "value") d || dict_has (py "name") d = true ->
        load_file log expiry clock (Parsed (VDict d))
        = load_file log expiry clock (Parsed (VList [VDict d])))
  /\ (forall key first others,
        key <> py "cookies" -> key <> py "value" -> key <> py "name" ->
        contains (py "name") first = Some true ->
        load_file log expiry clock
          (Parsed (VDict [(key, VList (first :: others))]))
        = load_file log expiry clock (Parsed (VList (first :: others)))).
Proof.
  split; [|split].
  - intros d l H. unfold load_file, load_data. cbn [select_cookies].
    now rewrite (dict_get_has _ _ _ H), H.
  - intros d H1 H2. unfold load_file, load_data. cbn [select_cookies].
    now rewrite H1, H2.
  - intros key first others H1 H2 H3 Hc.
    unfold load_file, load_data, select_cookies, dict_has.
    cbn [existsb fst].
    rewrite (eqb_neq _ _ (not_eq_sym H1)), (eqb_neq _ _ (not_eq_sym H2)),
      (eqb_neq _ _ (not_eq_sym H3)).
    cbn [orb first_cookie_list]. now rewrite Hc.
Qed.

Lemma cookie_file_layouts_agree_witness :
  load_file strict_logger true sample_clock
    (Parsed (VDict [(py "cookies", file_with_bad_record)]))
  = load_file strict_logger true sample_clock (Parsed file_with_bad_record).
Proof.
  apply (proj1 (cookie_file_layouts_agree strict_logger true sample_clock)).
  vm_compute. reflexivity.
Defined.

(** *** The validation loop *)

Lemma dict_has_set_same key v d : dict_has key (dict_set key v d) = true.
Proof.
  induction d as [|[k w] r IH]; cbn [dict_set].
  - unfold dict_has. cbn. now rewrite eqb_refl_str.
  - destruct (eqb key k) eqn:E; unfold dict_has in *; cbn [existsb fst].
    + now rewrite E.
    + now rewrite E, IH.
Qed.

Lemma dict_has_default_same key v d :
  dict_has key (set_default key v d) = true.
Proof.
  unfold set_default. destruct (dict_has key d) eqn:E; [exact E|].
  apply dict_has_set_same.
Qed.

Lemma dict_get_set_other key key' v d :
  dict_has key' d = false -> dict_has key d = true ->
  dict_get key (dict_set key' v d) = dict_get key d.
Proof.
  unfold dict_has.
  induction d as [|[k w] r IH]; cbn [existsb fst dict_set dict_get];
    [discriminate|].
  intros H' H. apply orb_false_iff in H'. destruct H' as [E' Hr'].
  rewrite E'. cbn [dict_get].
  destruct (eqb key k) eqn:E; [reflexivity|].
  cbn [orb] in H. now apply IH.
Qed.

Lemma dict_get_default key key' v d :
  dict_has key d = true ->
  dict_get key (set_default key' v d) = dict_get key d.
Proof.
  intros H. unfold set_default.
  destruct (dict_has key' d) eqn:E; [reflexivity|].
  now apply dict_get_set_other.
Qed.

Lemma validate_cons_cookie expiry clock reads d rest :
  dict_has (py "name") d && dict_has (py "value") d = true ->
  validate expiry clock reads (VDict d :: rest) =
  if expiry && needs_expiry
                 (set_default (py "path") (VStr (py "/"))
                    (set_default (py "domain")
                                 (VStr (py ".xiaohongshu.com")) d))
  then VDict (dict_set (py "expires")
                (VInt (clock reads + 24 * 60 * 60)%Z)
                (set_default (py "path") (VStr (py "/"))
                   (set_default (py "domain")
                                (VStr (py ".xiaohongshu.com")) d)))
         :: validate expiry clock (S reads) rest
  else VDict (set_default (py "path") (VStr (py "/"))
                (set_default (py "domain")
                             (VStr (py ".xiaohongshu.com")) d))
         :: validate expiry clock reads rest.
Proof. intros H. cbn [validate]. now rewrite H. Qed.

Lemma validate_cons_skip expiry clock reads cookie rest :
  is_cookie cookie = false ->
  validate expiry clock reads (cookie :: rest)
  = validate expiry clock reads rest.
Proof. intros H. exact (validate_skips expiry clock cookie rest H [] reads). Qed.

Lemma is_cookie_cases cookie :
  is_cookie cookie = false \/
  exists d, cookie = VDict d /\
            dict_has (py "name") d && dict_has (py "value") d = true.
Proof.
  destruct (is_cookie cookie) eqn:E; [right | now left].
  destruct cookie; try discriminate. eexists. now split.
Qed.

Lemma needs_expiry_false d :
  needs_expiry d = false ->
  dict_has (py "expires") d || dict_has (py "maxAge") d = true.
Proof.
  unfold needs_expiry.
  now destruct (dict_has (py "expires") d), (dict_has (py "maxAge") d).
Qed.

Lemma validate_complete expiry clock cookies : forall reads,
  Forall (fun c => complete expiry c = true)
         (validate expiry clock reads cookies).
Proof.
  induction cookies as [|c rest IH]; intros reads; [constructor|].
  destruct (is_cookie_cases c) as [E | (d & -> & Hnv)].
  - rewrite validate_cons_skip by assumption. apply IH.
  - rewrite validate_cons_cookie by assumption.
    apply andb_true_iff in Hnv. destruct Hnv as [Hn Hv].
    set (d1 := set_default (py "domain") _ d).
    set (d2 := set_default (py "path") _ d1).
    assert (Hn2 : dict_has (py "name") d2 = true)
      by now apply dict_has_default, dict_has_default.
    assert (Hv2 : dict_has (py "value") d2 = true)
      by now apply dict_has_default, dict_has_default.
    assert (Hd2 : dict_has (py "domain") d2 = true)
      by apply dict_has_default, dict_has_default_same.
    assert (Hp2 : dict_has (py "path") d2 = true)
      by apply dict_has_default_same.
    destruct (expiry && needs_expiry d2) eqn:He; constructor; try apply IH.
    + unfold complete.
      rewrite !dict_has_set by assumption. rewrite dict_has_set_same.
      cbn [andb]. now rewrite orb_true_r.
    + unfold complete. rewrite Hn2, Hv2, Hd2, Hp2. cbn [andb].
      destruct expiry; [|reflexivity]. cbn [andb negb orb] in *.
      now apply needs_expiry_false.
Qed.

Lemma validate_fixed expiry clock cookies : forall reads,
  Forall (fun c => complete expiry c = true) cookies ->
  validate expiry clock reads cookies = cookies.
Proof.
  induction cookies as [|c rest IH]; intros reads H; [reflexivity|].
  inversion H as [|? ? Hc Hrest]; subst.
  destruct c as [| | | | | |d]; try discriminate.
  unfold complete in Hc.
  repeat (apply andb_true_iff in Hc; destruct Hc as [Hc ?]).
  rewrite validate_cons_cookie by (rewrite Hc; assumption).
  unfold set_default at 2 4 6. rewrite H2.
  unfold set_default. rewrite H1.
  assert (He : expiry && needs_expiry d = false).
  { destruct expiry; [|reflexivity]. cbn [andb negb orb] in *.
    unfold needs_expiry.
    now destruct (dict_has (py "expires") d), (dict_has (py "maxAge") d). }
  rewrite He. f_equal. now apply IH.
Qed.

Lemma validate_keeps expiry clock cookies : forall reads,
  Forall2 keeps_fields (filter is_cookie cookies)
          (validate expiry clock reads cookies).
Proof.
  induction cookies as [|c rest IH]; intros reads; [constructor|].
  destruct (is_cookie_cases c) as [E | (d & -> & Hnv)].
  - rewrite validate_cons_skip by assumption. cbn [filter]. rewrite E.
    apply IH.
  - rewrite validate_cons_cookie by assumption.
    cbn [filter is_cookie]. rewrite Hnv.
    set (d1 := set_default (py "domain") _ d).
    set (d2 := set_default (py "path") _ d1).
    assert (Hk : forall key, dict_has key d = true ->
                             dict_get key d2 = dict_get key d).
    { intros key Hkey. subst d2 d1.
      rewrite dict_get_default by now apply dict_has_default.
      now apply dict_get_default. }
    destruct (expiry && needs_expiry d2) eqn:He; constructor; try apply IH.
    + exists d. eexists. split; [reflexivity|]. split; [reflexivity|].
      intros key Hkey. rewrite <- (Hk key Hkey).
      apply dict_get_set_other.
      * apply andb_true_iff in He. destruct He as [_ He].
        unfold needs_expiry in He. apply andb_true_iff in He.
        destruct He as [He _]. now apply negb_true_iff in He.
      * subst d2 d1. now apply dict_has_default, dict_has_default.
    + exists d, d2. now repeat split.
Qed.

Lemma load_data_inv log expiry clock data l :
  load_data log expiry clock data = Some l ->
  existsb (log_raises log) l = false /\
  exists items, l = validate expiry clock 0 items.
Proof.
  unfold load_data.
  destruct (select_cookies data) as [[cookies|]|]; try discriminate.
  destruct (negb (truthy cookies)); try discriminate.
  destruct (iterate cookies) as [items|]; try discriminate.
  cbv zeta.
  destruct (existsb (log_raises log) (validate expiry clock 0 items)) eqn:E;
    try discriminate.
  intros [= <-]. split; [exact E | now exists items].
Qed.

Lemma parse_pairs_complete log clock ps : forall reads cookies,
  parse_pairs log clock reads ps = Returns cookies ->
  Forall (fun c => complete true c = true) cookies.
Proof.
  induction ps as [|p rest IH]; intros reads cookies; cbn [parse_pairs].
  - intros [= <-]. constructor.
  - destruct (split_first equals p) as [[n v]|]; [|apply IH]. cbv zeta.
    destruct (pair_log_raises log (strip n) (strip v)); [discriminate|].
    destruct (parse_pairs log clock (S reads) rest) as [l|] eqn:El;
      [|discriminate].
    intros [= <-]. constructor; [|exact (IH _ _ El)].
    rewrite make_cookie_expected. vm_compute. reflexivity.
Qed.

(** X13.  Every cookie the loaders hand to [add_cookies] is an object with a
    name, a value, a domain and a path; those of [cookie_extractor.py], from a
    file or from a string, also have [expires] or [maxAge]. *)
Theorem loaded_cookies_are_complete (log : Logger) (clock : nat -> Z)
        (file : CookieFile) (cookie_string : option str) (l : list value) :
  (load_cookies log clock file = Some l ->
   Forall (fun c => complete false c = true) l)
  /\ (load_cookies_or_string log clock file cookie_string = Some l ->
      Forall (fun c => complete true c = true) l).
Proof.
  split.
  - unfold load_cookies, load_file.
    destruct file; try discriminate. intros H.
    apply load_data_inv in H. destruct H as (_ & items & ->).
    apply validate_complete.
  - unfold load_cookies_or_string, load_cookies_from_string.
    destruct cookie_string as [[|c s]|].
    + unfold load_file. destruct file; try discriminate. intros H.
      apply load_data_inv in H. destruct H as (_ & items & ->).
      apply validate_complete.
    + cbn [parse_cookie_string].
      destruct (parse_pairs log clock 0 (cookie_pairs (c :: s))) as [l0|] eqn:E;
        [|discriminate].
      intros [= <-]. exact (parse_pairs_complete _ _ _ _ _ E).
    + unfold load_file. destruct file; try discriminate. intros H.
      apply load_data_inv in H. destruct H as (_ & items & ->).
      apply validate_complete.
Qed.

Lemma loaded_cookies_are_complete_witness :
  Forall (fun c => complete true c = true)
         (expected_cookies sample_clock 0 sample_pairs).
Proof.
  apply (proj2 (loaded_cookies_are_complete strict_logger sample_clock NoPath
                  (Some (py "a1=xyz;web_session=0400="))
                  (expected_cookies sample_clock 0 sample_pairs))).
  vm_compute. reflexivity.
Defined.

(** X14.  The validation loop returns the records that are objects with a name
    and a value, in their order, and fills in defaults only: no field that a
    record came with is changed, whatever the record holds. *)
Theorem validation_overwrites_nothing (expiry : bool) (clock : nat -> Z)
        (reads : nat) (cookies : list value) :
  Forall2 keeps_fields (filter is_cookie cookies)
          (validate expiry clock reads cookies).
Proof. apply validate_keeps. Qed.

Lemma load_data_list log expiry clock l :
  l <> [] ->
  load_data log expiry clock (VList l)
  = if existsb (log_raises log) (validate expiry clock 0 l) then None
    else Some (validate expiry clock 0 l).
Proof. destruct l; [congruence | reflexivity]. Qed.

(** X15.  A non-empty list that a loader returned from a file loads to itself
    when it is written out as a cookie file and loaded again, at any later
    time: the defaults are filled in once. *)
Theorem loaded_cookies_reload (log : Logger) (expiry : bool)
        (clock clock' : nat -> Z) (file : CookieFile) (l : list value) :
  load_file log expiry clock file = Some l ->
  l <> [] ->
  load_file log expiry clock' (Parsed (VList l)) = Some l.
Proof.
  intros H Hne. unfold load_file in H. destruct file; try discriminate.
  apply load_data_inv in H. destruct H as (Hlog & items & E).
  unfold load_file. rewrite load_data_list by assumption.
  rewrite validate_fixed; [now rewrite Hlog|].
  rewrite E. apply validate_complete.
Qed.

Lemma loaded_cookies_reload_witness :
  load_file strict_logger true (fun _ => 0%Z)
    (Parsed (VList [ VDict [ (py "name", VStr (py "a1"));
                             (py "value", VStr (py "xyz"));
                             (py "domain", VStr (py ".xiaohongshu.com"));
                             (py "path", VStr (py "/"));
                             (py "expires", VInt 1700086400) ] ]))
  = Some [ VDict [ (py "name", VStr (py "a1"));
                   (py "value", VStr (py "xyz"));
                   (py "domain", VStr (py ".xiaohongshu.com"));
                   (py "path", VStr (py "/"));
                   (py "expires", VInt 1700086400) ] ].
Proof.
  apply (loaded_cookies_reload strict_logger true sample_clock (fun _ => 0%Z)
           (Parsed file_with_bad_record)).
  - vm_compute. reflexivity.
  - discriminate.
Defined.

Lemma all_in_dict d :
  all_in required_fields (VDict d) = Some true ->
  dict_has (py "name") d = true /\ dict_has (py "value") d = true /\
  dict_has (py "domain") d = true.
Proof.
  unfold required_fields. cbn [all_in contains].
  destruct (dict_has (py "name") d); [|discriminate].
  destruct (dict_has (py "value") d); [|discriminate].
  destruct (dict_has (py "domain") d); [|discriminate].
  now repeat split.
Qed.

Lemma check_fields_cookies cookies :
  check_fields cookies = true ->
  forallb is_dict cookies = true ->
  filter is_cookie cookies = cookies.
Proof.
  induction cookies as [|c rest IH]; [reflexivity|].
  cbn [check_fields forallb filter]. intros H Hd.
  apply andb_true_iff in Hd. destruct Hd as [Hc Hrest].
  destruct c as [| | | | | |d]; try discriminate.
  destruct (all_in required_fields (VDict d)) as [[|]|] eqn:E;
    try discriminate.
  apply all_in_dict in E. destruct E as (Hn & Hv & _).
  cbn [is_cookie]. rewrite Hn, Hv. cbn [andb]. f_equal. now apply IH.
Qed.

(** X16.  A file that [validate_cookies] accepts and whose records are objects
    loses no record in [load_cookies]: the validation loop returns as many
    cookies as the file has records, each with the fields of its record. *)
Theorem validated_file_loads_whole (expiry : bool) (clock : nat -> Z)
        (cookies : list value) :
  validate_cookies (Parsed (VList cookies)) = true ->
  forallb is_dict cookies = true ->
  Forall2 keeps_fields cookies (validate expiry clock 0 cookies)
  /\ length (validate expiry clock 0 cookies) = length cookies.
Proof.
  cbn [validate_cookies]. intros H Hd.
  pose proof (validate_keeps expiry clock cookies 0) as Hk.
  rewrite (check_fields_cookies _ H Hd) in Hk.
  split; [exact Hk|]. symmetry. eapply Forall2_length. exact Hk.
Qed.

Lemma validated_file_loads_whole_witness :
  length (validate true sample_clock 0
            [ VDict [ (py "name", VStr (py "a1"));
                      (py "value", VStr (py "xyz"));
                      (py "domain", VStr (py ".xiaohongshu.com")) ] ])
  = 1.
Proof.
  apply (validated_file_loads_whole true sample_clock
           [ VDict [ (py "name", VStr (py "a1"));
                     (py "value", VStr (py "xyz"));
                     (py "domain", VStr (py ".xiaohongshu.com")) ] ]);
    vm_compute; reflexivity.
Defined.

Lemma includes_self s : includes s s = true.
Proof.
  destruct s as [|c r]; [reflexivity|]. cbn [includes].
  replace (startswith (c :: r) (c :: r)) with true; [reflexivity|].
  symmetry. rewrite <- (app_nil_r (c :: r)) at 2.
  generalize (c :: r) (@nil N). intros p t.
  induction p as [|x p' IH]; [reflexivity|]. cbn. now rewrite N.eqb_refl.
Qed.

(** X17.  The filter that picks the important cookies is a substring test: a
    cookie is kept exactly when its name contains one of the six names, so the
    equality test after the [or] never decides. *)
Theorem important_cookie_is_substring_test (cookie_name : str) :
  is_important cookie_name
  = existsb (fun name => includes cookie_name name) extractor_names.
Proof.
  unfold is_important.
  destruct (mem cookie_name extractor_names) eqn:E;
    [|apply orb_false_r].
  apply mem_In in E. rewrite orb_true_r. symmetry.
  apply existsb_exists. exists cookie_name. split; [exact E|].
  apply includes_self.
Qed.

End CookieMore.

(* ------------------------------------------------------------------ *)
(** ** More on the image URLs                                          *)
(* ------------------------------------------------------------------ *)

Section UrlMore.
Import Text ImgUrl.

(** *** [_normalize_fmt] *)

Lemma py_space_not_upper c : py_space c = true -> lower_char c = c.
Proof.
  intros H. unfold lower_char.
  destruct (in_range 65 90 c) eqn:E; [|reflexivity]. exfalso.
  unfold in_range in E. apply andb_true_iff in E. destruct E as [E1 E2].
  apply N.leb_le in E1, E2. unfold py_space in H.
  repeat (apply orb_true_iff in H; destruct H as [H|H]);
    unfold in_range in H;
    try (apply andb_true_iff in H; destruct H as [H1 H2];
         apply N.leb_le in H1, H2; lia);
    try (apply N.eqb_eq in H; lia).
Qed.

Lemma lower_blank l : forallb py_space l = true -> lower l = l.
Proof.
  induction l as [|c r IH]; [reflexivity|]. cbn [forallb lower map].
  intros H. apply andb_true_iff in H. destruct H as [Hc Hr].
  rewrite (py_space_not_upper _ Hc). f_equal. now apply IH.
Qed.

(** X18.  [_normalize_fmt] returns "jpg" or "png" and nothing else,
    normalizing its own result changes nothing, white space around the word is
    ignored, and "JPEG" stands for "jpg". *)
Theorem normalize_fmt_canonical :
  (forall fmt f,
      _normalize_fmt fmt = Some f ->
      (f = py "jpg" \/ f = py "png") /\ _normalize_fmt f = Some f)
  /\ (forall fmt l r,
        forallb py_space l = true -> forallb py_space r = true ->
        _normalize_fmt (l ++ fmt ++ r) = _normalize_fmt fmt)
  /\ (forall lib url filename,
        convert_url lib url (py "JPEG") filename = to_jpg lib url filename).
Proof.
  split; [|split].
  - intros fmt f H. destruct (normalize_fmt_text _ _ H) as [[-> | ->] _];
      (split; [auto | vm_compute; reflexivity]).
  - intros fmt l r Hl Hr. unfold _normalize_fmt, lower.
    rewrite !map_app. fold (lower l). fold (lower r). fold (lower fmt).
    rewrite (lower_blank _ Hl), (lower_blank _ Hr).
    unfold strip. now rewrite strip_with_pad.
  - intros lib url filename. unfold to_jpg, convert_url.
    replace (_normalize_fmt (py "JPEG")) with (_normalize_fmt (py "jpg"))
      by (vm_compute; reflexivity).
    reflexivity.
Qed.

Lemma normalize_fmt_canonical_witness :
  _normalize_fmt (py " PNG" ++ [10%N]) = _normalize_fmt (py "PNG").
Proof.
  apply (proj1 (proj2 normalize_fmt_canonical) (py "PNG") (py " ") [10%N]);
    reflexivity.
Defined.

(** *** [_derive_basename_from_path] *)

Lemma after_last_slash_spec p :
  has_char slash (after_last_slash p) = false /\
  exists pre, p = pre ++ after_last_slash p /\
              (pre = [] \/ last pre 0%N = slash).
Proof.
  induction p as [|c r (IH1 & pre & IH2 & IH3)]; cbn [after_last_slash].
  - split; [reflexivity|]. exists []. split; [reflexivity | now left].
  - destruct (has_char slash r) eqn:Er.
    + split; [exact IH1|]. exists (c :: pre).
      split; [cbn; now f_equal|]. right.
      destruct IH3 as [-> | IH3].
      * cbn in IH2. rewrite <- IH2, Er in IH1. discriminate.
      * destruct pre; [|exact IH3].
        cbn in IH2. rewrite <- IH2, Er in IH1. discriminate.
    + destruct (N.eqb_spec c slash) as [->|Hc].
      * split; [exact Er|]. exists [slash]. split; [reflexivity | now right].
      * split.
        -- unfold has_char in *. cbn [existsb]. rewrite Er, orb_false_r.
           apply N.eqb_neq. congruence.
        -- exists []. split; [reflexivity | now left].
Qed.

(** X19.  The name that [_derive_basename_from_path] takes from a path holds
    no slash and no exclamation mark; it sits in the path after the last slash
    (or at the start of a path without one) and runs to the first exclamation
    mark after that slash, or to the end of the path. *)
Theorem basename_is_last_segment (p : str) :
  has_char slash (_derive_basename_from_path p) = false
  /\ has_char bang (_derive_basename_from_path p) = false
  /\ exists pre post,
       p = pre ++ _derive_basename_from_path p ++ post /\
       (pre = [] \/ last pre 0%N = slash) /\
       (post = [] \/ hd 0%N post = bang) /\
       has_char slash post = false.
Proof.
  destruct (after_last_slash_spec p) as (Hs & pre & Hp & Hpre).
  unfold _derive_basename_from_path.
  destruct (split_first bang (after_last_slash p)) as [[base rest]|] eqn:E.
  - apply url_split_first_some in E. destruct E as [E Hb].
    rewrite E, has_char_app in Hs. apply orb_false_iff in Hs.
    destruct Hs as [Hs1 Hs2]. split; [exact Hs1|]. split; [exact Hb|].
    exists pre, (bang :: rest).
    split; [now rewrite <- E|]. split; [exact Hpre|].
    split; [now right | exact Hs2].
  - apply url_split_first_none in E. split; [exact Hs|]. split; [exact E|].
    exists pre, []. rewrite app_nil_r. now repeat split; auto.
Qed.

(** *** The query, part by part *)

Lemma split_join_at sep segs :
  segs <> [] ->
  Forall (fun s => has_char sep s = false) segs ->
  split sep (join sep segs) = segs.
Proof.
  intros Hne H. induction H as [|s rest Hs Hrest IH]; [congruence|].
  destruct rest as [|s' rest'].
  - cbn [join]. now apply split_without.
  - change (join sep (s :: s' :: rest'))
      with (s ++ sep :: join sep (s' :: rest')).
    rewrite (split_app _ _ _ Hs), IH; [reflexivity | discriminate].
Qed.

Lemma query_parts_filter q :
  query_parts q = filter (fun p => negb (is_empty p)) (split amp q).
Proof. destruct q; reflexivity. Qed.

Lemma query_parts_are_parts q : Forall is_part (query_parts q).
Proof.
  rewrite query_parts_filter. apply Forall_forall. intros p Hp.
  apply filter_In in Hp. destruct Hp as [Hin Hne]. split.
  - intros ->. discriminate.
  - pose proof (split_no_sep amp q) as H. rewrite Forall_forall in H.
    now apply H.
Qed.

Lemma query_parts_join parts :
  Forall is_part parts -> query_parts (join amp parts) = parts.
Proof.
  intros H. destruct parts as [|p rest]; [reflexivity|].
  rewrite query_parts_filter, split_join_at; [|discriminate|].
  - induction H as [|x l [Hx _] _ IH]; [reflexivity|].
    cbn [filter]. destruct x; [congruence|]. cbn. now rewrite IH.
  - eapply Forall_impl; [|exact H]. now intros x [_ Hx].
Qed.

Lemma replace_first_some test f parts : forall parts',
  replace_first test f parts = Some parts' ->
  exists pre x post,
    parts = pre ++ x :: post /\ test x = true /\
    parts' = pre ++ f x :: post.
Proof.
  induction parts as [|p rest IH]; intros parts'; cbn [replace_first];
    [discriminate|].
  destruct (test p) eqn:E.
  - intros [= <-]. now exists [], p, rest.
  - destruct (replace_first test f rest) as [rest'|]; [|discriminate].
    intros [= <-]. destruct (IH _ eq_refl) as (pre & x & post & -> & Hx & ->).
    now exists (p :: pre), x, post.
Qed.

Lemma forallb_sub_first P fmt seg :
  forallb P (format_prefix ++ fmt) = true ->
  forallb P seg = true ->
  forallb P (sub_first (fun _ => format_prefix ++ fmt) seg) = true.
Proof.
  intros Ht. induction seg as [|c r IH]; intros Hs.
  - cbn [sub_first]. destruct (startswith format_prefix []); [|reflexivity].
    rewrite forallb_app, Ht. reflexivity.
  - cbn [sub_first]. destruct (startswith format_prefix (c :: r)).
    + rewrite forallb_app, Ht. cbn [andb].
      apply forallb_drop_while.
      rewrite <- (firstn_skipn (length format_prefix) (c :: r)) in Hs.
      rewrite forallb_app in Hs. now apply andb_true_iff in Hs.
    + cbn [forallb] in *. apply andb_true_iff in Hs. destruct Hs as [Hc Hr].
      now rewrite Hc, IH.
Qed.

Lemma sub_first_non_empty fmt seg :
  seg <> [] -> sub_first (fun _ => format_prefix ++ fmt) seg <> [].
Proof.
  destruct seg as [|c r]; [congruence|]. intros _. cbn [sub_first].
  destruct (startswith format_prefix (c :: r)); discriminate.
Qed.

Lemma set_format_segment_part lib fmt seg seg' :
  has_char amp fmt = false -> has_char backslash fmt = false ->
  is_part seg ->
  set_format_segment lib fmt seg = Some seg' -> is_part seg'.
Proof.
  intros Hf Hb [Hne Hs]. rewrite (set_format_segment_literal _ _ _ Hb).
  intros E. apply (f_equal (fun o => match o with Some x => x | None => [] end))
    in E. rewrite <- E. clear E.
  destruct (includes seg format_prefix).
  - split; [now apply sub_first_non_empty|].
    apply has_char_false. apply forallb_sub_first;
      [|now apply has_char_false].
    apply has_char_false. now rewrite has_char_app, Hf.
  - split.
    + intros E. apply app_eq_nil in E. destruct E as [_ E].
      apply app_eq_nil in E. destruct E as [E _]. discriminate.
    + rewrite !has_char_app, Hf. unfold rstrip_slash.
      rewrite (proj2 (has_char_false amp _)); [reflexivity|].
      rewrite forallb_rev. apply forallb_drop_while. rewrite forallb_rev.
      now apply has_char_false.
Qed.

Lemma format_parts_are_parts lib fmt parts parts' :
  has_char amp fmt = false -> has_char backslash fmt = false ->
  Forall is_part parts ->
  format_parts lib fmt parts = Some parts' ->
  Forall is_part parts'.
Proof.
  intros Hf Hb Hall E.
  destruct (format_parts_cases lib fmt parts Hb) as (parts0 & E0 & Hcases).
  rewrite E in E0. injection E0 as <-.
  destruct Hcases as [-> | (pre & seg & post & seg' & -> & _ & Hseg & ->)].
  - apply Forall_app. split; [exact Hall|]. constructor; [|constructor].
    split.
    + intros E'. apply app_eq_nil in E'. destruct E' as [E' _]. discriminate.
    + now rewrite has_char_app, Hf.
  - apply Forall_app in Hall. destruct Hall as [H1 H2].
    inversion H2 as [|? ? Hx Hpost]; subst. apply Forall_app.
    split; [exact H1|].
    constructor; [|exact Hpost].
    exact (set_format_segment_part _ _ _ _ Hf Hb Hx Hseg).
Qed.

Lemma quote_byte_no_amp b : has_char amp (quote_byte b) = false.
Proof.
  unfold quote_byte, has_char.
  destruct (always_safe b) eqn:E; cbn [existsb].
  - rewrite orb_false_r. apply N.eqb_neq. intros <-. discriminate.
  - unfold hex_digit.
    destruct (b / 16 <? 10)%N, (b mod 16 <? 10)%N;
      repeat (apply orb_false_iff; split); try reflexivity;
      apply N.eqb_neq; unfold amp;
      match goal with
      | |- _ <> (_ + ?x)%N => generalize x; intros; lia
      end.
Qed.

Lemma quote_no_amp s quoted : quote s = Some quoted -> has_char amp quoted = false.
Proof.
  unfold quote. destruct (utf8_encode s) as [bs|]; [|discriminate].
  intros [= <-]. induction bs as [|b r IH]; [reflexivity|].
  cbn [flat_map]. now rewrite has_char_app, quote_byte_no_amp, IH.
Qed.

Lemma attname_parts_are_parts quoted parts :
  has_char amp quoted = false -> Forall is_part parts ->
  Forall is_part (attname_parts (py "attname=" ++ quoted) parts).
Proof.
  intros Hq Hall.
  assert (He : is_part (py "attname=" ++ quoted)).
  { split.
    - intros E. apply app_eq_nil in E. destruct E as [E _]. discriminate.
    - now rewrite has_char_app, Hq. }
  unfold attname_parts.
  destruct (replace_first _ _ parts) as [parts'|] eqn:E.
  - apply replace_first_some in E.
    destruct E as (pre & x & post & -> & _ & ->).
    apply Forall_app in Hall. destruct Hall as [H1 H2].
    inversion H2; subst. apply Forall_app. split; [exact H1|].
    now constructor.
  - apply Forall_app. split; [exact Hall|]. now repeat constructor.
Qed.

Lemma query_rewrite_parts lib q f name quoted :
  has_char amp f = false ->
  has_char backslash f = false ->
  quote name = Some quoted ->
  exists parts1 q1 q2,
    format_parts lib f (query_parts q) = Some parts1
    /\ _set_format_in_query lib q f = Some q1
    /\ query_parts q1 = parts1
    /\ _set_attname_in_query q1 name = Some q2
    /\ query_parts q2 = attname_parts (py "attname=" ++ quoted) parts1.
Proof.
  intros Hf Hb Hq.
  destruct (format_parts_cases lib f (query_parts q) Hb)
    as (parts1 & E1 & _).
  assert (Hparts : Forall is_part parts1).
  { apply (format_parts_are_parts lib f (query_parts q) parts1 Hf Hb);
      [apply query_parts_are_parts | exact E1]. }
  assert (H1 : query_parts (join amp parts1) = parts1)
    by now apply query_parts_join.
  exists parts1, (join amp parts1).
  unfold _set_format_in_query, _set_attname_in_query.
  rewrite E1, Hq, H1. eexists.
  split; [reflexivity|]. split; [reflexivity|]. split; [reflexivity|].
  split; [reflexivity|].
  apply (query_parts_join (attname_parts (py "attname=" ++ quoted) parts1)).
  apply attname_parts_are_parts; [now apply (quote_no_amp name) | exact Hparts].
Qed.

(** X20.  For a format that holds neither [&] nor a backslash, so that
    [re.sub] takes it literally, the two query steps return and work on the
    parts between the [&]: cutting the rewritten query into parts again
    gives the parts of the old query with the first [imageMogr2] part
    reformatted and the first [attname=] part replaced, each added at the
    end when there was none. *)
Theorem query_rewrite_by_parts (lib : Library) (q f name quoted : str) :
  has_char amp f = false ->
  has_char backslash f = false ->
  quote name = Some quoted ->
  exists parts1 q1 q2,
    format_parts lib f (query_parts q) = Some parts1
    /\ _set_format_in_query lib q f = Some q1
    /\ query_parts q1 = parts1
    /\ _set_attname_in_query q1 name = Some q2
    /\ query_parts q2 = attname_parts (py "attname=" ++ quoted) parts1.
Proof. apply query_rewrite_parts. Qed.

Lemma query_rewrite_by_parts_witness :
  exists parts1 q1,
    format_parts current_library (py "png")
      (query_parts (py "a=1&imageMogr2/thumbnail/200x&&b=2")) = Some parts1
    /\ _set_format_in_query current_library
         (py "a=1&imageMogr2/thumbnail/200x&&b=2") (py "png") = Some q1
    /\ query_parts q1 = parts1.
Proof.
  destruct (query_rewrite_by_parts current_library
              (py "a=1&imageMogr2/thumbnail/200x&&b=2")
              (py "png") (py "n.png") (py "n.png"))
    as (parts1 & q1 & q2 & H1 & H2 & H3 & _);
    [reflexivity | reflexivity | reflexivity |].
  exists parts1, q1. repeat split; assumption.
Defined.

(** With a backslash in the format, [re.sub] reads the replacement as a
    template: the octal escape of [&] cuts the part in two, and a reference
    to a group that the pattern does not have raises. *)
Example template_escapes :
  _set_format_in_query current_library (py "imageMogr2/format/jpg")
    (py "\046") = Some (py "imageMogr2/format/&")
  /\ query_parts (py "imageMogr2/format/&") = [py "imageMogr2/format/"]
  /\ _set_format_in_query current_library (py "imageMogr2/format/jpg")
       (py "\1") = None
  /\ _set_format_in_query current_library (py "imageMogr2/thumbnail/1")
       (py "\1") = Some (py "imageMogr2/thumbnail/1/format/\1").
Proof. repeat split; vm_compute; reflexivity. Qed.

(** *** What the rewritten query holds *)

Lemma startswith_app p t : startswith p (p ++ t) = true.
Proof.
  induction p as [|c r IH]; [reflexivity|]. cbn. now rewrite N.eqb_refl.
Qed.

Lemma includes_step c r sub :
  includes (c :: r) sub = startswith sub (c :: r) || includes r sub.
Proof. reflexivity. Qed.

Lemma includes_here sub t : includes (sub ++ t) sub = true.
Proof.
  destruct (sub ++ t) eqn:E.
  - destruct sub; [reflexivity | discriminate].
  - rewrite includes_step, <- E, startswith_app. reflexivity.
Qed.

Lemma includes_later a s sub :
  includes s sub = true -> includes (a ++ s) sub = true.
Proof.
  intros H. induction a as [|c r IH]; [exact H|].
  cbn [app]. rewrite includes_step, IH. apply orb_true_r.
Qed.

Lemma sub_first_includes f seg :
  includes seg format_prefix = true ->
  includes (sub_first (fun _ => format_prefix ++ f) seg) (format_prefix ++ f)
  = true.
Proof.
  induction seg as [|c r IH]; [intros H; vm_compute in H; discriminate|].
  rewrite includes_step. cbn [sub_first].
  destruct (startswith format_prefix (c :: r)).
  - intros _. apply includes_here.
  - cbn [orb]. intros H. rewrite includes_step, (IH H). apply orb_true_r.
Qed.

Lemma set_format_segment_includes lib f seg seg' :
  has_char backslash f = false ->
  set_format_segment lib f seg = Some seg' ->
  includes seg' (format_prefix ++ f) = true.
Proof.
  intros Hb. rewrite (set_format_segment_literal _ _ _ Hb).
  intros E. apply (f_equal (fun o => match o with Some x => x | None => [] end))
    in E. rewrite <- E. clear E.
  destruct (includes seg format_prefix) eqn:E.
  - now apply sub_first_includes.
  - apply includes_later. rewrite <- (app_nil_r (format_prefix ++ f)) at 1.
    apply includes_here.
Qed.

Lemma drop_while_gone f s : drop_while f s = [] -> forallb f s = true.
Proof.
  intros H. destruct (drop_while_split f s) as (pre & E & Hp).
  rewrite H, app_nil_r in E. now subst.
Qed.

Lemma rstrip_slash_head c r :
  c <> slash -> exists t, rstrip_slash (c :: r) = c :: t.
Proof.
  intros Hc. unfold rstrip_slash.
  set (w := drop_while (fun x => (x =? slash)%N) (rev (c :: r))).
  assert (Hw : w <> []).
  { intros E. apply drop_while_gone in E. rewrite forallb_rev in E.
    cbn [forallb] in E. apply andb_true_iff in E. destruct E as [E _].
    apply N.eqb_eq in E. contradiction. }
  assert (Hl : last w 0%N = c).
  { unfold w. rewrite drop_while_last by exact Hw.
    rewrite <- hd_rev, rev_involutive. reflexivity. }
  rewrite <- hd_rev in Hl.
  destruct (rev w) as [|x t] eqn:E.
  - apply (f_equal (@rev N)) in E. rewrite rev_involutive in E.
    contradiction.
  - cbn in Hl. subst x. now exists t.
Qed.

Lemma set_format_segment_head lib f c r seg' :
  has_char backslash f = false ->
  c <> slash ->
  set_format_segment lib f (c :: r) = Some seg' ->
  exists t, seg' = c :: t.
Proof.
  intros Hb Hc. rewrite (set_format_segment_literal _ _ _ Hb).
  intros E. apply (f_equal (fun o => match o with Some x => x | None => [] end))
    in E. rewrite <- E. clear E.
  destruct (includes (c :: r) format_prefix).
  - cbn [sub_first].
    assert (E : startswith format_prefix (c :: r) = false).
    { change format_prefix with (slash :: py "format/").
      cbn [startswith]. apply andb_false_iff. left.
      apply N.eqb_neq. congruence. }
    rewrite E. eexists. reflexivity.
  - destruct (rstrip_slash_head c r Hc) as [t ->]. eexists. reflexivity.
Qed.

Lemma starts_imageMogr2 p :
  startswith (py "imageMogr2") p = true -> exists r, p = 105%N :: r.
Proof.
  change (py "imageMogr2") with (105%N :: py "mageMogr2").
  destruct p as [|c r]; [discriminate|]. cbn [startswith]. intros H.
  apply andb_true_iff in H. destruct H as [H _]. apply N.eqb_eq in H.
  subst c. now exists r.
Qed.

Lemma not_attname r : startswith (py "attname=") (105%N :: r) = false.
Proof. reflexivity. Qed.

Lemma replace_first_keeps test f parts parts' p :
  replace_first test f parts = Some parts' ->
  In p parts -> test p = false -> In p parts'.
Proof.
  intros E Hin Hp. apply replace_first_some in E.
  destruct E as (pre & x & post & -> & Hx & ->).
  apply in_app_iff in Hin. apply in_app_iff.
  destruct Hin as [H | [-> | H]]; [now left | congruence | right; now right].
Qed.

Lemma format_parts_facts lib f parts parts' :
  has_char backslash f = false ->
  format_parts lib f parts = Some parts' ->
  (forall p, In p parts -> startswith (py "imageMogr2") p = false ->
             In p parts')
  /\ (exists r, In (105%N :: r) parts' /\
                includes (105%N :: r) (format_prefix ++ f) = true)
  /\ length parts <= length parts' <= length parts + 1.
Proof.
  intros Hb E.
  destruct (format_parts_cases lib f parts Hb) as (parts0 & E0 & Hcases).
  rewrite E in E0. injection E0 as <-.
  destruct Hcases as [-> | (pre & x & post & seg' & -> & Hx & Hseg & ->)].
  - split; [intros p Hp _; apply in_app_iff; now left|]. split.
    + exists (py "mageMogr2/format/" ++ f). split.
      * apply in_app_iff. right. left. reflexivity.
      * change (105%N :: py "mageMogr2/format/" ++ f)
          with (py "imageMogr2" ++ format_prefix ++ f).
        apply includes_later. rewrite <- (app_nil_r (format_prefix ++ f)) at 1.
        apply includes_here.
    + rewrite length_app. cbn [length]. unfold str in *. lia.
  - split.
    { intros p Hin Hp. apply in_app_iff in Hin. apply in_app_iff.
      destruct Hin as [H | [-> | H]];
        [now left | congruence | right; now right]. }
    split.
    + destruct (starts_imageMogr2 _ Hx) as [r ->].
      destruct (set_format_segment_head lib f 105%N r seg' Hb) as [t ->];
        [discriminate | exact Hseg |].
      exists t. split.
      * apply in_app_iff. right. now left.
      * exact (set_format_segment_includes _ _ _ _ Hb Hseg).
    + rewrite !length_app. cbn [length]. unfold str in *. lia.
Qed.

Lemma attname_parts_facts encoded parts :
  (forall p, In p parts -> startswith (py "attname=") p = false ->
             In p (attname_parts encoded parts))
  /\ In encoded (attname_parts encoded parts)
  /\ length parts <= length (attname_parts encoded parts) <= length parts + 1.
Proof.
  unfold attname_parts.
  destruct (replace_first _ _ parts) as [parts'|] eqn:E.
  - split; [intros p; now apply (replace_first_keeps _ _ _ _ _ E)|].
    apply replace_first_some in E.
    destruct E as (pre & x & post & -> & Hx & ->).
    split; [apply in_app_iff; right; now left|].
    rewrite !length_app. cbn [length]. unfold str in *. lia.
  - split; [intros p Hp _; apply in_app_iff; now left|].
    split; [apply in_app_iff; right; now left|].
    rewrite length_app. cbn [length]. unfold str in *. lia.
Qed.

(** X21.  For a format that holds neither [&] nor a backslash and a file
    name that [quote] can encode, the two query steps return, and the
    rewritten query keeps every parameter of the old query that starts
    neither with [imageMogr2] nor with [attname=]; it has a part that asks
    for the format and the part [attname=] with the quoted file name; and it
    has at most two parts more than the old one, never fewer. *)
Theorem rewritten_query_contents (lib : Library) (q f name quoted : str) :
  has_char amp f = false ->
  has_char backslash f = false ->
  quote name = Some quoted ->
  exists q1 q2,
    _set_format_in_query lib q f = Some q1
    /\ _set_attname_in_query q1 name = Some q2
    /\ (forall p, In p (query_parts q) ->
                  startswith (py "imageMogr2") p = false ->
                  startswith (py "attname=") p = false ->
                  In p (query_parts q2))
    /\ (exists seg, In seg (query_parts q2) /\
                    includes seg (py "/format/" ++ f) = true)
    /\ In (py "attname=" ++ quoted) (query_parts q2)
    /\ length (query_parts q) <= length (query_parts q2)
       <= length (query_parts q) + 2.
Proof.
  intros Hf Hb Hq.
  destruct (query_rewrite_parts lib q f name quoted Hf Hb Hq)
    as (parts1 & q1 & q2 & E1 & E2 & _ & E3 & Hparts).
  exists q1, q2. split; [exact E2|]. split; [exact E3|]. rewrite Hparts.
  destruct (format_parts_facts lib f (query_parts q) parts1 Hb E1)
    as (F1 & (r & F2 & F3) & F4).
  destruct (attname_parts_facts (py "attname=" ++ quoted) parts1)
    as (A1 & A2 & A3).
  split; [|split; [|split]].
  - intros p Hp Hm Ha. apply A1; [now apply F1 | exact Ha].
  - exists (105%N :: r). split; [|exact F3].
    apply A1; [exact F2 | apply not_attname].
  - exact A2.
  - unfold str in *. lia.
Qed.

Lemma rewritten_query_contents_witness :
  exists q1 q2,
    _set_format_in_query current_library
      (py "a=1&imageMogr2/thumbnail/200x&&b=2") (py "png") = Some q1
    /\ _set_attname_in_query q1 (py "n.png") = Some q2
    /\ In (py "b=2") (query_parts q2).
Proof.
  destruct (rewritten_query_contents current_library
              (py "a=1&imageMogr2/thumbnail/200x&&b=2") (py "png")
              (py "n.png") (py "n.png"))
    as (q1 & q2 & H1 & H2 & K & _);
    [reflexivity | reflexivity | reflexivity |].
  exists q1, q2. split; [exact H1|]. split; [exact H2|].
  apply K; [vm_compute; tauto | reflexivity | reflexivity].
Defined.

(** *** [main] of the workflow *)



(** With the older [urlunsplit], [main] on [http:x] returns URLs whose path
    is [/x]. *)
Example older_main_changes_path :
  main older_library (py "http:x") None
  = Some (py "http:///x?imageMogr2/format/png&attname=x.png",
          py "http:///x?imageMogr2/format/jpg&attname=x.jpg")
  /\ main current_library (py "http:x") None
     = Some (py "http:x?imageMogr2/format/png&attname=x.png",
             py "http:x?imageMogr2/format/jpg&attname=x.jpg").
Proof. split; vm_compute; reflexivity. Qed.

End UrlMore.

(* ------------------------------------------------------------------ *)
(** ** The note id                                                      *)
(* ------------------------------------------------------------------ *)

Section NoteIdFacts.
Import Text NoteId.

Lemma take_while_split f s :
  f 0%N = false ->
  exists rest,
    s = take_while f s ++ rest /\
    forallb f (take_while f s) = true /\
    f (hd 0%N rest) = false.
Proof.
  intros H0. induction s as [|c r (rest & E & Hd & Hr)]; cbn [take_while].
  - now exists [].
  - destruct (f c) eqn:Ec.
    + exists rest. cbn. rewrite Ec, Hd. split; [now f_equal | now split].
    + exists (c :: r). now repeat split.
Qed.

Lemma startswith_split p : forall s,
  startswith p s = true -> s = p ++ skipn (length p) s.
Proof.
  induction p as [|c r IH]; intros s H; [reflexivity|].
  destruct s as [|x t]; [discriminate|]. cbn [startswith] in H.
  apply andb_true_iff in H. destruct H as [Hc Hr].
  apply N.eqb_eq in Hc. subst x. cbn [length skipn app]. f_equal.
  now apply IH.
Qed.

Lemma skipn_app_exact (p t : list N) : skipn (length p) (p ++ t) = t.
Proof. induction p as [|c r IH]; [reflexivity | exact IH]. Qed.

Lemma startswith_prefix p t : startswith p (p ++ t) = true.
Proof.
  induction p as [|c r IH]; [reflexivity|]. cbn. now rewrite N.eqb_refl.
Qed.

Lemma extract_note_id_step c rest :
  extract_note_id (c :: rest) =
  if startswith item_prefix (c :: rest) then
    match take_while id_char (skipn (length item_prefix) (c :: rest)) with
    | [] => extract_note_id rest
    | note_id => Some note_id
    end
  else extract_note_id rest.
Proof. reflexivity. Qed.

Lemma item_prefix_cons t : exists r, item_prefix ++ t = 47%N :: r.
Proof. eexists. reflexivity. Qed.

Lemma extract_note_id_some url : forall note_id,
  extract_note_id url = Some note_id ->
  note_id <> [] /\ forallb id_char note_id = true /\
  exists pre post,
    url = pre ++ item_prefix ++ note_id ++ post /\
    id_char (hd 0%N post) = false /\
    forall pre' c post',
      url = pre' ++ item_prefix ++ c :: post' -> id_char c = true ->
      length pre <= length pre'.
Proof.
  induction url as [|x rest IH]; intros m; [discriminate|].
  rewrite extract_note_id_step.
  assert (Hrec : extract_note_id rest = Some m ->
                 (forall c post', x :: rest = item_prefix ++ c :: post' ->
                                  id_char c = true -> False) ->
                 m <> [] /\ forallb id_char m = true /\
                 exists pre post,
                   x :: rest = pre ++ item_prefix ++ m ++ post /\
                   id_char (hd 0%N post) = false /\
                   forall pre' c post',
                     x :: rest = pre' ++ item_prefix ++ c :: post' ->
                     id_char c = true -> length pre <= length pre').
  { intros H Hno. destruct (IH _ H) as (H1 & H2 & pre & post & E & Hp & Hl).
    split; [exact H1|]. split; [exact H2|].
    exists (x :: pre), post. split; [cbn; now f_equal|].
    split; [exact Hp|]. intros pre' c post' E' Hc.
    destruct pre' as [|y pre''].
    - exfalso. exact (Hno c post' E' Hc).
    - cbn [app] in E'. injection E' as _ E'. cbn [length].
      apply le_n_S. exact (Hl _ _ _ E' Hc). }
  destruct (startswith item_prefix (x :: rest)) eqn:Es.
  - destruct (take_while id_char (skipn (length item_prefix) (x :: rest)))
      as [|n l] eqn:Et.
    + intros H. apply Hrec; [exact H|]. intros c post' E Hc.
      rewrite E, skipn_app_exact in Et. cbn [take_while] in Et.
      rewrite Hc in Et. discriminate.
    + intros [= <-].
      destruct (take_while_split id_char
                  (skipn (length item_prefix) (x :: rest)) eq_refl)
        as (post & E & Hd & Hp).
      rewrite Et in E, Hd.
      split; [discriminate|]. split; [exact Hd|].
      exists [], post. split.
      * change (x :: rest = item_prefix ++ (n :: l) ++ post).
        rewrite <- E. now apply startswith_split.
      * split; [exact Hp|]. intros. cbn. lia.
  - intros H. apply Hrec; [exact H|]. intros c post' E Hc.
    rewrite E, startswith_prefix in Es. discriminate.
Qed.

Lemma extract_note_id_found pre : forall c post,
  id_char c = true ->
  extract_note_id (pre ++ item_prefix ++ c :: post) <> None.
Proof.
  induction pre as [|x pre' IH]; intros c post Hc.
  - cbn [app]. destruct (item_prefix_cons (c :: post)) as [r E].
    rewrite E, extract_note_id_step, <- E.
    rewrite startswith_prefix, skipn_app_exact. cbn [take_while].
    rewrite Hc. discriminate.
  - cbn [app]. rewrite extract_note_id_step.
    destruct (startswith item_prefix _);
      [destruct (take_while id_char _); [|discriminate]|]; now apply IH.
Qed.

(** X23.  The note id that [extract_note_id] returns is not empty and is made
    of the characters a-z and 0-9; it stands in the URL right after the first
    "/item/" that such a character follows, and it runs as far as these
    characters go. The function returns [None] exactly when no "/item/" of the
    URL is followed by such a character. *)
Theorem note_id_is_first_item_segment (url : list N) :
  (forall note_id,
      extract_note_id url = Some note_id ->
      note_id <> [] /\ forallb id_char note_id = true /\
      exists pre post,
        url = pre ++ item_prefix ++ note_id ++ post /\
        id_char (hd 0%N post) = false /\
        forall pre' c post',
          url = pre' ++ item_prefix ++ c :: post' -> id_char c = true ->
          length pre <= length pre')
  /\ (extract_note_id url = None <->
      forall pre c post,
        url = pre ++ item_prefix ++ c :: post -> id_char c = false).
Proof.
  split; [apply extract_note_id_some|]. split.
  - intros H pre c post E. destruct (id_char c) eqn:Hc; [|reflexivity].
    exfalso. apply (extract_note_id_found pre c post Hc). now rewrite <- E.
  - intros H. destruct (extract_note_id url) as [m|] eqn:E; [|reflexivity].
    exfalso.
    destruct (extract_note_id_some _ _ E) as (Hne & Hd & pre & post & Eu & _).
    destruct m as [|c m']; [congruence|].
    cbn [forallb] in Hd. apply andb_true_iff in Hd. destruct Hd as [Hc _].
    rewrite (H pre c (m' ++ post) Eu) in Hc. discriminate.
Qed.

Lemma note_id_is_first_item_segment_witness :
  py "68982712000000002500d698" <> [] /\
  forallb id_char (py "68982712000000002500d698") = true.
Proof.
  destruct (proj1 (note_id_is_first_item_segment sample_url)
              (py "68982712000000002500d698")) as (H1 & H2 & _).
  - vm_compute. reflexivity.
  - now split.
Defined.

End NoteIdFacts.

(* ------------------------------------------------------------------ *)
(** ** The login check                                                  *)
(* ------------------------------------------------------------------ *)

Section LoginFacts.
Import Text Login.

Lemma startswith_includes sub s :
  startswith sub s = true -> includes s sub = true.
Proof. intros H. destruct s; cbn [includes]; now rewrite H. Qed.

Lemma includes_tail s : forall c sub,
  includes s (c :: sub) = true -> includes s sub = true.
Proof.
  induction s as [|x r IH]; intros c sub; [discriminate|].
  rewrite !includes_step. intros H. apply orb_true_iff in H.
  destruct H as [H|H].
  - cbn [startswith] in H. apply andb_true_iff in H. destruct H as [_ H].
    rewrite (startswith_includes _ _ H). apply orb_true_r.
  - rewrite (IH _ _ H). apply orb_true_r.
Qed.

Lemma has_login_button_false probe indicators :
  has_login_button probe indicators = false <->
  Forall (fun i => probe i <> Visible) indicators.
Proof.
  induction indicators as [|i rest IH]; cbn [has_login_button].
  - split; [constructor | reflexivity].
  - destruct (probe i) eqn:E.
    + split; [discriminate|]. intros H. inversion H; subst. congruence.
    + rewrite IH. split; intros H.
      * constructor; [congruence | exact H].
      * now inversion H.
    + rewrite IH. split; intros H.
      * constructor; [congruence | exact H].
      * now inversion H.
Qed.

Lemma existsb_false_Forall {A : Type} (f : A -> bool) l :
  existsb f l = false <-> Forall (fun x => f x = false) l.
Proof.
  induction l as [|x r IH]; cbn [existsb].
  - split; [constructor | reflexivity].
  - rewrite orb_false_iff, IH. split.
    + intros [H1 H2]. now constructor.
    + intros H. now inversion H.
Qed.

Lemma login_text_false t :
  existsb (fun keyword => includes t keyword) text_keywords = false <->
  includes t (py "登录") = false /\ includes t (py "注册") = false.
Proof.
  unfold text_keywords. cbn [existsb]. rewrite orb_false_r.
  rewrite !orb_false_iff. split.
  - intros (_ & H2 & H3). now split.
  - intros [H2 H3]. split; [|now split].
    destruct (includes t (py "请登录")) eqn:E; [|reflexivity].
    change (py "请登录") with (35831%N :: py "登录") in E.
    apply includes_tail in E. congruence.
Qed.

(** X24.  [check_login_status] answers [True] exactly when nothing raised
    outside the probing of the indicators, no indicator is visible, the
    lower-cased URL holds none of "login", "signin" and "register", and the
    page text holds neither of the two words for logging in and registering
    (the third keyword contains the first and adds nothing). *)
Theorem login_check_true_iff (p : LoginPage) :
  check_login_status p = true <->
  wait_raises p = false
  /\ Forall (fun indicator => probe p indicator <> Visible) login_indicators
  /\ Forall (fun keyword => includes (lower (page_url p)) keyword = false)
            url_keywords
  /\ exists page_text,
       body_text p = Some page_text /\
       includes page_text (py "登录") = false /\
       includes page_text (py "注册") = false.
Proof.
  unfold check_login_status.
  rewrite <- has_login_button_false, <- existsb_false_Forall.
  destruct (wait_raises p); [split; [discriminate | now intros [? _]]|].
  destruct (body_text p) as [t|].
  2:{ split; [discriminate|]. intros (_ & _ & _ & t & E & _). discriminate. }
  destruct (has_login_button (probe p) login_indicators).
  { split; [discriminate|]. now intros (_ & ? & _). }
  destruct (existsb _ url_keywords).
  { split; [discriminate|]. now intros (_ & _ & ? & _). }
  cbn [orb].
  destruct (existsb _ text_keywords) eqn:Et.
  - split; [discriminate|]. intros (_ & _ & _ & t' & [= <-] & H).
    apply login_text_false in H. congruence.
  - apply login_text_false in Et. split; [|reflexivity]. intros _.
    repeat split. now exists t.
Qed.

Lemma login_check_true_iff_witness : check_login_status member_page = true.
Proof.
  apply (proj2 (login_check_true_iff member_page)).
  split; [reflexivity|].
  split; [repeat (constructor; [discriminate|]); constructor|].
  split; [repeat (constructor; [vm_compute; reflexivity|]); constructor|].
  exists (py "Great post!"). repeat split; vm_compute; reflexivity.
Defined.

End LoginFacts.

(* ------------------------------------------------------------------ *)
(** ** The image scraper                                                *)
(* ------------------------------------------------------------------ *)

Section ImageFacts.
Import Text Images.

Lemma NoDup_snoc {A : Type} (l : list A) x :
  NoDup l -> ~ In x l -> NoDup (l ++ [x]).
Proof.
  induction 1 as [|y l Hy Hl IH]; intros Hx; cbn.
  - repeat constructor. intros [].
  - constructor.
    + intros Hin. apply in_app_iff in Hin.
      destruct Hin as [Hin | [-> | []]]; [now apply Hy|].
      apply Hx. now left.
    + apply IH. intros Hin. apply Hx. now right.
Qed.

Lemma before_question_clean u :
  has_char question (before_question u) = false.
Proof.
  unfold before_question.
  destruct (split_first question u) as [[a b]|] eqn:E.
  - now apply url_split_first_some in E.
  - now apply url_split_first_none in E.
Qed.

Lemma pickUrl_good urls u : good urls -> good (pickUrl urls u).
Proof.
  intros [Hn Hp]. unfold pickUrl. destruct u as [|c r]; [now split|].
  destruct (is_cdn (before_question (c :: r))) eqn:E; [|now split].
  unfold set_add.
  destruct (mem (before_question (c :: r)) urls) eqn:Em; [now split|].
  apply mem_false_In in Em. split; [now apply NoDup_snoc|].
  apply Forall_app. split; [exact Hp|]. constructor; [|constructor].
  split; [|split; [apply before_question_clean | exact E]].
  intros E0. rewrite E0 in E. discriminate.
Qed.

Lemma from_img_good urls img : good urls -> good (from_img urls img).
Proof.
  intros H. unfold from_img.
  match goal with
  | |- good match _ with [] => ?a | _ :: _ => _ end =>
      assert (H1 : good a)
  end.
  { destruct (or_str (currentSrc img) _); [exact H | now apply pickUrl_good]. }
  destruct (or_str (srcset img) _); [exact H1 | now apply pickUrl_good].
Qed.

Lemma from_bg_good urls bg : good urls -> good (from_bg urls bg).
Proof.
  intros H. unfold from_bg. destruct (startswith _ bg); [|exact H].
  destruct (bg_match bg) as [[|c r]|]; try exact H. now apply pickUrl_good.
Qed.

Lemma fold_left_good {A : Type} (f : list jsstr -> A -> list jsstr) l :
  (forall urls a, good urls -> good (f urls a)) ->
  forall urls, good urls -> good (fold_left f l urls).
Proof.
  intros Hf. induction l as [|a r IH]; intros urls H; [exact H|].
  cbn [fold_left]. apply IH, Hf, H.
Qed.

Lemma from_root_good urls root : good urls -> good (from_root urls root).
Proof.
  intros H. unfold from_root.
  apply fold_left_good; [apply from_bg_good|].
  apply fold_left_good; [apply from_img_good | exact H].
Qed.

Lemma script_good page : good (script page).
Proof.
  unfold script. apply fold_left_good; [apply from_root_good|].
  split; constructor.
Qed.

Lemma fromkeys_fixed l : forall seen,
  NoDup l -> (forall u, In u l -> ~ In u seen) -> fromkeys seen l = l.
Proof.
  induction l as [|u rest IH]; intros seen Hn Hs; [reflexivity|].
  cbn [fromkeys]. inversion Hn as [|? ? Hu Hrest]; subst.
  assert (Hm : mem u seen = false)
    by (apply mem_false_In, Hs; now left).
  rewrite Hm. f_equal. apply IH; [exact Hrest|].
  intros v Hv [<- | Hin]; [contradiction|].
  apply (Hs v); [now right | exact Hin].
Qed.

Lemma extract_comment_images_script page :
  extract_comment_images (Some page) = script page.
Proof.
  cbn [extract_comment_images]. apply fromkeys_fixed.
  - apply script_good.
  - intros u _ [].
Qed.

Lemma scrape_cases s max_scrolls :
  scrape s max_scrolls = [] \/
  exists page, scrape s max_scrolls = script page.
Proof.
  unfold scrape. destruct (setup_raises s); [now left|].
  destruct (Scroll.scroll_and_expand (heights s) max_scrolls) as [[| |] st];
    try (now left);
    (destruct (dom_after s (Scroll.rounds st)) as [page|];
     [|destruct (close_raises s); now left]);
    (destruct (close_raises s); [now left|]);
    right; exists page; apply extract_comment_images_script.
Qed.

(** X25.  The image scraper returns no URL twice, no empty URL and no URL with
    a question mark, and every URL it returns holds one of the four words of
    the host test; the de-duplication on the Python side never removes
    anything, the set of the script having done it. *)
Theorem scraped_image_urls (s : Session) (max_scrolls : nat) :
  NoDup (scrape s max_scrolls)
  /\ (forall u, In u (scrape s max_scrolls) -> picked u)
  /\ (forall page, extract_comment_images (Some page) = script page).
Proof.
  split; [|split; [|apply extract_comment_images_script]].
  - destruct (scrape_cases s max_scrolls) as [-> | [page ->]];
      [constructor | apply script_good].
  - intros u. destruct (scrape_cases s max_scrolls) as [-> | [page ->]];
      [intros []|].
    destruct (script_good page) as [_ H]. rewrite Forall_forall in H.
    apply H.
Qed.

Lemma scraped_image_urls_witness :
  picked (js "https://ci.XHSCDN.com/bg.png").
Proof.
  apply (proj1 (proj2 (scraped_image_urls sample_session 20))).
  vm_compute. tauto.
Defined.

Lemma scopes_candidates nodes root root' :
  existsb is_candidate nodes = true ->
  scopes (mkPage nodes root) = scopes (mkPage nodes root').
Proof.
  intros H. unfold scopes. cbn [Images.nodes whole].
  destruct (filter is_candidate nodes) eqn:E; [|reflexivity].
  apply existsb_exists in H. destruct H as (n & Hin & Hn).
  assert (Hf : In n (filter is_candidate nodes))
    by (apply filter_In; now split).
  rewrite E in Hf. destruct Hf.
Qed.

(** X26.  When a container that looks like a comment area is found, the script
    reads images below such containers only: what the rest of the document
    holds does not change the result. Without one, it reads the whole
    document. *)
Theorem image_search_scope (nodes : list Node) (root root' : Root) :
  (existsb is_candidate nodes = true ->
   script (mkPage nodes root) = script (mkPage nodes root'))
  /\ (existsb is_candidate nodes = false ->
      script (mkPage nodes root) = from_root [] root).
Proof.
  split; intros H; unfold script.
  - now rewrite (scopes_candidates nodes root root' H).
  - unfold scopes. cbn [Images.nodes whole].
    assert (E : filter is_candidate nodes = []).
    { destruct (filter is_candidate nodes) as [|n l] eqn:E; [reflexivity|].
      assert (Hin : In n (filter is_candidate nodes))
        by (rewrite E; now left).
      apply filter_In in Hin. destruct Hin as [Hin Hn].
      assert (existsb is_candidate nodes = true)
        by (apply existsb_exists; now exists n).
      congruence. }
    now rewrite E.
Qed.

Lemma image_search_scope_witness :
  script sample_page
  = script (mkPage (nodes sample_page) (mkRoot [sample_img] [])).
Proof.
  apply (proj1 (image_search_scope (nodes sample_page) (mkRoot [] [])
                  (mkRoot [sample_img] []))).
  vm_compute. reflexivity.
Defined.

(** X27.  On a file of complete cookies, the simple loader of the image
    scraper and the loader of the comment scraper return the same list. *)
Theorem image_loader_agrees (log : Logging.Logger) (clock : nat -> Z)
        (file : Cookies.CookieFile) (l : list Cookies.value) :
  load_cookies file = Cookies.VList l ->
  l <> [] ->
  Forall (fun c => Cookies.complete false c = true) l ->
  existsb (Cookies.log_raises log) l = false ->
  Cookies.load_cookies log clock file = Some l.
Proof.
  intros H Hne Hc Hlog. unfold Cookies.load_cookies, Cookies.load_file.
  assert (Hl : Cookies.load_data log false clock (Cookies.VList l) = Some l).
  { rewrite load_data_list by exact Hne.
    rewrite validate_fixed by exact Hc. now rewrite Hlog. }
  destruct file as [| | |data]; try discriminate.
  unfold load_cookies in H.
  destruct data as [| | | | |l0|d]; try discriminate.
  - now injection H as ->.
  - destruct (Cookies.dict_has (py "cookies") d) eqn:Ed; [|discriminate].
    destruct (Cookies.dict_get (py "cookies") d) as [v|] eqn:Eg;
      [|discriminate].
    subst v. rewrite <- Hl. unfold Cookies.load_data.
    cbn [Cookies.select_cookies]. now rewrite Ed, Eg.
Qed.

Lemma image_loader_agrees_witness :
  Cookies.load_cookies Logging.strict_logger Cookies.sample_clock
    (Cookies.Parsed
       (Cookies.VDict
          [(py "cookies",
            Cookies.VList
              [Cookies.VDict [ (py "name", Cookies.VStr (py "a1"));
                               (py "value", Cookies.VStr (py "xyz"));
                               (py "domain", Cookies.VStr (py ".xiaohongshu.com"));
                               (py "path", Cookies.VStr (py "/")) ]])]))
  = Some [Cookies.VDict [ (py "name", Cookies.VStr (py "a1"));
                          (py "value", Cookies.VStr (py "xyz"));
                          (py "domain", Cookies.VStr (py ".xiaohongshu.com"));
                          (py "path", Cookies.VStr (py "/")) ]].
Proof.
  apply (image_loader_agrees Logging.strict_logger Cookies.sample_clock);
    [ vm_compute; reflexivity | discriminate
    | repeat constructor | vm_compute; reflexivity ].
Defined.



End ImageFacts.
